(** * Post-capture pipeline of the sky-image watchdog: a shallow embedding

  The development follows the four services of the repository:
  - [Cleanup]      : services/cleanup.py       (storage eviction)
  - [AscomSafety]  : services/ascom_safety.py  (safety-signal file writer)
  - [MLService]    : services/ml_service.py    (inference front end)
  - [RTSP]         : services/rtsp_output.py   (encoder bridge)

  Python integers are [Z]; finite floats are read as the rationals they
  denote ([Q]); the result dictionary of the analysis is a finite map,
  configuration dictionaries are records of optional entries; the file
  system, the encoder subprocess and the clock are explicit state, and
  what the platform may do (raise, time out) is a parameter of each
  call. *)

From Stdlib Require Import ZArith QArith Qround Qabs Qminmax Ascii String Lia.
From stdpp Require Import base list strings gmap sorting pretty.

(** ** Numbers *)

(** Rounding to the nearest integer, ties to even, as [round] and float
    formatting do. *)
Definition round_half_even (q : Q) : Z :=
  let f := Qfloor q in
  match (q - inject_Z f ?= 1 # 2)%Q with
  | Lt => f
  | Gt => (f + 1)%Z
  | Eq => if Z.even f then f else (f + 1)%Z
  end.

(** The integer [e] with [2^e <= q < 2^(e+1)], for a positive [q]. *)
Definition ilog2 (q : Q) : Z :=
  let e := (Z.log2 (Qnum q) - Z.log2 (Z.pos (Qden q)))%Z in
  if Qle_bool (Qpower 2 e) q then e else (e - 1)%Z.

(** The double nearest to [q], ties to even: a significand of 53 bits,
    and the fixed spacing [2^-1074] of the subnormal range.  A double is
    read as the rational it is, so that [fl64] leaves it as it is; a
    rational that is not a double is read as the double a literal of that
    value gives.  Overflow to infinity is left out. *)
Definition fl64 (q : Q) : Q :=
  if Qeq_bool q 0 then 0%Q
  else
    let a := Qabs q in
    let ulp := Qpower 2 (Z.max (ilog2 a - 52) (-1074)) in
    let m := inject_Z (round_half_even (a / ulp)) in
    Qred ((if Qle_bool 0 q then m else - m) * ulp)%Q.

(** [round(float(x), 3)] *)
Definition round3 (q : Q) : Q := Qred (inject_Z (round_half_even (q * 1000)) / 1000).

(** ** Python's stable [list.sort(key=...)] *)

Section StableSort.
Context {A : Type} (key : A → Z).

(** [x] is placed in front of the first element whose key is not smaller,
    so that an element that came earlier in the input stays in front of
    its ties. *)
Fixpoint insert_by (x : A) (l : list A) : list A :=
  match l with
  | [] => [x]
  | y :: l' =>
      if decide (key x ≤ key y)%Z then x :: y :: l' else y :: insert_by x l'
  end.

Definition sort_by (l : list A) : list A := foldr insert_by [] l.

Definition key_le (a b : A) : Prop := (key a ≤ key b)%Z.

Lemma insert_by_perm x l : insert_by x l ≡ₚ x :: l.
Proof.
  induction l as [|y l IH]; simpl; [done|].
  case_decide; [done|]. rewrite IH. apply Permutation_swap.
Qed.

Lemma sort_by_perm l : sort_by l ≡ₚ l.
Proof.
  induction l as [|x l IH]; simpl; [done|].
  by rewrite insert_by_perm, IH.
Qed.

Lemma insert_by_sorted x l :
  StronglySorted key_le l → StronglySorted key_le (insert_by x l).
Proof.
  induction 1 as [|y l Hs IH Hall]; simpl.
  - repeat constructor.
  - case_decide as Hle.
    + constructor; [by constructor|].
      constructor; [done|].
      eapply Forall_impl; [exact Hall|]. unfold key_le. intros; lia.
    + constructor; [done|].
      rewrite insert_by_perm. constructor; [unfold key_le; lia | done].
Qed.

Lemma sort_by_sorted l : StronglySorted key_le (sort_by l).
Proof.
  induction l as [|x l IH]; simpl; [constructor|].
  by apply insert_by_sorted.
Qed.

Lemma elem_of_sort_by x l : x ∈ sort_by l ↔ x ∈ l.
Proof. by rewrite sort_by_perm. Qed.

Lemma sort_by_length l : length (sort_by l) = length l.
Proof. by rewrite sort_by_perm. Qed.

(** Stability: elements with the same key keep their input order. *)
Lemma insert_by_same_key x l k :
  filter (λ y, key y = k) (insert_by x l)
  = filter (λ y, key y = k) (x :: l).
Proof.
  induction l as [|y l IH]; simpl; [done|].
  case_decide as Hle; [done|].
  rewrite filter_cons, IH, !(filter_cons _ x), (filter_cons _ y).
  destruct (decide (key y = k)) as [Hy|Hy]; [|done].
  destruct (decide (key x = k)) as [Hx|Hx]; [lia|done].
Qed.

Lemma sort_by_stable l k :
  filter (λ y, key y = k) (sort_by l) = filter (λ y, key y = k) l.
Proof.
  induction l as [|x l IH]; simpl; [done|].
  by rewrite insert_by_same_key, !filter_cons, IH.
Qed.

Lemma sorted_app_le l1 l2 a b :
  StronglySorted key_le (l1 ++ l2) → a ∈ l1 → b ∈ l2 → (key a ≤ key b)%Z.
Proof.
  induction l1 as [|x l1 IH]; simpl; intros Hs Ha Hb.
  - by apply elem_of_nil in Ha.
  - apply StronglySorted_inv in Hs as [Hs Hall].
    apply elem_of_cons in Ha as [->|Ha]; [|by apply IH].
    rewrite Forall_forall in Hall. apply Hall.
    apply elem_of_app; by right.
Qed.

Lemma sorted_sublist l1 l2 :
  l1 `sublist_of` l2 → StronglySorted key_le l2 → StronglySorted key_le l1.
Proof.
  induction 1 as [|x l1 l2 Hsub IH|x l1 l2 Hsub IH]; intros Hs.
  - constructor.
  - apply StronglySorted_inv in Hs as [Hs Hall]. constructor; [by apply IH|].
    rewrite Forall_forall in *. intros y Hy. apply Hall.
    by eapply elem_of_sublist.
  - apply StronglySorted_inv in Hs as [Hs _]. by apply IH.
Qed.
End StableSort.

(** ** services/cleanup.py *)

Module Cleanup.
Local Open Scope Z_scope.

(** A path is its list of components; [os.path.join(dirpath, name)] is
    [dirpath ++ [name]]. *)
Abbreviation path := (list string).

(** A regular file as [os.walk], [os.path.getmtime] and [os.path.getsize]
    see it.  Modification times are only compared with each other, so they
    are taken on an integer scale (nanoseconds); sizes are byte counts, and
    a cap that is not a whole number of bytes compares like its integer
    part.  [f_busy] marks a file on which [os.remove] raises (held open by
    another process, or protected): the source wraps every removal in
    [try/except]. *)
Record file := File {
  f_path : path;
  f_mtime : Z;
  f_size : Z;
  f_busy : bool
}.

Record folder := Folder { d_path : path; d_mtime : Z }.

#[global] Instance file_eq_dec : EqDecision file.
Proof. solve_decision. Defined.

#[global] Instance folder_eq_dec : EqDecision folder.
Proof. solve_decision. Defined.

(** The file system: regular files in the order in which a top-down
    [os.walk] of the root lists them, and directories in [os.listdir]
    order. *)
Record fs := Fs { fs_files : list file; fs_dirs : list folder }.

(** [inside d p]: [p] lies strictly below directory [d]. *)
Fixpoint inside (d p : path) : bool :=
  match d, p with
  | [], _ :: _ => true
  | x :: d', y :: p' => if decide (x = y) then inside d' p' else false
  | _, _ => false
  end.

(** [child_of d p]: [p] is [os.path.join(d, item)] for an [item] listed
    by [os.listdir(d)]. *)
Fixpoint child_of (d p : path) : bool :=
  match d, p with
  | [], [_] => true
  | x :: d', y :: p' => if decide (x = y) then child_of d' p' else false
  | _, _ => false
  end.

(** The files that [os.walk(directory)] yields, in its order. *)
Definition walk (t : fs) (directory : path) : list file :=
  filter (λ f, inside directory (f_path f)) (fs_files t).

Definition sum_sizes (l : list file) : Z := foldr (λ f acc, f_size f + acc) 0 l.

Definition get_directory_size (t : fs) (directory : path) : Z :=
  sum_sizes (walk t directory).

(** Each element stands for the tuple [(filepath, mtime, size)]. *)
Definition get_all_files_with_mtime (t : fs) (directory : path) : list file :=
  walk t directory.

(** The tuple [(folder_path, mtime, size)]. *)
Record session := Session { s_path : path; s_mtime : Z; s_size : Z }.

#[global] Instance session_eq_dec : EqDecision session.
Proof. solve_decision. Defined.

Definition get_session_folders (t : fs) (directory : path) : list session :=
  (λ d, Session (d_path d) (d_mtime d) (get_directory_size t (d_path d)))
    <$> filter (λ d, child_of directory (d_path d)) (fs_dirs t).

Definition lookup_file (t : fs) (p : path) : option file :=
  head (filter (λ f, f_path f = p) (fs_files t)).

(** [os.path.getsize]; [None] stands for the raised [OSError]. *)
Definition os_path_getsize (t : fs) (p : path) : option Z :=
  f_size <$> lookup_file t p.

(** [os.remove]; [None] stands for the raised exception.  Directories
    are never in [fs_files], so a directory path raises as well. *)
Definition os_remove (t : fs) (p : path) : option fs :=
  match lookup_file t p with
  | Some f =>
      if f_busy f then None
      else Some (Fs (filter (λ g, f_path g ≠ p) (fs_files t)) (fs_dirs t))
  | None => None
  end.

(** The local variables of the two strategies, with the file system they
    act on.  [r_removed] lists, in call order, the paths on which
    [os.remove] returned (the "Deleted file" lines printed). *)
Record run := Run {
  r_fs : fs;
  r_current_size : Z;
  r_deleted_count : Z;
  r_removed : list path
}.

(** The [for filepath, mtime, size in files] loop of
    [delete_oldest_files]. *)
Fixpoint delete_files_loop (max_size_bytes : Z) (files : list file) (st : run) : run :=
  match files with
  | [] => st
  | f :: rest =>
      if decide (r_current_size st ≤ max_size_bytes) then st
      else
        match os_remove (r_fs st) (f_path f) with
        | Some t' =>
            delete_files_loop max_size_bytes rest
              (Run t' (r_current_size st - f_size f) (r_deleted_count st + 1)
                   (r_removed st ++ [f_path f]))
        | None => delete_files_loop max_size_bytes rest st
        end
  end.

Definition delete_oldest_files_run (t : fs) (directory : path) (max_size_bytes : Z) : run :=
  let current_size := get_directory_size t directory in
  if decide (current_size ≤ max_size_bytes) then Run t current_size 0 []
  else
    let files := sort_by f_mtime (get_all_files_with_mtime t directory) in
    delete_files_loop max_size_bytes files (Run t current_size 0 []).

Definition delete_oldest_files (t : fs) (directory : path) (max_size_bytes : Z) : Z :=
  r_deleted_count (delete_oldest_files_run t directory max_size_bytes).

(** The two nested loops over [os.walk(folder_path)] in
    [delete_oldest_sessions], flattened: once the running total is under
    the cap the inner [break] is taken in every directory that is still
    walked, so nothing further happens in this folder. *)
Fixpoint session_files_loop (max_size_bytes : Z) (filepaths : list path) (st : run) : run :=
  match filepaths with
  | [] => st
  | filepath :: rest =>
      if decide (r_current_size st ≤ max_size_bytes) then st
      else
        match os_path_getsize (r_fs st) filepath with
        | Some file_size =>
            match os_remove (r_fs st) filepath with
            | Some t' =>
                session_files_loop max_size_bytes rest
                  (Run t' (r_current_size st - file_size) (r_deleted_count st + 1)
                       (r_removed st ++ [filepath]))
            | None => session_files_loop max_size_bytes rest st
            end
        | None => session_files_loop max_size_bytes rest st
        end
  end.

(** The [for folder_path, mtime, folder_size in folders_to_consider]
    loop. *)
Fixpoint sessions_loop (max_size_bytes : Z) (folders : list session) (st : run) : run :=
  match folders with
  | [] => st
  | s :: rest =>
      if decide (r_current_size st ≤ max_size_bytes) then st
      else
        sessions_loop max_size_bytes rest
          (session_files_loop max_size_bytes
             (f_path <$> walk (r_fs st) (s_path s)) st)
  end.

Definition delete_oldest_sessions_run (t : fs) (directory : path) (max_size_bytes : Z) : run :=
  let current_size := get_directory_size t directory in
  let folders := sort_by s_mtime (get_session_folders t directory) in
  if decide (length folders = 0%nat) then Run t current_size 0 []
  else if decide (length folders = 1%nat) then Run t current_size 0 []
  else
    let folders_to_consider := take (length folders - 1)%nat folders in
    sessions_loop max_size_bytes folders_to_consider (Run t current_size 0 []).

Definition delete_oldest_sessions (t : fs) (directory : path) (max_size_bytes : Z) : Z :=
  r_deleted_count (delete_oldest_sessions_run t directory max_size_bytes).

(** [folders[-1]]: the session that [folders[:-1]] leaves out. *)
Definition kept_session (t : fs) (directory : path) : option session :=
  last (sort_by s_mtime (get_session_folders t directory)).

(** A small tree used in the examples:
    watch/a.fits, watch/s1/{b,c}.fits, watch/s2/d.fits, watch/s2/sub/e.fits *)
Definition demo_fs : fs :=
  Fs [ File ["watch"; "a.fits"] 50 10 false;
       File ["watch"; "s1"; "b.fits"] 10 20 false;
       File ["watch"; "s1"; "c.fits"] 30 30 true;
       File ["watch"; "s2"; "d.fits"] 20 40 false;
       File ["watch"; "s2"; "sub"; "e.fits"] 40 50 false ]
     [ Folder ["watch"] 60; Folder ["watch"; "s1"] 30;
       Folder ["watch"; "s2"] 40; Folder ["watch"; "s2"; "sub"] 40 ].

(** *** Facts about the file-system primitives *)

Definition paths_unique (t : fs) : Prop := NoDup (f_path <$> fs_files t).

(** Well-formed trees: a path names at most one file and at most one
    directory, as in any real directory tree. *)
Definition fs_wf (t : fs) : Prop :=
  NoDup (f_path <$> fs_files t) ∧ NoDup (d_path <$> fs_dirs t).

Definition deletable (f : file) : Prop := f_busy f = false.

#[local] Instance deletable_dec f : Decision (deletable f).
Proof. unfold deletable. apply _. Defined.

Lemma sum_sizes_app l1 l2 : sum_sizes (l1 ++ l2) = sum_sizes l1 + sum_sizes l2.
Proof. induction l1 as [|f l1 IH]; simpl; [done|]. rewrite IH. lia. Qed.

Lemma filter_path_ne_id (l : list file) p :
  p ∉ f_path <$> l → filter (λ g, f_path g ≠ p) l = l.
Proof.
  induction l as [|g l IH]; [done|]. rewrite fmap_cons, not_elem_of_cons.
  intros [Hne Hnin]. rewrite filter_cons_True by done. by rewrite IH.
Qed.

Lemma lookup_file_elem t f :
  paths_unique t → f ∈ fs_files t → lookup_file t (f_path f) = Some f.
Proof.
  unfold paths_unique, lookup_file. induction (fs_files t) as [|g l IH].
  - intros _ H. by apply elem_of_nil in H.
  - rewrite fmap_cons, NoDup_cons. intros [Hnin Hnd] Hin.
    apply elem_of_cons in Hin as [->|Hin].
    + by rewrite filter_cons_True.
    + rewrite filter_cons_False; [by apply IH|].
      intros Heq. apply Hnin. rewrite Heq. by apply list_elem_of_fmap_2.
Qed.

Lemma lookup_file_Some t p f :
  lookup_file t p = Some f → f ∈ fs_files t ∧ f_path f = p.
Proof.
  unfold lookup_file. intros H. apply head_Some_elem_of in H.
  apply list_elem_of_filter in H. tauto.
Qed.

Lemma os_remove_Some t p t' :
  os_remove t p = Some t' →
  ∃ f, f ∈ fs_files t ∧ f_path f = p ∧ deletable f ∧
       fs_files t' = filter (λ g, f_path g ≠ p) (fs_files t) ∧
       fs_dirs t' = fs_dirs t.
Proof.
  unfold os_remove. destruct (lookup_file t p) as [f|] eqn:Hl; [|done].
  destruct (f_busy f) eqn:Hb; [done|]. intros [= <-].
  apply lookup_file_Some in Hl as [Hin Hp]. by exists f.
Qed.

Lemma os_remove_None t f :
  paths_unique t → f ∈ fs_files t → os_remove t (f_path f) = None → f_busy f = true.
Proof.
  intros Hu Hin. unfold os_remove. rewrite (lookup_file_elem t f Hu Hin).
  by destruct (f_busy f).
Qed.

Lemma os_remove_deletable t f :
  paths_unique t → f ∈ fs_files t → deletable f →
  os_remove t (f_path f) =
    Some (Fs (filter (λ g, f_path g ≠ f_path f) (fs_files t)) (fs_dirs t)).
Proof.
  intros Hu Hin Hd. unfold os_remove. rewrite (lookup_file_elem t f Hu Hin).
  by rewrite Hd.
Qed.

Lemma paths_unique_filter (P : file → Prop) `{!∀ f, Decision (P f)} l :
  NoDup (f_path <$> l) → NoDup (f_path <$> filter P l).
Proof.
  intros Hnd. eapply sublist_NoDup; [exact Hnd|]. apply fmap_sublist, sublist_filter.
Qed.

Lemma sum_sizes_remove (P : file → Prop) `{!∀ f, Decision (P f)} l f :
  NoDup (f_path <$> l) → f ∈ l →
  sum_sizes (filter P (filter (λ g, f_path g ≠ f_path f) l)) =
  sum_sizes (filter P l) - (if decide (P f) then f_size f else 0).
Proof.
  induction l as [|g l IH]; intros Hnd Hin.
  - by apply elem_of_nil in Hin.
  - rewrite fmap_cons, NoDup_cons in Hnd. destruct Hnd as [Hnin Hnd].
    apply elem_of_cons in Hin as [->|Hin].
    + rewrite filter_cons_False by (intros Hx; by apply Hx).
      rewrite filter_path_ne_id by done.
      rewrite (filter_cons P). destruct (decide (P g)); simpl; lia.
    + assert (f_path g ≠ f_path f) as Hne.
      { intros Heq. apply Hnin. rewrite Heq. by apply list_elem_of_fmap_2. }
      rewrite filter_cons_True by done. rewrite !(filter_cons P).
      destruct (decide (P g)); simpl; rewrite IH by done; lia.
Qed.

Lemma get_directory_size_remove t f directory :
  paths_unique t → f ∈ fs_files t → inside directory (f_path f) →
  get_directory_size
    (Fs (filter (λ g, f_path g ≠ f_path f) (fs_files t)) (fs_dirs t)) directory
  = get_directory_size t directory - f_size f.
Proof.
  intros Hu Hin Hins. unfold get_directory_size, walk. simpl.
  rewrite (sum_sizes_remove _ _ f) by done. by rewrite decide_True.
Qed.

Lemma os_remove_elem t f :
  paths_unique t → f ∈ fs_files t →
  os_remove t (f_path f) =
    if f_busy f then None
    else Some (Fs (filter (λ g, f_path g ≠ f_path f) (fs_files t)) (fs_dirs t)).
Proof.
  intros Hu Hin. unfold os_remove. by rewrite (lookup_file_elem t f Hu Hin).
Qed.

Lemma filter_not_in_nil (l : list file) :
  filter (λ g, f_path g ∉ @nil path) l = l.
Proof.
  induction l as [|g l IH]; [done|].
  rewrite filter_cons_True by apply not_elem_of_nil. by rewrite IH.
Qed.

Lemma filter_not_in_cons (l : list file) p ps :
  filter (λ g, f_path g ∉ ps) (filter (λ g, f_path g ≠ p) l) =
  filter (λ g, f_path g ∉ p :: ps) l.
Proof.
  rewrite list_filter_filter. apply list_filter_iff.
  intros g. rewrite not_elem_of_cons. tauto.
Qed.

(** *** The loop of [delete_oldest_files] *)

(** The loop tries a prefix [tried] of its list and stops either at the
    end of the list or as soon as the running total is under the cap.  The
    files it removes are the deletable ones of [tried], in that order; the
    running total decreases by exactly their sizes and stays equal to the
    size of the directory. *)
Lemma delete_files_loop_spec directory max_size_bytes files st :
  paths_unique (r_fs st) →
  NoDup (f_path <$> files) →
  (∀ f, f ∈ files → f ∈ fs_files (r_fs st) ∧ inside directory (f_path f)) →
  r_current_size st = get_directory_size (r_fs st) directory →
  ∃ tried rest,
    files = tried ++ rest ∧
    r_removed (delete_files_loop max_size_bytes files st)
      = r_removed st ++ (f_path <$> filter deletable tried) ∧
    r_deleted_count (delete_files_loop max_size_bytes files st)
      = r_deleted_count st + Z.of_nat (length (filter deletable tried)) ∧
    r_current_size (delete_files_loop max_size_bytes files st)
      = r_current_size st - sum_sizes (filter deletable tried) ∧
    r_current_size (delete_files_loop max_size_bytes files st)
      = get_directory_size (r_fs (delete_files_loop max_size_bytes files st)) directory ∧
    fs_files (r_fs (delete_files_loop max_size_bytes files st))
      = filter (λ g, f_path g ∉ f_path <$> filter deletable tried) (fs_files (r_fs st)) ∧
    fs_dirs (r_fs (delete_files_loop max_size_bytes files st)) = fs_dirs (r_fs st) ∧
    (rest = [] ∨
     r_current_size (delete_files_loop max_size_bytes files st) ≤ max_size_bytes).
Proof.
  revert st. induction files as [|f files IH]; intros st Hu Hnd Hin Hsz.
  - exists [], []. simpl. rewrite app_nil_r, filter_not_in_nil.
    repeat split; auto with lia.
  - simpl. case_decide as Hcap.
    + exists [], (f :: files). simpl. rewrite app_nil_r, filter_not_in_nil.
      repeat split; auto with lia.
    + rewrite fmap_cons, NoDup_cons in Hnd. destruct Hnd as [Hnin Hnd].
      destruct (Hin f) as [Hf Hins]; [by left|].
      rewrite (os_remove_elem _ f Hu Hf).
      destruct (f_busy f) eqn:Hb.
      * destruct (IH st) as (tried & rest & -> & Hrm & Hcnt & Hcur & Hsz' & Hfs & Hd & Hend);
          [done|done| |done|].
        { intros g Hg. apply Hin. by right. }
        exists (f :: tried), rest.
        rewrite filter_cons_False by (unfold deletable; congruence).
        by repeat split.
      * set (st' := Run _ _ _ _).
        destruct (IH st') as (tried & rest & -> & Hrm & Hcnt & Hcur & Hsz' & Hfs & Hd & Hend).
        { unfold paths_unique. simpl. by apply paths_unique_filter. }
        { done. }
        { intros g Hg. destruct (Hin g) as [Hg1 Hg2]; [by right|].
          split; [|done]. simpl. apply list_elem_of_filter. split; [|done].
          intros Heq. apply Hnin. rewrite <- Heq. by apply list_elem_of_fmap_2. }
        { simpl. rewrite get_directory_size_remove by done. lia. }
        exists (f :: tried), rest.
        rewrite filter_cons_True by done.
        rewrite Hrm, Hcnt, Hcur, Hfs, Hd. subst st'. simpl.
        rewrite filter_not_in_cons, <- app_assoc. simpl.
        split_and!; auto with lia.
        { rewrite <- Hsz', Hcur. simpl. lia. }
        destruct Hend as [?|Hend]; [by left|right].
        rewrite Hcur in Hend. simpl in Hend. lia.
Qed.

Lemma walk_elem t directory f :
  f ∈ walk t directory ↔ inside directory (f_path f) ∧ f ∈ fs_files t.
Proof. unfold walk. by rewrite list_elem_of_filter. Qed.

Lemma walk_paths_unique t directory :
  paths_unique t → NoDup (f_path <$> walk t directory).
Proof. intros Hu. unfold walk. by apply paths_unique_filter. Qed.

Lemma walk_after_filter (P : file → Prop) `{!∀ f, Decision (P f)} t directory :
  walk (Fs (filter P (fs_files t)) (fs_dirs t)) directory = filter P (walk t directory).
Proof.
  unfold walk. simpl. rewrite !list_filter_filter.
  apply list_filter_iff. tauto.
Qed.

(** What a run of [delete_oldest_files] does, in terms of the list the
    loop iterates over. *)
Lemma delete_oldest_files_run_spec t directory max_size_bytes :
  paths_unique t →
  ∃ tried rest,
    sort_by f_mtime (walk t directory) = tried ++ rest ∧
    r_removed (delete_oldest_files_run t directory max_size_bytes)
      = f_path <$> filter deletable tried ∧
    r_deleted_count (delete_oldest_files_run t directory max_size_bytes)
      = Z.of_nat (length (filter deletable tried)) ∧
    r_current_size (delete_oldest_files_run t directory max_size_bytes)
      = get_directory_size t directory - sum_sizes (filter deletable tried) ∧
    r_current_size (delete_oldest_files_run t directory max_size_bytes)
      = get_directory_size
          (r_fs (delete_oldest_files_run t directory max_size_bytes)) directory ∧
    fs_files (r_fs (delete_oldest_files_run t directory max_size_bytes))
      = filter (λ g, f_path g ∉ f_path <$> filter deletable tried) (fs_files t) ∧
    fs_dirs (r_fs (delete_oldest_files_run t directory max_size_bytes)) = fs_dirs t ∧
    (rest = [] ∨
     r_current_size (delete_oldest_files_run t directory max_size_bytes) ≤ max_size_bytes).
Proof.
  intros Hu. unfold delete_oldest_files_run, get_all_files_with_mtime.
  case_decide as Hcap.
  - exists [], (sort_by f_mtime (walk t directory)). simpl.
    rewrite filter_not_in_nil. split_and!; auto with lia.
  - set (st := Run t _ 0 []).
    destruct (delete_files_loop_spec directory max_size_bytes
                (sort_by f_mtime (walk t directory)) st)
      as (tried & rest & Heq & Hrm & Hcnt & Hcur & Hsz & Hfs & Hd & Hend).
    + done.
    + rewrite sort_by_perm. by apply walk_paths_unique.
    + intros f Hf. rewrite elem_of_sort_by, walk_elem in Hf. tauto.
    + done.
    + exists tried, rest. subst st. simpl in *.
      rewrite Hrm, Hcnt. split_and!; auto with lia.
Qed.

(** C2 (OldestFiles): on a tree in which a path names one file, a run of
    [delete_oldest_files] on [directory] with cap [max_size_bytes]
    - leaves the directory at most [max_size_bytes] large, or leaves in it
      only files whose removal raised (none at all when every file can be
      removed);
    - removes files one at a time along the list sorted by ascending mtime:
      the removed files are the removable ones of a prefix [tried] of that
      list, in that order, so they are sorted by mtime and none is newer than
      a file of the untried remainder;
    - keeps a running total that is the initial size minus the sizes of
      the removed files, and that equals the size of the directory at the
      end; the returned count is the number of removed files;
    - removes no directory. *)
Theorem delete_oldest_files_under_cap_or_exhausted t directory max_size_bytes :
  paths_unique t →
  (get_directory_size (r_fs (delete_oldest_files_run t directory max_size_bytes)) directory
     ≤ max_size_bytes
   ∨ Forall (λ f, f_busy f = true)
       (walk (r_fs (delete_oldest_files_run t directory max_size_bytes)) directory))
  ∧ (Forall deletable (walk t directory) →
     get_directory_size (r_fs (delete_oldest_files_run t directory max_size_bytes)) directory
       ≤ max_size_bytes
     ∨ walk (r_fs (delete_oldest_files_run t directory max_size_bytes)) directory = [])
  ∧ (∃ tried rest,
       sort_by f_mtime (get_all_files_with_mtime t directory) = tried ++ rest
       ∧ r_removed (delete_oldest_files_run t directory max_size_bytes)
           = f_path <$> filter deletable tried
       ∧ StronglySorted (key_le f_mtime) (filter deletable tried)
       ∧ (∀ a b, a ∈ tried → b ∈ rest → f_mtime a ≤ f_mtime b)
       ∧ delete_oldest_files t directory max_size_bytes
           = Z.of_nat (length (filter deletable tried))
       ∧ r_current_size (delete_oldest_files_run t directory max_size_bytes)
           = get_directory_size t directory - sum_sizes (filter deletable tried)
       ∧ r_current_size (delete_oldest_files_run t directory max_size_bytes)
           = get_directory_size
               (r_fs (delete_oldest_files_run t directory max_size_bytes)) directory
       ∧ walk (r_fs (delete_oldest_files_run t directory max_size_bytes)) directory
           = filter (λ g, f_path g ∉
                          r_removed (delete_oldest_files_run t directory max_size_bytes))
               (walk t directory))
  ∧ fs_dirs (r_fs (delete_oldest_files_run t directory max_size_bytes)) = fs_dirs t.
Proof.
  intros Hu.
  destruct (delete_oldest_files_run_spec t directory max_size_bytes Hu)
    as (tried & rest & Heq & Hrm & Hcnt & Hcur & Hsz & Hfs & Hd & Hend).
  pose proof (sort_by_sorted f_mtime (walk t directory)) as Hsorted.
  rewrite Heq in Hsorted.
  set (r := delete_oldest_files_run t directory max_size_bytes) in *.
  assert (walk (r_fs r) directory
          = filter (λ g, f_path g ∉ r_removed r) (walk t directory)) as Hwalk.
  { destruct (r_fs r) as [fl dl]. simpl in *. subst fl dl.
    rewrite Hrm. apply walk_after_filter. }
  assert (rest = [] → Forall (λ f, f_busy f = true) (walk (r_fs r) directory)) as Hbusy.
  { intros ->. rewrite app_nil_r in Heq. rewrite Forall_forall. intros g Hg.
    rewrite Hwalk, list_elem_of_filter in Hg. destruct Hg as [Hnot Hg].
    destruct (f_busy g) eqn:Hb; [done|]. exfalso. apply Hnot.
    rewrite Hrm. apply list_elem_of_fmap_2, list_elem_of_filter. split; [done|].
    rewrite <- Heq. by apply elem_of_sort_by. }
  split_and!.
  - destruct Hend as [Hnil|Hle]; [right; by apply Hbusy|left; lia].
  - intros Hall. destruct Hend as [Hnil|Hle]; [right|left; lia].
    specialize (Hbusy Hnil). destruct (walk (r_fs r) directory) as [|g l] eqn:Hw; [done|].
    exfalso. apply Forall_cons in Hbusy as [Hg _].
    assert (g ∈ walk t directory) as Hgin.
    { assert (g ∈ g :: l) as Hgl by left. rewrite Hwalk in Hgl.
      apply list_elem_of_filter in Hgl. tauto. }
    rewrite Forall_forall in Hall. specialize (Hall g Hgin).
    unfold deletable in Hall. congruence.
  - exists tried, rest. unfold get_all_files_with_mtime, delete_oldest_files.
    fold r. split_and!; try done.
    + eapply sorted_sublist; [|eapply sorted_sublist; [|exact Hsorted]].
      * apply sublist_filter.
      * by apply sublist_inserts_r.
    + intros a b Ha Hb. by eapply sorted_app_le.
  - done.
Qed.

Lemma demo_fs_wf : fs_wf demo_fs.
Proof. split; apply (bool_decide_unpack _); vm_compute; exact I. Qed.

Lemma demo_fs_paths_unique : paths_unique demo_fs.
Proof. apply demo_fs_wf. Qed.

(** The C2 theorem at the demo tree with a cap of 100 bytes: the tree holds
    150 bytes below watch/, and the two oldest removable files go. *)
Lemma delete_oldest_files_under_cap_or_exhausted_witness :
  paths_unique demo_fs
  ∧ (get_directory_size (r_fs (delete_oldest_files_run demo_fs ["watch"] 100)) ["watch"]
       ≤ 100
     ∨ Forall (λ f, f_busy f = true)
         (walk (r_fs (delete_oldest_files_run demo_fs ["watch"] 100)) ["watch"]))
  ∧ fs_dirs (r_fs (delete_oldest_files_run demo_fs ["watch"] 100)) = fs_dirs demo_fs.
Proof.
  split; [exact demo_fs_paths_unique|].
  destruct (delete_oldest_files_under_cap_or_exhausted demo_fs ["watch"] 100
              demo_fs_paths_unique) as (H1 & _ & _ & H4).
  exact (conj H1 H4).
Defined.

Example delete_oldest_files_demo :
  r_removed (delete_oldest_files_run demo_fs ["watch"] 100)
    = [["watch"; "s1"; "b.fits"]; ["watch"; "s2"; "d.fits"]]
  ∧ delete_oldest_files demo_fs ["watch"] 100 = 2
  ∧ get_directory_size (r_fs (delete_oldest_files_run demo_fs ["watch"] 100)) ["watch"] = 90.
Proof. by vm_compute. Qed.

(** With a file that cannot be removed the loop runs to the end of its
    list and the directory stays above the cap. *)
Example delete_oldest_files_busy_demo :
  get_directory_size (r_fs (delete_oldest_files_run demo_fs ["watch"] 0)) ["watch"] = 30
  ∧ walk (r_fs (delete_oldest_files_run demo_fs ["watch"] 0)) ["watch"]
    = [File ["watch"; "s1"; "c.fits"] 30 30 true].
Proof. by vm_compute. Qed.

(** *** The loops of [delete_oldest_sessions] *)

Lemma os_remove_outside t q t' p :
  os_remove t q = Some t' → ¬ inside p q →
  walk t' p = walk t p ∧ fs_dirs t' = fs_dirs t.
Proof.
  intros Hrm Hout. apply os_remove_Some in Hrm as (f & _ & _ & _ & Hfs & Hd).
  split; [|done]. unfold walk. rewrite Hfs, list_filter_filter.
  apply list_filter_iff. intros g. split; [tauto|].
  intros Hg. split; [done|]. intros Heq. apply Hout. by rewrite <- Heq.
Qed.

Lemma session_files_loop_outside p max_size_bytes filepaths st :
  Forall (λ q, ¬ inside p q) filepaths →
  walk (r_fs (session_files_loop max_size_bytes filepaths st)) p = walk (r_fs st) p
  ∧ fs_dirs (r_fs (session_files_loop max_size_bytes filepaths st)) = fs_dirs (r_fs st).
Proof.
  intros Hall. revert st. induction Hall as [|q filepaths Hq Hall IH]; intros st.
  - done.
  - simpl. case_decide; [done|].
    destruct (os_path_getsize (r_fs st) q) as [sz|]; [|apply IH].
    destruct (os_remove (r_fs st) q) as [t'|] eqn:Hrm; [|apply IH].
    destruct (os_remove_outside _ _ _ p Hrm Hq) as [Hw Hd].
    destruct (IH (Run t' (r_current_size st - sz) (r_deleted_count st + 1)
                      (r_removed st ++ [q]))) as [Hw' Hd'].
    simpl in *. split; congruence.
Qed.

Lemma sessions_loop_outside p max_size_bytes folders st :
  Forall (λ s, ∀ q, inside (s_path s) q → ¬ inside p q) folders →
  walk (r_fs (sessions_loop max_size_bytes folders st)) p = walk (r_fs st) p
  ∧ fs_dirs (r_fs (sessions_loop max_size_bytes folders st)) = fs_dirs (r_fs st).
Proof.
  intros Hall. revert st. induction Hall as [|s folders Hs Hall IH]; intros st.
  - done.
  - simpl. case_decide; [done|].
    destruct (session_files_loop_outside p max_size_bytes
                (f_path <$> walk (r_fs st) (s_path s)) st) as [Hw Hd].
    { rewrite Forall_fmap, Forall_forall. intros f Hf. simpl.
      apply Hs. apply walk_elem in Hf. tauto. }
    destruct (IH (session_files_loop max_size_bytes
                    (f_path <$> walk (r_fs st) (s_path s)) st)) as [Hw' Hd'].
    split; congruence.
Qed.

Lemma session_files_loop_dirs max_size_bytes filepaths st :
  fs_dirs (r_fs (session_files_loop max_size_bytes filepaths st)) = fs_dirs (r_fs st).
Proof.
  revert st. induction filepaths as [|q filepaths IH]; intros st; [done|].
  simpl. case_decide; [done|].
  destruct (os_path_getsize (r_fs st) q) as [sz|]; [|apply IH].
  destruct (os_remove (r_fs st) q) as [t'|] eqn:Hrm; [|apply IH].
  rewrite IH. simpl. by apply os_remove_Some in Hrm as (f & _ & _ & _ & _ & Hd).
Qed.

Lemma sessions_loop_dirs max_size_bytes folders st :
  fs_dirs (r_fs (sessions_loop max_size_bytes folders st)) = fs_dirs (r_fs st).
Proof.
  revert st. induction folders as [|s folders IH]; intros st; [done|].
  simpl. case_decide; [done|]. rewrite IH. apply session_files_loop_dirs.
Qed.

(** Two different entries of one directory have no file in common. *)
Lemma siblings_disjoint directory a b q :
  child_of directory a → child_of directory b → a ≠ b →
  inside a q → ¬ inside b q.
Proof.
  revert a b q. induction directory as [|x directory IH]; intros a b q.
  - destruct a as [|n [|]]; simpl; try done.
    destruct b as [|m [|]]; simpl; try done.
    intros _ _ Hne. destruct q as [|y q]; simpl; [done|].
    repeat case_decide; subst; try done. destruct q; simpl; tauto.
  - destruct a as [|y a]; simpl; [done|]. destruct b as [|z b]; simpl; [done|].
    case_decide; [subst y|done]. case_decide; [subst z|done].
    intros Ha Hb Hne. destruct q as [|w q]; simpl; [done|].
    case_decide; [subst w|done]. apply IH; try done. congruence.
Qed.

Lemma get_session_folders_child t directory s :
  s ∈ get_session_folders t directory → child_of directory (s_path s).
Proof.
  unfold get_session_folders. rewrite list_elem_of_fmap.
  intros (d & -> & Hd). apply list_elem_of_filter in Hd. simpl. tauto.
Qed.

Lemma get_session_folders_paths t directory :
  NoDup (d_path <$> fs_dirs t) → NoDup (s_path <$> get_session_folders t directory).
Proof.
  intros Hnd. unfold get_session_folders. rewrite <- list_fmap_compose.
  eapply sublist_NoDup; [exact Hnd|]. apply fmap_sublist, sublist_filter.
Qed.

Lemma take_last_split {A} (l : list A) x :
  last l = Some x → l = take (length l - 1)%nat l ++ [x].
Proof.
  intros Hl. apply last_Some in Hl as [l' ->].
  rewrite length_app. simpl.
  replace (length l' + 1 - 1)%nat with (length l') by lia.
  by rewrite take_app_length.
Qed.

(** The session that [folders[:-1]] leaves out has the largest mtime, and
    the run leaves the list of files below it as it was. *)
Lemma kept_session_untouched t directory max_size_bytes k :
  fs_wf t → kept_session t directory = Some k →
  k ∈ get_session_folders t directory
  ∧ (∀ s, s ∈ get_session_folders t directory → s_mtime s ≤ s_mtime k)
  ∧ walk (r_fs (delete_oldest_sessions_run t directory max_size_bytes)) (s_path k)
    = walk t (s_path k).
Proof.
  intros [_ Hdirs] Hk. unfold kept_session in Hk.
  pose proof (take_last_split _ _ Hk) as Hsplit.
  set (folders := sort_by s_mtime (get_session_folders t directory)) in *.
  set (considered := take (length folders - 1)%nat folders) in *.
  pose proof (sort_by_sorted s_mtime (get_session_folders t directory)) as Hsorted.
  fold folders in Hsorted. rewrite Hsplit in Hsorted.
  assert (NoDup (s_path <$> considered ++ [k])) as Hnd.
  { rewrite <- Hsplit. unfold folders. rewrite sort_by_perm.
    by apply get_session_folders_paths. }
  assert (∀ s, s ∈ folders → child_of directory (s_path s)) as Hchild.
  { intros s Hs. apply (get_session_folders_child t). by apply elem_of_sort_by in Hs. }
  assert (k ∈ folders) as Hkin.
  { rewrite Hsplit. apply elem_of_app. right. by left. }
  split_and!.
  - by apply elem_of_sort_by in Hkin.
  - intros s Hs. apply (elem_of_sort_by s_mtime) in Hs. fold folders in Hs.
    rewrite Hsplit in Hs. apply elem_of_app in Hs as [Hs|Hs].
    + eapply (sorted_app_le s_mtime); [exact Hsorted|done|by left].
    + apply list_elem_of_singleton in Hs. by subst.
  - unfold delete_oldest_sessions_run. fold folders. fold considered.
    repeat case_decide; try done.
    apply sessions_loop_outside. rewrite Forall_forall. intros s Hs q.
    apply (siblings_disjoint directory).
    + apply Hchild. rewrite Hsplit. apply elem_of_app. by left.
    + by apply Hchild.
    + rewrite fmap_app in Hnd. apply NoDup_app in Hnd as (_ & Hdis & _).
      intros Heq. apply (Hdis (s_path s)).
      * by apply list_elem_of_fmap_2.
      * rewrite Heq. simpl. by left.
Qed.

Lemma last_filter {A} (P : A → Prop) `{!∀ x, Decision (P x)} (l : list A) k :
  last l = Some k → P k → last (filter P l) = Some k.
Proof.
  intros Hl Hk. apply last_Some in Hl as [l' ->].
  rewrite filter_app, filter_cons_True, filter_nil by done. apply last_snoc.
Qed.

(** Two session folders with the same, largest mtime. *)
Definition tied_fs : fs :=
  Fs [File ["w"; "s1"; "a"] 1 10 false; File ["w"; "s2"; "b"] 2 10 false]
     [Folder ["w"; "s1"] 7; Folder ["w"; "s2"] 7].

(** C7, as stated, fails: w/s1 and w/s2 both have the maximum mtime 7,
    and with a cap of 0 the file of w/s1 is deleted.  The sort is stable
    and [folders[:-1]] leaves out one folder only, the one listed last. *)
Lemma tied_session_emptied :
  fs_wf tied_fs
  ∧ get_session_folders tied_fs ["w"]
    = [Session ["w"; "s1"] 7 10; Session ["w"; "s2"] 7 10]
  ∧ walk tied_fs ["w"; "s1"] = [File ["w"; "s1"; "a"] 1 10 false]
  ∧ r_removed (delete_oldest_sessions_run tied_fs ["w"] 0) = [["w"; "s1"; "a"]]
  ∧ walk (r_fs (delete_oldest_sessions_run tied_fs ["w"] 0)) ["w"; "s1"] = []
  ∧ delete_oldest_sessions tied_fs ["w"] 0 = 1.
Proof.
  split_and!; try by vm_compute.
  split; apply (bool_decide_unpack _); by vm_compute.
Qed.

(** C7 (OldestSessionFolders), amended for folders tied at the maximum
    mtime: on a well-formed tree,
    - the run deletes no file below the session folder that the sorted list
      ends with, and that folder has the maximum mtime of all session
      folders;
    - in particular a session folder whose mtime is larger than that of
      every other session folder keeps all its files;
    - with one session folder or none the run deletes nothing at all: the
      file system is unchanged and the returned count is 0;
    - no directory is removed either;
    - among the session folders that have its mtime, the folder that is
      kept is the one that [os.listdir] lists last. *)
Theorem delete_oldest_sessions_keeps_latest t directory max_size_bytes :
  fs_wf t →
  (∀ k, kept_session t directory = Some k →
     (∀ s, s ∈ get_session_folders t directory → s_mtime s ≤ s_mtime k)
     ∧ walk (r_fs (delete_oldest_sessions_run t directory max_size_bytes)) (s_path k)
       = walk t (s_path k))
  ∧ (get_session_folders t directory ≠ [] →
     ∃ k, kept_session t directory = Some k ∧ k ∈ get_session_folders t directory)
  ∧ (∀ s, s ∈ get_session_folders t directory →
     (∀ g, g ∈ get_session_folders t directory → g ≠ s → s_mtime g < s_mtime s) →
     walk (r_fs (delete_oldest_sessions_run t directory max_size_bytes)) (s_path s)
     = walk t (s_path s))
  ∧ ((length (get_session_folders t directory) ≤ 1)%nat →
     r_fs (delete_oldest_sessions_run t directory max_size_bytes) = t
     ∧ r_removed (delete_oldest_sessions_run t directory max_size_bytes) = []
     ∧ delete_oldest_sessions t directory max_size_bytes = 0)
  ∧ fs_dirs (r_fs (delete_oldest_sessions_run t directory max_size_bytes)) = fs_dirs t
  ∧ (∀ k, kept_session t directory = Some k →
     last (filter (λ s, s_mtime s = s_mtime k) (get_session_folders t directory))
     = Some k).
Proof.
  intros Hwf.
  assert (get_session_folders t directory ≠ [] →
          ∃ k, kept_session t directory = Some k) as Hex.
  { intros Hne. unfold kept_session. apply last_is_Some.
    intros Hnil. apply Hne. apply Permutation_nil_r.
    rewrite <- Hnil. by rewrite sort_by_perm. }
  split_and!.
  - intros k Hk.
    destruct (kept_session_untouched t directory max_size_bytes k Hwf Hk) as (_ & ? & ?).
    done.
  - intros Hne. destruct (Hex Hne) as [k Hk]. exists k. split; [done|].
    by destruct (kept_session_untouched t directory max_size_bytes k Hwf Hk).
  - intros s Hs Hmax. destruct Hex as [k Hk].
    { intros Hnil. rewrite Hnil in Hs. by apply elem_of_nil in Hs. }
    destruct (kept_session_untouched t directory max_size_bytes k Hwf Hk)
      as (Hkin & Hle & Hw).
    destruct (decide (k = s)) as [->|Hne]; [done|].
    specialize (Hmax k Hkin Hne). specialize (Hle s Hs). lia.
  - intros Hlen. unfold delete_oldest_sessions, delete_oldest_sessions_run.
    rewrite sort_by_length. repeat case_decide; try done. lia.
  - unfold delete_oldest_sessions_run. repeat case_decide; try done.
    apply sessions_loop_dirs.
  - intros k Hk. unfold kept_session in Hk.
    rewrite <- (sort_by_stable s_mtime). by apply last_filter.
Qed.

Lemma delete_oldest_sessions_keeps_latest_witness :
  fs_wf demo_fs
  ∧ (∀ k, kept_session demo_fs ["watch"] = Some k →
       (∀ s, s ∈ get_session_folders demo_fs ["watch"] → s_mtime s ≤ s_mtime k)
       ∧ walk (r_fs (delete_oldest_sessions_run demo_fs ["watch"] 0)) (s_path k)
         = walk demo_fs (s_path k))
  ∧ fs_dirs (r_fs (delete_oldest_sessions_run demo_fs ["watch"] 0)) = fs_dirs demo_fs.
Proof.
  split; [exact demo_fs_wf|].
  destruct (delete_oldest_sessions_keeps_latest demo_fs ["watch"] 0 demo_fs_wf)
    as (H1 & _ & _ & _ & H5 & _).
  exact (conj H1 H5).
Defined.

(** On the demo tree, with a cap of 0, only the removable file of the
    older session goes: loose files of the watch directory and the newest
    session stay. *)
Example delete_oldest_sessions_demo :
  kept_session demo_fs ["watch"] = Some (Session ["watch"; "s2"] 40 90)
  ∧ r_removed (delete_oldest_sessions_run demo_fs ["watch"] 0) = [["watch"; "s1"; "b.fits"]]
  ∧ delete_oldest_sessions demo_fs ["watch"] 0 = 1.
Proof. by vm_compute. Qed.

(** Two session folders with the same, largest mtime: the one listed last
    is kept, the other one is emptied. *)
Example delete_oldest_sessions_tie :
  r_removed
    (delete_oldest_sessions_run
       (Fs [File ["w"; "s1"; "a"] 1 10 false; File ["w"; "s2"; "b"] 2 10 false]
           [Folder ["w"; "s1"] 7; Folder ["w"; "s2"] 7]) ["w"] 0)
  = [["w"; "s1"; "a"]].
Proof. by vm_compute. Qed.

(** *** What the two strategies leave alone *)

Lemma os_remove_keeps t q t' f :
  os_remove t q = Some t' → f ∈ fs_files t → f_path f ≠ q → f ∈ fs_files t'.
Proof.
  intros Hrm Hf Hne. apply os_remove_Some in Hrm as (g & _ & _ & _ & -> & _).
  by apply list_elem_of_filter.
Qed.

Lemma os_remove_sublist t q t' :
  os_remove t q = Some t' →
  fs_files t' `sublist_of` fs_files t ∧ (∀ f, f ∈ fs_files t' → f_path f ≠ q).
Proof.
  intros Hrm. apply os_remove_Some in Hrm as (g & Hg & Hq & Hd & -> & _).
  split.
  - apply sublist_filter.
  - intros f Hf. apply list_elem_of_filter in Hf. tauto.
Qed.

(** The loop of [delete_oldest_files] removes nothing but files of its
    list; every removed path is gone afterwards. *)
Lemma delete_files_loop_scope max_size_bytes files st :
  fs_files (r_fs (delete_files_loop max_size_bytes files st))
    `sublist_of` fs_files (r_fs st)
  ∧ (∀ f, f ∈ fs_files (r_fs st) → f_path f ∉ f_path <$> files →
       f ∈ fs_files (r_fs (delete_files_loop max_size_bytes files st)))
  ∧ (∃ del, r_removed (delete_files_loop max_size_bytes files st) = r_removed st ++ del
            ∧ r_deleted_count (delete_files_loop max_size_bytes files st)
              = r_deleted_count st + Z.of_nat (length del)
            ∧ (∀ q, q ∈ del →
                 q ∈ f_path <$> files
                 ∧ ∀ f, f ∈ fs_files (r_fs (delete_files_loop max_size_bytes files st)) →
                        f_path f ≠ q)).
Proof.
  revert st. induction files as [|g files IH]; intros st.
  - simpl. split_and!; [done|done|]. exists []. rewrite app_nil_r.
    split_and!; [done|simpl; lia|]. intros q Hq. by apply elem_of_nil in Hq.
  - simpl. case_decide as Hcap.
    { split_and!; [done|done|]. exists []. rewrite app_nil_r.
      split_and!; [done|simpl; lia|]. intros q Hq. by apply elem_of_nil in Hq. }
    destruct (os_remove (r_fs st) (f_path g)) as [t'|] eqn:Hrm.
    + set (st' := Run t' _ _ _).
      destruct (IH st') as (Hsub & Hkeep & del & Hrem & Hcnt & Hdel).
      destruct (os_remove_sublist _ _ _ Hrm) as (Hsub1 & Hgone).
      split_and!.
      * by etrans.
      * intros f Hf Hnin. apply Hkeep.
        -- simpl. eapply os_remove_keeps; [done..|].
           intros Heq. apply Hnin. rewrite Heq. by left.
        -- intros Hin. apply Hnin. by right.
      * exists (f_path g :: del). subst st'. simpl in *.
        rewrite Hrem, Hcnt, <- app_assoc. simpl. split_and!; [done|lia|].
        intros q Hq. apply elem_of_cons in Hq as [->|Hq].
        -- split; [by left|]. intros f Hf. apply Hgone.
           by eapply elem_of_sublist.
        -- destruct (Hdel q Hq) as [Hin Hne]. split; [by right|done].
    + destruct (IH st) as (Hsub & Hkeep & del & Hrem & Hcnt & Hdel).
      split_and!; [done| |].
      * intros f Hf Hnin. apply Hkeep; [done|].
        intros Hin. apply Hnin. by right.
      * exists del. split_and!; [done|done|].
        intros q Hq. destruct (Hdel q Hq). split; [by right|done].
Qed.

(** [delete_oldest_files] acts on regular files below [directory] only:
    the files left are the old ones in their old order, every file that
    does not lie below [directory] is still there, every path it reports as
    removed was the path of a file below [directory] and names no file any
    more, and the returned count is the number of those paths. *)
Theorem delete_oldest_files_scope t directory max_size_bytes :
  fs_files (r_fs (delete_oldest_files_run t directory max_size_bytes))
    `sublist_of` fs_files t
  ∧ (∀ f, f ∈ fs_files t → inside directory (f_path f) = false →
       f ∈ fs_files (r_fs (delete_oldest_files_run t directory max_size_bytes)))
  ∧ (∀ q, q ∈ r_removed (delete_oldest_files_run t directory max_size_bytes) →
       inside directory q = true
       ∧ q ∈ f_path <$> fs_files t
       ∧ q ∉ f_path <$> fs_files (r_fs (delete_oldest_files_run t directory max_size_bytes)))
  ∧ delete_oldest_files t directory max_size_bytes
    = Z.of_nat (length (r_removed (delete_oldest_files_run t directory max_size_bytes))).
Proof.
  unfold delete_oldest_files, delete_oldest_files_run, get_all_files_with_mtime.
  case_decide as Hcap.
  { simpl. split_and!; [done|done| |done]. intros q Hq. by apply elem_of_nil in Hq. }
  set (files := sort_by f_mtime (walk t directory)).
  assert (∀ q, q ∈ f_path <$> files →
               inside directory q = true ∧ q ∈ f_path <$> fs_files t) as Hfiles.
  { intros q Hq. apply list_elem_of_fmap in Hq as (g & -> & Hg).
    apply elem_of_sort_by, walk_elem in Hg as [Hins Hg].
    split; [by apply Is_true_eq_true|by apply list_elem_of_fmap_2]. }
  destruct (delete_files_loop_scope max_size_bytes files (Run t (get_directory_size t directory) 0 []))
    as (Hsub & Hkeep & del & Hrem & Hcnt & Hdel).
  simpl in *. split_and!.
  - done.
  - intros f Hf Hout. apply Hkeep; [done|]. intros Hin.
    destruct (Hfiles _ Hin) as [Hins _]. congruence.
  - intros q Hq. rewrite Hrem in Hq. destruct (Hdel q Hq) as [Hin Hgone].
    destruct (Hfiles q Hin) as [Hins Hold]. split_and!; [done|done|].
    intros Hstill. apply list_elem_of_fmap in Hstill as (f & Heq & Hf).
    by apply (Hgone f Hf).
  - rewrite Hcnt, Hrem. lia.
Qed.

Lemma inside_child directory a q :
  child_of directory a → inside a q → inside directory q.
Proof.
  revert a q. induction directory as [|x directory IH]; intros a q.
  - destruct a as [|n [|]]; simpl; try done. destruct q as [|y q]; simpl; [done|].
    by case_decide.
  - destruct a as [|y a]; simpl; [done|]. case_decide; [subst y|done].
    destruct q as [|z q]; simpl; [done|]. case_decide; [|done]. apply IH.
Qed.

Lemma child_not_inside directory a q :
  child_of directory a → child_of directory q → inside a q = false.
Proof.
  revert a q. induction directory as [|x directory IH]; intros a q.
  - destruct a as [|n [|]]; simpl; try done. destruct q as [|m [|]]; simpl; try done.
    intros _ _. by case_decide.
  - destruct a as [|y a]; simpl; [done|]. case_decide; [subst y|done].
    destruct q as [|z q]; simpl; [done|]. case_decide; [|done]. apply IH.
Qed.

Lemma session_files_loop_scope max_size_bytes filepaths st :
  fs_files (r_fs (session_files_loop max_size_bytes filepaths st))
    `sublist_of` fs_files (r_fs st)
  ∧ (∀ f, f ∈ fs_files (r_fs st) → f_path f ∉ filepaths →
       f ∈ fs_files (r_fs (session_files_loop max_size_bytes filepaths st)))
  ∧ (∃ del, r_removed (session_files_loop max_size_bytes filepaths st)
              = r_removed st ++ del
            ∧ r_deleted_count (session_files_loop max_size_bytes filepaths st)
              = r_deleted_count st + Z.of_nat (length del)
            ∧ (∀ q, q ∈ del →
                 q ∈ filepaths
                 ∧ ∀ f, f ∈ fs_files (r_fs (session_files_loop max_size_bytes filepaths st)) →
                        f_path f ≠ q)).
Proof.
  revert st. induction filepaths as [|p filepaths IH]; intros st.
  - simpl. split_and!; [done|done|]. exists []. rewrite app_nil_r.
    split_and!; [done|simpl; lia|]. intros q Hq. by apply elem_of_nil in Hq.
  - assert (∀ st', st' = st →
              fs_files (r_fs (session_files_loop max_size_bytes filepaths st'))
                `sublist_of` fs_files (r_fs st)
              ∧ (∀ f, f ∈ fs_files (r_fs st) → f_path f ∉ p :: filepaths →
                   f ∈ fs_files (r_fs (session_files_loop max_size_bytes filepaths st')))
              ∧ (∃ del, r_removed (session_files_loop max_size_bytes filepaths st')
                          = r_removed st ++ del
                        ∧ r_deleted_count (session_files_loop max_size_bytes filepaths st')
                          = r_deleted_count st + Z.of_nat (length del)
                        ∧ (∀ q, q ∈ del →
                             q ∈ p :: filepaths
                             ∧ ∀ f, f ∈ fs_files (r_fs (session_files_loop max_size_bytes
                                                          filepaths st')) →
                                    f_path f ≠ q))) as Hskip.
    { intros st' ->. destruct (IH st) as (Hsub & Hkeep & del & Hrem & Hcnt & Hdel).
      split_and!; [done| |].
      - intros f Hf Hnin. apply Hkeep; [done|]. intros Hin. apply Hnin. by right.
      - exists del. split_and!; [done|done|].
        intros q Hq. destruct (Hdel q Hq). split; [by right|done]. }
    simpl. case_decide as Hcap.
    { split_and!; [done|done|]. exists []. rewrite app_nil_r.
      split_and!; [done|simpl; lia|]. intros q Hq. by apply elem_of_nil in Hq. }
    destruct (os_path_getsize (r_fs st) p) as [sz|]; [|by apply Hskip].
    destruct (os_remove (r_fs st) p) as [t'|] eqn:Hrm; [|by apply Hskip].
    set (st' := Run t' _ _ _).
    destruct (IH st') as (Hsub & Hkeep & del & Hrem & Hcnt & Hdel).
    destruct (os_remove_sublist _ _ _ Hrm) as (Hsub1 & Hgone).
    split_and!.
    + by etrans.
    + intros f Hf Hnin. apply Hkeep.
      * simpl. eapply os_remove_keeps; [done..|].
        intros Heq. apply Hnin. rewrite Heq. by left.
      * intros Hin. apply Hnin. by right.
    + exists (p :: del). subst st'. simpl in *.
      rewrite Hrem, Hcnt, <- app_assoc. simpl. split_and!; [done|lia|].
      intros q Hq. apply elem_of_cons in Hq as [->|Hq].
      * split; [by left|]. intros f Hf. apply Hgone. by eapply elem_of_sublist.
      * destruct (Hdel q Hq) as [Hin Hne]. split; [by right|done].
Qed.

Lemma sessions_loop_scope max_size_bytes folders st :
  fs_files (r_fs (sessions_loop max_size_bytes folders st))
    `sublist_of` fs_files (r_fs st)
  ∧ (∀ f, f ∈ fs_files (r_fs st) →
       (∀ s, s ∈ folders → inside (s_path s) (f_path f) = false) →
       f ∈ fs_files (r_fs (sessions_loop max_size_bytes folders st)))
  ∧ (∃ del, r_removed (sessions_loop max_size_bytes folders st) = r_removed st ++ del
            ∧ r_deleted_count (sessions_loop max_size_bytes folders st)
              = r_deleted_count st + Z.of_nat (length del)
            ∧ (∀ q, q ∈ del →
                 (∃ s, s ∈ folders ∧ inside (s_path s) q = true)
                 ∧ ∀ f, f ∈ fs_files (r_fs (sessions_loop max_size_bytes folders st)) →
                        f_path f ≠ q)).
Proof.
  revert st. induction folders as [|s folders IH]; intros st.
  - simpl. split_and!; [done|done|]. exists []. rewrite app_nil_r.
    split_and!; [done|simpl; lia|]. intros q Hq. by apply elem_of_nil in Hq.
  - simpl. case_decide as Hcap.
    { split_and!; [done|done|]. exists []. rewrite app_nil_r.
      split_and!; [done|simpl; lia|]. intros q Hq. by apply elem_of_nil in Hq. }
    set (paths := f_path <$> walk (r_fs st) (s_path s)).
    destruct (session_files_loop_scope max_size_bytes paths st)
      as (Hsub1 & Hkeep1 & del1 & Hrem1 & Hcnt1 & Hdel1).
    destruct (IH (session_files_loop max_size_bytes paths st))
      as (Hsub & Hkeep & del & Hrem & Hcnt & Hdel).
    assert (∀ q, q ∈ paths → inside (s_path s) q = true) as Hpaths.
    { intros q Hq. apply list_elem_of_fmap in Hq as (g & -> & Hg).
      apply walk_elem in Hg as [Hins _]. by apply Is_true_eq_true. }
    split_and!.
    + by etrans.
    + intros f Hf Hout. apply Hkeep.
      * apply Hkeep1; [done|]. intros Hin. apply Hpaths in Hin.
        rewrite Hout in Hin; [done|by left].
      * intros s' Hs'. apply Hout. by right.
    + exists (del1 ++ del). rewrite Hrem, Hrem1, Hcnt, Hcnt1, length_app, app_assoc.
      split_and!; [done|lia|]. intros q Hq. apply elem_of_app in Hq as [Hq|Hq].
      * destruct (Hdel1 q Hq) as [Hin Hgone]. split.
        -- exists s. split; [by left|by apply Hpaths].
        -- intros f Hf. apply Hgone. by eapply elem_of_sublist.
      * destruct (Hdel q Hq) as [(s' & Hs' & Hins) Hgone]. split; [|done].
        exists s'. split; [by right|done].
Qed.

(** [delete_oldest_sessions] deletes regular files below session folders
    only: the files left are the old ones in their old order; every file
    outside [directory] and every file lying directly in [directory] is
    still there, however far the directory is over its cap; every path
    reported as removed lay below a session folder and names no file any
    more; the returned count is the number of those paths. *)
Theorem delete_oldest_sessions_scope t directory max_size_bytes :
  fs_files (r_fs (delete_oldest_sessions_run t directory max_size_bytes))
    `sublist_of` fs_files t
  ∧ (∀ f, f ∈ fs_files t → inside directory (f_path f) = false →
       f ∈ fs_files (r_fs (delete_oldest_sessions_run t directory max_size_bytes)))
  ∧ (∀ f, f ∈ fs_files t → child_of directory (f_path f) = true →
       f ∈ fs_files (r_fs (delete_oldest_sessions_run t directory max_size_bytes)))
  ∧ (∀ q, q ∈ r_removed (delete_oldest_sessions_run t directory max_size_bytes) →
       (∃ s, s ∈ get_session_folders t directory ∧ inside (s_path s) q = true)
       ∧ q ∉ f_path <$> fs_files (r_fs (delete_oldest_sessions_run t directory max_size_bytes)))
  ∧ delete_oldest_sessions t directory max_size_bytes
    = Z.of_nat (length (r_removed (delete_oldest_sessions_run t directory max_size_bytes))).
Proof.
  unfold delete_oldest_sessions, delete_oldest_sessions_run.
  set (folders := sort_by s_mtime (get_session_folders t directory)).
  destruct (decide (length folders = 0%nat));
    [simpl; split_and!; try done; intros q Hq; by apply elem_of_nil in Hq|].
  destruct (decide (length folders = 1%nat));
    [simpl; split_and!; try done; intros q Hq; by apply elem_of_nil in Hq|].
  set (considered := take (length folders - 1)%nat folders).
  assert (∀ s, s ∈ considered →
               s ∈ get_session_folders t directory ∧ child_of directory (s_path s))
    as Hcons.
  { intros s Hs. assert (s ∈ get_session_folders t directory) as Hin.
    { apply (elem_of_sort_by s_mtime). eapply elem_of_sublist; [exact Hs|].
      apply sublist_take. }
    split; [done|]. by eapply get_session_folders_child. }
  destruct (sessions_loop_scope max_size_bytes considered
              (Run t (get_directory_size t directory) 0 []))
    as (Hsub & Hkeep & del & Hrem & Hcnt & Hdel).
  simpl in *. split_and!.
  - done.
  - intros f Hf Hout. apply Hkeep; [done|]. intros s Hs.
    destruct (Hcons s Hs) as [_ Hchild].
    destruct (inside (s_path s) (f_path f)) eqn:Hins; [|done].
    assert (inside directory (f_path f)) as Habs.
    { eapply inside_child; [exact Hchild|]. by rewrite Hins. }
    by rewrite Hout in Habs.
  - intros f Hf Hloose. apply Hkeep; [done|]. intros s Hs.
    destruct (Hcons s Hs) as [_ Hchild].
    apply (child_not_inside directory); [done|]. by rewrite Hloose.
  - intros q Hq. rewrite Hrem in Hq. destruct (Hdel q Hq) as [(s & Hs & Hins) Hgone].
    split.
    + exists s. split; [by apply Hcons|done].
    + intros Hstill. apply list_elem_of_fmap in Hstill as (f & Heq & Hf).
      by apply (Hgone f Hf).
  - rewrite Hcnt, Hrem. lia.
Qed.

Lemma delete_oldest_files_scope_witness :
  File ["watch"; "s1"; "c.fits"] 30 30 true
    ∈ fs_files (r_fs (delete_oldest_files_run demo_fs ["watch"; "s2"] 0)).
Proof.
  destruct (delete_oldest_files_scope demo_fs ["watch"; "s2"] 0) as (_ & Hkeep & _).
  apply Hkeep; [|reflexivity]. apply (bool_decide_unpack _). by vm_compute.
Defined.

Lemma delete_oldest_sessions_scope_witness :
  File ["watch"; "a.fits"] 50 10 false
    ∈ fs_files (r_fs (delete_oldest_sessions_run demo_fs ["watch"] 0)).
Proof.
  destruct (delete_oldest_sessions_scope demo_fs ["watch"] 0) as (_ & _ & Hloose & _).
  apply Hloose; [|reflexivity]. apply (bool_decide_unpack _). by vm_compute.
Defined.

(** With all the weight in loose files and in the newest session, the
    sessions strategy stops above the cap. *)
Example delete_oldest_sessions_over_cap :
  get_directory_size (r_fs (delete_oldest_sessions_run demo_fs ["watch"] 0)) ["watch"] = 130.
Proof. by vm_compute. Qed.

(** *** [remove_empty_directories] *)

(** The name under which [p] shows in a listing of [d], if it lies
    below [d]. *)
Fixpoint entry_under (d p : path) : option string :=
  match d, p with
  | [], n :: _ => Some n
  | x :: d', y :: p' => if decide (x = y) then entry_under d' p' else None
  | _, _ => None
  end.

(** [os.listdir]: the names of the entries of [d], files and
    directories, each once. *)
Definition os_listdir (t : fs) (d : path) : list string :=
  remove_dups (omap (entry_under d) ((f_path <$> fs_files t) ++ (d_path <$> fs_dirs t))).

(** [os.rmdir]; [None] stands for the raised [OSError]: the directory is
    not there, is not empty, or the platform refuses ([refused]). *)
Definition os_rmdir (refused : path → bool) (t : fs) (d : path) : option fs :=
  if bool_decide (d ∈ d_path <$> fs_dirs t)
     && bool_decide (os_listdir t d = [])
     && negb (refused d)
  then Some (Fs (fs_files t) (filter (λ g, d_path g ≠ d) (fs_dirs t)))
  else None.

(** The directories that [os.walk(d, topdown=False)] yields: those of
    each subdirectory first, [d] last.  The descent is bounded by [depth];
    the longest directory path of the tree is enough to reach every
    directory. *)
Fixpoint walk_bottom_up (depth : nat) (t : fs) (d : path) : list path :=
  match depth with
  | O => [d]
  | S n =>
      (g ← filter (λ g, child_of d (d_path g)) (fs_dirs t);
       walk_bottom_up n t (d_path g)) ++ [d]
  end.

(** The loop body of [remove_empty_directories] over the yielded
    directories, with the file system and the count.  A raising
    [os.rmdir] is caught inside the loop; [os.listdir] is taken not to
    raise on a directory that [os.walk] has just yielded. *)
Fixpoint remove_dirs_loop (refused : path → bool) (directory : path)
    (dirpaths : list path) (st : fs * Z) : fs * Z :=
  match dirpaths with
  | [] => st
  | dirpath :: rest =>
      if decide (dirpath = directory) then remove_dirs_loop refused directory rest st
      else
        match os_listdir st.1 dirpath with
        | [] =>
            match os_rmdir refused st.1 dirpath with
            | Some t' => remove_dirs_loop refused directory rest (t', st.2 + 1)
            | None => remove_dirs_loop refused directory rest st
            end
        | _ :: _ => remove_dirs_loop refused directory rest st
        end
  end.

(** [remove_empty_directories]: the file system afterwards and the
    returned count. *)
Definition remove_empty_directories (refused : path → bool) (t : fs) (directory : path)
    : fs * Z :=
  remove_dirs_loop refused directory
    (walk_bottom_up (max_list (length ∘ d_path <$> fs_dirs t)) t directory) (t, 0).

(** watch/old/empty and watch/old lose their last file; watch/new keeps
    one. *)
Definition pruned_fs : fs :=
  Fs [ File ["watch"; "new"; "x.fits"] 5 10 false ]
     [ Folder ["watch"] 9; Folder ["watch"; "old"] 1;
       Folder ["watch"; "old"; "empty"] 1; Folder ["watch"; "new"] 5;
       Folder ["elsewhere"] 1 ].

Example remove_empty_directories_nested :
  remove_empty_directories (λ _, false) pruned_fs ["watch"]
  = (Fs [ File ["watch"; "new"; "x.fits"] 5 10 false ]
        [ Folder ["watch"] 9; Folder ["watch"; "new"] 5; Folder ["elsewhere"] 1 ], 2).
Proof. by vm_compute. Qed.

(** An empty watch directory is itself never removed. *)
Example remove_empty_directories_root :
  remove_empty_directories (λ _, false) (Fs [] [Folder ["watch"] 9]) ["watch"]
  = (Fs [] [Folder ["watch"] 9], 0).
Proof. by vm_compute. Qed.

Lemma entry_under_inside d p : inside d p → is_Some (entry_under d p).
Proof.
  revert p. induction d as [|x d IH]; intros p; destruct p as [|y p]; simpl; try done.
  case_decide; [|done]. apply IH.
Qed.

Lemma os_listdir_file t d f :
  f ∈ fs_files t → inside d (f_path f) → os_listdir t d ≠ [].
Proof.
  intros Hf Hins Hnil. destruct (entry_under_inside _ _ Hins) as [n Hn].
  assert (n ∈ os_listdir t d) as Hin.
  { unfold os_listdir. apply elem_of_remove_dups, list_elem_of_omap.
    exists (f_path f). split; [|done]. apply elem_of_app. left.
    by apply list_elem_of_fmap_2. }
  rewrite Hnil in Hin. by apply elem_of_nil in Hin.
Qed.

Lemma child_inside directory a : child_of directory a → inside directory a.
Proof.
  revert a. induction directory as [|x directory IH]; intros a.
  - by destruct a as [|n [|]].
  - destruct a as [|y a]; simpl; [done|]. case_decide; [|done]. apply IH.
Qed.

Lemma walk_bottom_up_below depth t d p :
  p ∈ walk_bottom_up depth t d → p = d ∨ inside d p.
Proof.
  revert d. induction depth as [|n IH]; intros d; simpl.
  - intros Hp. apply list_elem_of_singleton in Hp. by left.
  - intros Hp. apply elem_of_app in Hp as [Hp|Hp].
    + right. apply list_elem_of_bind in Hp as (g & Hp & Hg).
      apply list_elem_of_filter in Hg as [Hchild _].
      destruct (IH _ Hp) as [->|Hins].
      * by apply child_inside.
      * by eapply inside_child.
    + apply list_elem_of_singleton in Hp. by left.
Qed.

Lemma os_rmdir_Some refused t d t' :
  os_rmdir refused t d = Some t' →
  fs_files t' = fs_files t
  ∧ fs_dirs t' = filter (λ g, d_path g ≠ d) (fs_dirs t)
  ∧ d ∈ d_path <$> fs_dirs t
  ∧ os_listdir t d = [] ∧ refused d = false.
Proof.
  unfold os_rmdir. destruct (bool_decide (d ∈ _)) eqn:Hd; [|done].
  destruct (bool_decide (os_listdir t d = [])) eqn:Hl; [|done].
  destruct (refused d) eqn:Hr; [done|]. simpl. intros [= <-].
  apply bool_decide_eq_true in Hd, Hl. done.
Qed.

Lemma filter_length_removed (l : list folder) d :
  d ∈ d_path <$> l →
  (length (filter (λ g, d_path g ≠ d) l) < length l)%nat
  ∧ (NoDup (d_path <$> l) →
     length l = S (length (filter (λ g, d_path g ≠ d) l))).
Proof.
  induction l as [|g l IH]; [intros Hd; by apply elem_of_nil in Hd|].
  rewrite fmap_cons. intros Hd.
  destruct (decide (d_path g = d)) as [Heq|Hne].
  - rewrite filter_cons_False by (intros Hx; by apply Hx). split.
    + pose proof (length_filter (λ g, d_path g ≠ d) l). simpl. lia.
    + rewrite NoDup_cons. intros [Hnin _]. simpl. f_equal.
      symmetry. f_equal. clear IH Hd. induction l as [|h l IHl]; [done|].
      rewrite fmap_cons, not_elem_of_cons in Hnin. destruct Hnin as [Hh Hnin].
      rewrite filter_cons_True by congruence. f_equal. by apply IHl.
  - rewrite filter_cons_True by done. apply elem_of_cons in Hd as [Hd|Hd]; [done|].
    destruct (IH Hd) as [Hlt Heq]. split; [simpl; lia|].
    rewrite NoDup_cons. intros [_ Hnd]. simpl. f_equal. by apply Heq.
Qed.

Lemma remove_dirs_loop_spec refused directory dirpaths st :
  fs_files (remove_dirs_loop refused directory dirpaths st).1 = fs_files st.1
  ∧ fs_dirs (remove_dirs_loop refused directory dirpaths st).1 `sublist_of` fs_dirs st.1
  ∧ (∀ g, g ∈ fs_dirs st.1 →
       d_path g = directory ∨ d_path g ∉ dirpaths ∨ refused (d_path g) = true
       ∨ (∃ f, f ∈ fs_files st.1 ∧ inside (d_path g) (f_path f)) →
       g ∈ fs_dirs (remove_dirs_loop refused directory dirpaths st).1)
  ∧ st.2 ≤ (remove_dirs_loop refused directory dirpaths st).2
  ∧ (remove_dirs_loop refused directory dirpaths st).2 - st.2
    ≤ Z.of_nat (length (fs_dirs st.1))
      - Z.of_nat (length (fs_dirs (remove_dirs_loop refused directory dirpaths st).1))
  ∧ (NoDup (d_path <$> fs_dirs st.1) →
     (remove_dirs_loop refused directory dirpaths st).2 - st.2
     = Z.of_nat (length (fs_dirs st.1))
       - Z.of_nat (length (fs_dirs (remove_dirs_loop refused directory dirpaths st).1))).
Proof.
  revert st. induction dirpaths as [|d dirpaths IH]; intros st.
  - simpl. split_and!; try done; lia.
  - destruct (IH st) as (Hf0 & Hs0 & Hk0 & Hlo0 & Hhi0 & Heq0).
    assert (∀ g, d_path g = directory ∨ d_path g ∉ d :: dirpaths
                 ∨ refused (d_path g) = true
                 ∨ (∃ f, f ∈ fs_files st.1 ∧ inside (d_path g) (f_path f)) →
                 d_path g = directory ∨ d_path g ∉ dirpaths
                 ∨ refused (d_path g) = true
                 ∨ (∃ f, f ∈ fs_files st.1 ∧ inside (d_path g) (f_path f))) as Hweak.
    { intros g [Hr|[Hnin|[Href|Hfile]]]; auto.
      right. left. intros Hin. apply Hnin. by right. }
    assert (d = directory ∨ os_listdir st.1 d ≠ [] ∨ os_rmdir refused st.1 d = None →
            remove_dirs_loop refused directory (d :: dirpaths) st
            = remove_dirs_loop refused directory dirpaths st) as Hsame.
    { simpl. intros [->|[Hne|Hnone]].
      - by rewrite decide_True.
      - case_decide; [done|]. by destruct (os_listdir st.1 d).
      - case_decide; [done|]. destruct (os_listdir st.1 d); [|done]. by rewrite Hnone. }
    destruct (decide (d = directory)) as [Hroot|Hnroot].
    { rewrite Hsame by auto. split_and!; try done.
      intros g Hg Hwhy. apply Hk0; auto. }
    destruct (os_listdir st.1 d) as [|n ns] eqn:Hlist; cycle 1.
    { rewrite Hsame by (right; left; done). split_and!; try done.
      intros g Hg Hwhy. apply Hk0; auto. }
    destruct (os_rmdir refused st.1 d) as [t'|] eqn:Hrm; cycle 1.
    { rewrite Hsame by auto. split_and!; try done.
      intros g Hg Hwhy. apply Hk0; auto. }
    assert (remove_dirs_loop refused directory (d :: dirpaths) st
            = remove_dirs_loop refused directory dirpaths (t', st.2 + 1)) as ->.
    { simpl. rewrite decide_False by done. by rewrite Hlist, Hrm. }
    destruct (os_rmdir_Some _ _ _ _ Hrm) as (Hfiles & Hdirs & Hd & Hempty & Hallowed).
    destruct (filter_length_removed (fs_dirs st.1) d Hd) as [Hlt Hone].
    destruct (IH (t', st.2 + 1)) as (Hf & Hs & Hk & Hlo & Hhi & Heq).
    simpl in *. rewrite Hdirs in Hs, Hhi, Heq.
    split_and!.
    + by rewrite Hf.
    + etrans; [exact Hs|apply sublist_filter].
    + intros g Hg Hwhy. apply Hk.
      * rewrite Hdirs. apply list_elem_of_filter. split; [|done].
        intros Heqd. destruct Hwhy as [Hr|[Hnin|[Href|(f & Hf' & Hins)]]].
        -- congruence.
        -- apply Hnin. rewrite Heqd. by left.
        -- congruence.
        -- rewrite Heqd in Hins. by apply (os_listdir_file st.1 d f).
      * rewrite Hfiles. by apply Hweak.
    + lia.
    + lia.
    + intros Hnd. specialize (Hone Hnd).
      assert (NoDup (d_path <$> filter (λ g, d_path g ≠ d) (fs_dirs st.1))) as Hnd'.
      { eapply sublist_NoDup; [exact Hnd|]. apply fmap_sublist, sublist_filter. }
      specialize (Heq Hnd'). lia.
Qed.

Lemma inside_app d p : inside d p ↔ ∃ x r, p = d ++ x :: r.
Proof.
  revert p. induction d as [|y d IH]; intros [|z p]; simpl.
  - split; [done|]. by intros (x & r & Heq).
  - split; [eauto|done].
  - split; [done|]. by intros (x & r & Heq).
  - case_decide as Hyz.
    + subst. rewrite IH. split.
      * intros (x & r & ->). eauto.
      * intros (x & r & [= ->]). eauto.
    + split; [done|]. by intros (x & r & [= ? ?]).
Qed.

Lemma child_of_app d p : child_of d p ↔ ∃ x, p = d ++ [x].
Proof.
  revert p. induction d as [|y d IH]; intros [|z p]; simpl.
  - split; [done|]. by intros (x & Heq).
  - destruct p; split; try done; eauto. by intros (x & [= ? ?]).
  - split; [done|]. by intros (x & Heq).
  - case_decide as Hyz.
    + subst. rewrite IH. split.
      * intros (x & ->). eauto.
      * intros (x & [= ->]). eauto.
    + split; [done|]. by intros (x & [= ? ?]).
Qed.

Lemma inside_trans a b c : inside a b → inside b c → inside a c.
Proof.
  rewrite !inside_app. intros (x & r & ->) (y & s & ->).
  exists x, (r ++ y :: s). by rewrite <- !app_assoc.
Qed.

Lemma inside_longer d p : inside d p → (length d < length p)%nat.
Proof.
  rewrite inside_app. intros (x & r & ->). rewrite length_app. simpl. lia.
Qed.

Lemma entry_under_Some d p n : entry_under d p = Some n → inside d p.
Proof.
  revert p. induction d as [|x d IH]; intros [|y p]; simpl; try done.
  case_decide; [|done]. apply IH.
Qed.

Lemma os_listdir_nonempty t d :
  os_listdir t d ≠ [] ↔
  ∃ p, p ∈ (f_path <$> fs_files t) ++ (d_path <$> fs_dirs t) ∧ inside d p.
Proof.
  unfold os_listdir. split.
  - intros Hne.
    destruct (remove_dups _) as [|n ns] eqn:Hl; [done|].
    assert (n ∈ remove_dups
              (omap (entry_under d) ((f_path <$> fs_files t) ++ (d_path <$> fs_dirs t))))
      as Hn by (rewrite Hl; left).
    apply elem_of_remove_dups, list_elem_of_omap in Hn as (p & Hp & Hn).
    exists p. split; [done|]. by eapply entry_under_Some.
  - intros (p & Hp & Hins) Hnil.
    destruct (entry_under_inside _ _ Hins) as [n Hn].
    assert (n ∈ remove_dups
              (omap (entry_under d) ((f_path <$> fs_files t) ++ (d_path <$> fs_dirs t))))
      as Hin.
    { apply elem_of_remove_dups, list_elem_of_omap. by exists p. }
    rewrite Hnil in Hin. by apply elem_of_nil in Hin.
Qed.

(** A listing in which no directory comes after one that contains it. *)
Fixpoint bottom_up (l : list path) : Prop :=
  match l with
  | [] => True
  | d :: l' => (∀ q, q ∈ l' → inside d q = false) ∧ bottom_up l'
  end.

(** Every path between [directory] and a directory of the tree is a
    directory of the tree. *)
Definition tree_closed (t : fs) (directory : path) : Prop :=
  ∀ g q, g ∈ fs_dirs t → inside directory q → inside q (d_path g) →
         q ∈ d_path <$> fs_dirs t.

Lemma bottom_up_app l1 l2 :
  bottom_up l1 → bottom_up l2 →
  (∀ a b, a ∈ l1 → b ∈ l2 → inside a b = false) →
  bottom_up (l1 ++ l2).
Proof.
  induction l1 as [|d l1 IH]; simpl; [done|].
  intros [Hd Hl1] Hl2 Hcross. split.
  - intros q Hq. apply elem_of_app in Hq as [Hq|Hq]; [by apply Hd|].
    apply Hcross; [by left|done].
  - apply IH; [done..|]. intros a b Ha Hb. apply Hcross; [by right|done].
Qed.

Lemma bottom_up_singleton d : bottom_up [d].
Proof. split; [|done]. intros q Hq. by apply elem_of_nil in Hq. Qed.

Lemma walk_bottom_up_self depth t d : d ∈ walk_bottom_up depth t d.
Proof. destruct depth; simpl; [by left|]. apply elem_of_app. right. by left. Qed.

Lemma not_inside_false a b : ¬ inside a b → inside a b = false.
Proof. by destruct (inside a b); [intros []|]. Qed.

Lemma walk_bottom_up_ordered depth t d :
  NoDup (d_path <$> fs_dirs t) → bottom_up (walk_bottom_up depth t d).
Proof.
  intros Hnd. revert d. induction depth as [|n IH]; intros d; simpl; [apply bottom_up_singleton|].
  apply bottom_up_app; [|apply bottom_up_singleton|].
  - assert (NoDup (d_path <$> filter (λ g, child_of d (d_path g)) (fs_dirs t))) as Hcs.
    { eapply sublist_NoDup; [exact Hnd|]. apply fmap_sublist, sublist_filter. }
    assert (Forall (λ g, child_of d (d_path g))
              (filter (λ g, child_of d (d_path g)) (fs_dirs t))) as Hch.
    { apply Forall_forall. intros g Hg. by apply list_elem_of_filter in Hg as [? _]. }
    induction (filter (λ g, child_of d (d_path g)) (fs_dirs t)) as [|g cs IHcs];
      [done|].
    rewrite fmap_cons, NoDup_cons in Hcs. destruct Hcs as [Hg Hcs].
    apply Forall_cons in Hch as [Hgd Hch].
    change (bottom_up (walk_bottom_up n t (d_path g)
                       ++ (cs ≫= λ g, walk_bottom_up n t (d_path g)))).
    apply bottom_up_app; [apply IH|by apply IHcs|].
    intros a b Ha Hb. apply not_inside_false. intros Hab.
    apply list_elem_of_bind in Hb as (h & Hb & Hh).
    assert (d_path g ≠ d_path h) as Hgh.
    { intros Heq. apply Hg. rewrite Heq. by apply list_elem_of_fmap_2. }
    assert (child_of d (d_path h)) as Hhd.
    { by eapply Forall_forall in Hch. }
    assert (inside (d_path g) b) as Hgb.
    { destruct (walk_bottom_up_below _ _ _ _ Ha) as [->|Hga]; [done|].
      by eapply inside_trans. }
    destruct (walk_bottom_up_below _ _ _ _ Hb) as [->|Hhb].
    + by rewrite (child_not_inside d) in Hgb.
    + by eapply (siblings_disjoint d (d_path g) (d_path h)).
  - intros a b Ha Hb. apply list_elem_of_singleton in Hb as ->.
    apply not_inside_false. intros Had.
    apply list_elem_of_bind in Ha as (g & Ha & Hg).
    apply list_elem_of_filter in Hg as [Hgd _]. apply child_inside in Hgd.
    assert (inside d a) as Hda.
    { destruct (walk_bottom_up_below _ _ _ _ Ha) as [->|Hga]; [done|].
      by eapply inside_trans. }
    apply inside_longer in Had, Hda. lia.
Qed.

Lemma walk_bottom_up_covers depth t d p :
  (∀ q, inside d q → q = p ∨ inside q p → q ∈ d_path <$> fs_dirs t) →
  inside d p → (length p ≤ length d + depth)%nat →
  p ∈ walk_bottom_up depth t d.
Proof.
  revert d. induction depth as [|n IH]; intros d Hclosed Hins Hlen.
  { apply inside_longer in Hins. lia. }
  simpl. apply elem_of_app. left.
  pose proof Hins as Hp. apply inside_app in Hp as (x & r & Hp).
  assert (child_of d (d ++ [x])) as Hchild by (apply child_of_app; eauto).
  assert (d ++ [x] = p ∨ inside (d ++ [x]) p) as Hcp.
  { destruct r as [|y r]; [by left|]. right. apply inside_app.
    exists y, r. by rewrite <- app_assoc. }
  assert (d ++ [x] ∈ d_path <$> fs_dirs t) as Hc.
  { apply Hclosed; [by apply child_inside|]. by destruct Hcp; [left|right]. }
  apply list_elem_of_fmap in Hc as (g & Hg & Hc).
  apply list_elem_of_bind. exists g. split.
  - rewrite <- Hg. destruct Hcp as [<-|Hcp]; [apply walk_bottom_up_self|].
    apply IH; [|done|].
    + intros q Hq Hqp. apply Hclosed; [|done]. by eapply inside_child.
    + rewrite length_app. simpl. lia.
  - apply list_elem_of_filter. by rewrite <- Hg.
Qed.

Lemma inside_irrefl d : inside d d = false.
Proof.
  apply not_inside_false. intros Hd. apply inside_longer in Hd. lia.
Qed.

Lemma remove_dirs_loop_complete refused directory dirpaths st :
  bottom_up dirpaths →
  ∀ g, g ∈ fs_dirs (remove_dirs_loop refused directory dirpaths st).1 →
       d_path g ∈ dirpaths → d_path g ≠ directory → refused (d_path g) = false →
       os_listdir (remove_dirs_loop refused directory dirpaths st).1 (d_path g) ≠ [].
Proof.
  revert st. induction dirpaths as [|d dirpaths IH]; intros st.
  { intros _ g _ Hin. by apply elem_of_nil in Hin. }
  intros [Hd Hrest] g Hg Hin Hne Href.
  destruct (decide (d_path g ∈ dirpaths)) as [Hlater|Hnow].
  { assert (∃ st', remove_dirs_loop refused directory (d :: dirpaths) st
                   = remove_dirs_loop refused directory dirpaths st') as [st' Hst'].
    { simpl. case_decide; [by eexists|].
      destruct (os_listdir st.1 d); [|by eexists].
      destruct (os_rmdir refused st.1 d); by eexists. }
    rewrite Hst' in Hg |- *. by apply IH. }
  apply elem_of_cons in Hin as [Hgd|Hin]; [|done].
  revert Hg. simpl. rewrite decide_False by congruence.
  destruct (remove_dirs_loop_spec refused directory dirpaths st)
    as (Hfiles & Hsub & Hkept & _).
  destruct (os_listdir st.1 d) as [|n ns] eqn:Hlist.
  - destruct (os_rmdir refused st.1 d) as [t'|] eqn:Hrm.
    + intros Hg. exfalso.
      destruct (os_rmdir_Some _ _ _ _ Hrm) as (_ & Hdirs & _).
      destruct (remove_dirs_loop_spec refused directory dirpaths (t', st.2 + 1))
        as (_ & Hsub' & _).
      eapply elem_of_sublist in Hg; [|exact Hsub']. simpl in Hg.
      rewrite Hdirs in Hg. by apply list_elem_of_filter in Hg as [Hg _].
    + intros Hg. exfalso.
      eapply elem_of_sublist in Hg; [|exact Hsub].
      revert Hrm. unfold os_rmdir.
      rewrite bool_decide_eq_true_2 by (rewrite <- Hgd; by apply list_elem_of_fmap_2).
      rewrite bool_decide_eq_true_2 by done.
      rewrite <- Hgd, Href. done.
  - intros Hg. rewrite Hgd.
    assert (os_listdir st.1 d ≠ []) as Hfull by (by rewrite Hlist).
    apply os_listdir_nonempty in Hfull as (p & Hp & Hdp).
    apply os_listdir_nonempty. exists p. split; [|done].
    apply elem_of_app in Hp as [Hp|Hp]; apply elem_of_app.
    + left. by rewrite Hfiles.
    + right. apply list_elem_of_fmap in Hp as (h & -> & Hh).
      apply list_elem_of_fmap_2, Hkept; [done|]. right. left.
      intros Hq. apply Hd in Hq. by rewrite Hq in Hdp.
Qed.

(** What [remove_empty_directories] leaves alone: no file is touched; the
    directories left are directories of the tree, in their order; the
    watch directory itself, every directory outside it, every directory
    whose [os.rmdir] raises and every directory with a file somewhere
    below it are kept; the returned count is at most the number of
    directories that disappeared, and is that number when a path names
    one directory. *)
Theorem remove_empty_directories_safe refused t directory :
  fs_files (remove_empty_directories refused t directory).1 = fs_files t
  ∧ fs_dirs (remove_empty_directories refused t directory).1 `sublist_of` fs_dirs t
  ∧ (∀ g, g ∈ fs_dirs t →
       d_path g = directory ∨ inside directory (d_path g) = false
       ∨ refused (d_path g) = true
       ∨ (∃ f, f ∈ fs_files t ∧ inside (d_path g) (f_path f)) →
       g ∈ fs_dirs (remove_empty_directories refused t directory).1)
  ∧ 0 ≤ (remove_empty_directories refused t directory).2
      ≤ Z.of_nat (length (fs_dirs t))
        - Z.of_nat (length (fs_dirs (remove_empty_directories refused t directory).1))
  ∧ (NoDup (d_path <$> fs_dirs t) →
     (remove_empty_directories refused t directory).2
     = Z.of_nat (length (fs_dirs t))
       - Z.of_nat (length (fs_dirs (remove_empty_directories refused t directory).1))).
Proof.
  unfold remove_empty_directories.
  destruct (remove_dirs_loop_spec refused directory
              (walk_bottom_up (max_list (length ∘ d_path <$> fs_dirs t)) t directory)
              (t, 0)) as (Hf & Hs & Hk & Hlo & Hhi & Heq).
  simpl in *. split_and!; try done; try lia.
  - intros g Hg Hwhy. apply Hk; [done|].
    destruct Hwhy as [Hr|[Hout|[Href|Hfile]]]; auto.
    destruct (decide (d_path g = directory)) as [|Hne]; [by left|].
    right. left. intros Hin.
    destruct (walk_bottom_up_below _ _ _ _ Hin) as [|Hins]; [done|].
    by rewrite Hout in Hins.
  - intros Hnd. specialize (Heq Hnd). lia.
Qed.

(** What [remove_empty_directories] achieves, on a tree where a path
    names one directory and the directories between the watch directory
    and a directory are directories: a directory below the watch directory
    that is left, and whose [os.rmdir] does not raise, lists at least one
    entry afterwards; and when no [os.rmdir] raises, every directory left
    below the watch directory has a file somewhere below it. *)
Theorem remove_empty_directories_complete refused t directory :
  NoDup (d_path <$> fs_dirs t) → tree_closed t directory →
  (∀ g, g ∈ fs_dirs (remove_empty_directories refused t directory).1 →
        inside directory (d_path g) → refused (d_path g) = false →
        os_listdir (remove_empty_directories refused t directory).1 (d_path g) ≠ [])
  ∧ ((∀ d, refused d = false) →
     ∀ g, g ∈ fs_dirs (remove_empty_directories refused t directory).1 →
          inside directory (d_path g) →
          ∃ f, f ∈ fs_files (remove_empty_directories refused t directory).1
               ∧ inside (d_path g) (f_path f)).
Proof.
  intros Hnd Hclosed.
  assert (∀ g, g ∈ fs_dirs (remove_empty_directories refused t directory).1 →
               inside directory (d_path g) → refused (d_path g) = false →
               os_listdir (remove_empty_directories refused t directory).1 (d_path g) ≠ [])
    as Hfull.
  { intros g Hg Hins Href.
    destruct (remove_dirs_loop_spec refused directory (walk_bottom_up (max_list (length ∘ d_path <$> fs_dirs t)) t directory) (t, 0)) as (_ & Hsub & _).
    pose proof (elem_of_sublist _ _ _ Hg Hsub) as Hgt.
    apply remove_dirs_loop_complete; [by apply walk_bottom_up_ordered|done| |
                                      |done].
    - apply walk_bottom_up_covers; [|done|].
      + intros q Hq [->|Hqg]; [by apply list_elem_of_fmap_2|]. by eapply Hclosed.
      + assert (length (d_path g) ≤ max_list (length ∘ d_path <$> fs_dirs t))%nat;
          [|lia].
        apply max_list_elem_of_le. rewrite list_fmap_compose.
        by apply list_elem_of_fmap_2, list_elem_of_fmap_2.
    - intros Heq. rewrite Heq, inside_irrefl in Hins. done. }
  split; [done|]. intros Hnever.
  set (t' := (remove_empty_directories refused t directory).1) in *.
  assert (∀ k g, g ∈ fs_dirs t' → inside directory (d_path g) →
                 (max_list (length ∘ d_path <$> fs_dirs t') ≤ length (d_path g) + k)%nat →
                 ∃ f, f ∈ fs_files t' ∧ inside (d_path g) (f_path f)) as Hdeep.
  { induction k as [|k IHk]; intros g Hg Hins Hlen.
    - pose proof (Hfull g Hg Hins (Hnever _)) as Hne.
      apply os_listdir_nonempty in Hne as (p & Hp & Hgp).
      apply elem_of_app in Hp as [Hp|Hp].
      + apply list_elem_of_fmap in Hp as (f & -> & Hf). eauto.
      + exfalso. apply inside_longer in Hgp.
        assert (length p ≤ max_list (length ∘ d_path <$> fs_dirs t'))%nat; [|lia].
        apply max_list_elem_of_le. rewrite list_fmap_compose.
        by apply list_elem_of_fmap_2.
    - pose proof (Hfull g Hg Hins (Hnever _)) as Hne.
      apply os_listdir_nonempty in Hne as (p & Hp & Hgp).
      apply elem_of_app in Hp as [Hp|Hp].
      + apply list_elem_of_fmap in Hp as (f & -> & Hf). eauto.
      + apply list_elem_of_fmap in Hp as (h & -> & Hh).
        destruct (IHk h Hh) as (f & Hf & Hhf).
        * by eapply inside_trans.
        * apply inside_longer in Hgp. lia.
        * exists f. split; [done|]. by eapply inside_trans. }
  intros g Hg Hins. by eapply (Hdeep (max_list (length ∘ d_path <$> fs_dirs t'))); [..|lia].
Qed.

Lemma pruned_fs_closed : tree_closed pruned_fs ["watch"].
Proof.
  intros g q Hg Hq Hqg. unfold pruned_fs in Hg. simpl in Hg.
  repeat (apply elem_of_cons in Hg as [->|Hg]); [..|by apply elem_of_nil in Hg];
    destruct q as [|a [|b [|c q]]]; simpl in Hq, Hqg;
    repeat case_decide; try done; subst;
    try (by destruct q); apply (bool_decide_unpack _); by vm_compute.
Qed.

(** On the demo tree, where nothing is refused: watch/new, the one
    directory left below watch/, holds a file. *)
Lemma remove_empty_directories_complete_witness :
  NoDup (d_path <$> fs_dirs pruned_fs) ∧ tree_closed pruned_fs ["watch"]
  ∧ ∀ g, g ∈ fs_dirs (remove_empty_directories (λ _, false) pruned_fs ["watch"]).1 →
         inside ["watch"] (d_path g) →
         ∃ f, f ∈ fs_files (remove_empty_directories (λ _, false) pruned_fs ["watch"]).1
              ∧ inside (d_path g) (f_path f).
Proof.
  assert (NoDup (d_path <$> fs_dirs pruned_fs)) as Hnd.
  { apply (bool_decide_unpack _). by vm_compute. }
  split; [exact Hnd|]. split; [exact pruned_fs_closed|].
  apply (remove_empty_directories_complete (λ _, false) pruned_fs ["watch"]
           Hnd pruned_fs_closed). done.
Defined.

Lemma remove_empty_directories_safe_witness :
  Folder ["elsewhere"] 1
    ∈ fs_dirs (remove_empty_directories (λ _, false) pruned_fs ["watch"]).1.
Proof.
  destruct (remove_empty_directories_safe (λ _, false) pruned_fs ["watch"])
    as (_ & _ & Hkept & _).
  apply Hkept; [|right; left; reflexivity]. apply (bool_decide_unpack _). by vm_compute.
Defined.

(** *** [run_cleanup] *)

(** The entries of the configuration that [run_cleanup] reads; [None] is
    a missing key, for which [config.get] gives its default.  The empty
    path stands for the empty string.  [cleanup_max_size_gb] is the number
    stored in the settings, whole or fractional. *)
Record cleanup_config := CleanupConfig {
  cleanup_enabled : option bool;
  watch_directory : option path;
  cleanup_max_size_gb : option Q;
  cleanup_strategy : option string
}.

(** The returned message, by its format string:
    - [NotEnabled]: "Cleanup not enabled";
    - [NotValid]: "Watch directory not valid";
    - [UnderLimit current_size max_size_gb]:
      "Current size ({current_size_gb:.2f} GB) is under limit ({max_size_gb} GB)";
    - [DeletedFiles deleted]: "Deleted {deleted} old files (folders preserved)";
    - [DeletedSessions deleted]:
      "Deleted {deleted} files from old sessions (kept latest session intact)";
    - [UnknownStrategy strategy]: "Unknown cleanup strategy: {strategy}". *)
Inductive message :=
  | NotEnabled
  | NotValid
  | UnderLimit (current_size : Z) (max_size_gb : Q)
  | DeletedFiles (deleted : Z)
  | DeletedSessions (deleted : Z)
  | UnknownStrategy (strategy : string).

(** [os.path.exists]: the path names a directory or a file. *)
Definition os_path_exists (t : fs) (p : path) : bool :=
  bool_decide (p ∈ d_path <$> fs_dirs t) || bool_decide (p ∈ f_path <$> fs_files t).

Definition oldest_files : string := "Delete oldest files in watch directory".
Definition oldest_sessions : string := "Delete oldest session folders".

(** [max_size_gb * 1024 * 1024 * 1024]. *)
Definition bytes_of_gb (max_size_gb : Q) : Q :=
  (max_size_gb * inject_Z 1024 * inject_Z 1024 * inject_Z 1024)%Q.

(** [run_cleanup]: success flag, message, and the file system afterwards.
    The two strategies compare the integer running total with
    [max_size_bytes]; an integer is at most a number exactly when it is at
    most its integer part, which is the cap they are given here.  The
    functions called catch their own exceptions, so that the outer
    [except] is reached only for a configuration of the wrong type, which
    the record excludes. *)
Definition run_cleanup (t : fs) (config : cleanup_config) : bool * message * fs :=
  if negb (default false (cleanup_enabled config)) then (true, NotEnabled, t)
  else
    let watch_dir := default [] (watch_directory config) in
    if bool_decide (watch_dir = []) || negb (os_path_exists t watch_dir)
    then (false, NotValid, t)
    else
      let max_size_gb := default (inject_Z 50) (cleanup_max_size_gb config) in
      let max_size_bytes := bytes_of_gb max_size_gb in
      let strategy := default oldest_files (cleanup_strategy config) in
      let current_size := get_directory_size t watch_dir in
      if Qle_bool (inject_Z current_size) max_size_bytes
      then (true, UnderLimit current_size max_size_gb, t)
      else if decide (strategy = oldest_files) then
        let r := delete_oldest_files_run t watch_dir (Qfloor max_size_bytes) in
        (true, DeletedFiles (r_deleted_count r), r_fs r)
      else if decide (strategy = oldest_sessions) then
        let r := delete_oldest_sessions_run t watch_dir (Qfloor max_size_bytes) in
        (true, DeletedSessions (r_deleted_count r), r_fs r)
      else (false, UnknownStrategy strategy, t).

(** 150 bytes below watch/ against a cap of a tenth of a byte. *)
Definition tight_config : cleanup_config :=
  CleanupConfig (Some true) (Some ["watch"]) (Some (1 # 10737418240)) None.

Lemma Qle_bool_floor n q : Qle_bool (inject_Z n) q = true ↔ n ≤ Qfloor q.
Proof.
  rewrite Qle_bool_iff. split.
  - intros Hle. apply Qfloor_resp_le in Hle. by rewrite Qfloor_Z in Hle.
  - intros Hle. eapply Qle_trans; [|apply Qfloor_le]. by rewrite <- Zle_Qle.
Qed.

Lemma delete_files_loop_dirs max_size_bytes files st :
  fs_dirs (r_fs (delete_files_loop max_size_bytes files st)) = fs_dirs (r_fs st).
Proof.
  revert st. induction files as [|f files IH]; intros st; simpl; [done|].
  case_decide; [done|].
  destruct (os_remove (r_fs st) (f_path f)) as [t'|] eqn:Hrm; [|apply IH].
  rewrite IH. simpl. by apply os_remove_Some in Hrm as (g & _ & _ & _ & _ & Hd).
Qed.
Lemma delete_oldest_files_run_keeps t directory max_size_bytes :
  fs_dirs (r_fs (delete_oldest_files_run t directory max_size_bytes)) = fs_dirs t
  ∧ fs_files (r_fs (delete_oldest_files_run t directory max_size_bytes))
      `sublist_of` fs_files t
  ∧ (∀ f, f ∈ fs_files t → inside directory (f_path f) = false →
       f ∈ fs_files (r_fs (delete_oldest_files_run t directory max_size_bytes))).
Proof.
  unfold delete_oldest_files_run, get_all_files_with_mtime.
  case_decide as Hcap; [done|].
  rewrite delete_files_loop_dirs.
  destruct (delete_files_loop_scope max_size_bytes (sort_by f_mtime (walk t directory))
              (Run t (get_directory_size t directory) 0 [])) as (Hsub & Hkeep & _).
  split_and!; [done|done|]. intros f Hf Hout. apply Hkeep; [done|].
  intros Hin. apply list_elem_of_fmap in Hin as (g & Hfg & Hg).
  apply elem_of_sort_by, walk_elem in Hg as [Hins _].
  by rewrite <- Hfg, Hout in Hins.
Qed.

Lemma delete_oldest_sessions_run_keeps t directory max_size_bytes :
  fs_dirs (r_fs (delete_oldest_sessions_run t directory max_size_bytes)) = fs_dirs t
  ∧ fs_files (r_fs (delete_oldest_sessions_run t directory max_size_bytes))
      `sublist_of` fs_files t
  ∧ (∀ f, f ∈ fs_files t → inside directory (f_path f) = false →
       f ∈ fs_files (r_fs (delete_oldest_sessions_run t directory max_size_bytes))).
Proof.
  unfold delete_oldest_sessions_run.
  set (folders := sort_by s_mtime (get_session_folders t directory)).
  destruct (decide (length folders = 0%nat)); [done|].
  destruct (decide (length folders = 1%nat)); [done|].
  rewrite sessions_loop_dirs.
  destruct (sessions_loop_scope max_size_bytes (take (length folders - 1)%nat folders)
              (Run t (get_directory_size t directory) 0 [])) as (Hsub & Hkeep & _).
  split_and!; [done|done|]. intros f Hf Hout. apply Hkeep; [done|]. intros s Hs.
  assert (child_of directory (s_path s)) as Hchild.
  { eapply get_session_folders_child, (elem_of_sort_by s_mtime).
    eapply elem_of_sublist; [exact Hs|]. apply sublist_take. }
  destruct (inside (s_path s) (f_path f)) eqn:Hins; [|done].
  assert (inside directory (f_path f)) as Habs.
  { eapply inside_child; [exact Hchild|]. by rewrite Hins. }
  by rewrite Hout in Habs.
Qed.

Lemma delete_files_loop_refused max_size_bytes files st :
  (∀ f, f ∈ files → os_remove (r_fs st) (f_path f) = None) →
  delete_files_loop max_size_bytes files st = st.
Proof.
  induction files as [|f files IH]; intros Hnone; simpl; [done|].
  case_decide; [done|]. rewrite Hnone by (by left).
  apply IH. intros g Hg. apply Hnone. by right.
Qed.

(** A second run of [delete_oldest_files] with the same cap finds the
    directory under the cap, or only files it cannot remove. *)
Lemma delete_oldest_files_run_again t directory max_size_bytes :
  paths_unique t →
  r_fs (delete_oldest_files_run
          (r_fs (delete_oldest_files_run t directory max_size_bytes))
          directory max_size_bytes)
  = r_fs (delete_oldest_files_run t directory max_size_bytes)
  ∧ r_deleted_count (delete_oldest_files_run
          (r_fs (delete_oldest_files_run t directory max_size_bytes))
          directory max_size_bytes) = 0
  ∧ (get_directory_size (r_fs (delete_oldest_files_run t directory max_size_bytes))
       directory ≤ max_size_bytes
     ∨ Forall (λ f, f_busy f = true)
         (walk (r_fs (delete_oldest_files_run t directory max_size_bytes)) directory)).
Proof.
  intros Hu.
  destruct (delete_oldest_files_run_spec t directory max_size_bytes Hu)
    as (tried & rest & Hsort & _ & _ & _ & Hsz & Hfs & Hd & Hend).
  set (t' := r_fs (delete_oldest_files_run t directory max_size_bytes)) in *.
  assert (paths_unique t') as Hu'.
  { unfold paths_unique. rewrite Hfs. by apply paths_unique_filter. }
  assert (rest = [] → Forall (λ f, f_busy f = true) (walk t' directory)) as Hbusy.
  { intros ->. rewrite app_nil_r in Hsort. apply Forall_forall. intros f Hf.
    apply walk_elem in Hf as [Hins Hf]. rewrite Hfs in Hf.
    apply list_elem_of_filter in Hf as [Hnot Hf].
    destruct (f_busy f) eqn:Hb; [done|]. exfalso. apply Hnot.
    apply list_elem_of_fmap_2, list_elem_of_filter. split; [done|].
    rewrite <- Hsort. apply elem_of_sort_by, walk_elem. done. }
  assert (get_directory_size t' directory ≤ max_size_bytes
          ∨ Forall (λ f, f_busy f = true) (walk t' directory)) as Hpost.
  { destruct Hend as [Hrest|Hcap]; [right; by apply Hbusy|left; by rewrite <- Hsz]. }
  split_and!; [| |done].
  - unfold delete_oldest_files_run at 1. case_decide as Hcap; [done|].
    destruct Hpost as [?|Hall]; [done|].
    rewrite delete_files_loop_refused; [done|]. simpl. intros f Hf.
    apply elem_of_sort_by in Hf. pose proof Hf as Hw.
    apply walk_elem in Hf as [_ Hf]. eapply Forall_forall in Hall; [|exact Hw].
    unfold os_remove. rewrite (lookup_file_elem t' f Hu' Hf). by rewrite Hall.
  - unfold delete_oldest_files_run at 1. case_decide as Hcap; [done|].
    destruct Hpost as [?|Hall]; [done|].
    rewrite delete_files_loop_refused; [done|]. simpl. intros f Hf.
    apply elem_of_sort_by in Hf. pose proof Hf as Hw.
    apply walk_elem in Hf as [_ Hf]. eapply Forall_forall in Hall; [|exact Hw].
    unfold os_remove. rewrite (lookup_file_elem t' f Hu' Hf). by rewrite Hall.
Qed.

(** [run_cleanup] removes regular files below the watch directory and
    nothing else: whatever the configuration, the directories are the same
    afterwards ("folders preserved"), the files left are files of the tree
    in their order, and every file that does not lie below the watch
    directory is still there; and when [run_cleanup] reports failure, or
    the directory is within the limit, the tree is as it was. *)
Theorem run_cleanup_scope t config :
  fs_dirs (run_cleanup t config).2 = fs_dirs t
  ∧ fs_files (run_cleanup t config).2 `sublist_of` fs_files t
  ∧ (∀ f, f ∈ fs_files t →
       inside (default [] (watch_directory config)) (f_path f) = false →
       f ∈ fs_files (run_cleanup t config).2)
  ∧ ((run_cleanup t config).1.1 = false → (run_cleanup t config).2 = t)
  ∧ (Qle_bool (inject_Z (get_directory_size t (default [] (watch_directory config))))
       (bytes_of_gb (default (inject_Z 50) (cleanup_max_size_gb config))) = true →
     (run_cleanup t config).2 = t).
Proof.
  unfold run_cleanup.
  destruct (negb (default false (cleanup_enabled config))); [done|].
  destruct (bool_decide _ || negb _); [done|].
  destruct (Qle_bool _ _); [done|].
  case_decide.
  { destruct (delete_oldest_files_run_keeps t (default [] (watch_directory config))
                (Qfloor (bytes_of_gb (default (inject_Z 50) (cleanup_max_size_gb config)))))
      as (Hd & Hs & Hk). simpl. split_and!; done. }
  case_decide; [|done].
  destruct (delete_oldest_sessions_run_keeps t (default [] (watch_directory config))
              (Qfloor (bytes_of_gb (default (inject_Z 50) (cleanup_max_size_gb config)))))
    as (Hd & Hs & Hk). simpl. split_and!; done.
Qed.

(** With the strategy "Delete oldest files in watch directory" (also the
    default), on a tree where a path names one file: after an enabled run
    on a valid watch directory the directory is within the limit of
    [cleanup_max_size_gb] gigabytes, or holds only files whose removal
    raised; and a second run with the same configuration removes nothing
    more. *)
Theorem run_cleanup_oldest_files_settles t config :
  paths_unique t →
  default oldest_files (cleanup_strategy config) = oldest_files →
  (run_cleanup (run_cleanup t config).2 config).2 = (run_cleanup t config).2
  ∧ (default false (cleanup_enabled config) = true →
     (run_cleanup t config).1.1 = true →
     Qle_bool
       (inject_Z (get_directory_size (run_cleanup t config).2
                    (default [] (watch_directory config))))
       (bytes_of_gb (default (inject_Z 50) (cleanup_max_size_gb config))) = true
     ∨ Forall (λ f, f_busy f = true)
         (walk (run_cleanup t config).2 (default [] (watch_directory config)))).
Proof.
  intros Hu Hstrategy.
  set (wd := default [] (watch_directory config)).
  set (cap := bytes_of_gb (default (inject_Z 50) (cleanup_max_size_gb config))).
  destruct (delete_oldest_files_run_again t wd (Qfloor cap) Hu) as (Hagain & _ & Hpost).
  assert (∀ u, (run_cleanup u config).2 = u
               ∨ (run_cleanup u config).2 = r_fs (delete_oldest_files_run u wd (Qfloor cap)))
    as Hshape.
  { intros u. unfold run_cleanup. fold wd. fold cap. rewrite Hstrategy.
    destruct (negb _); [by left|]. destruct (_ || _); [by left|].
    destruct (Qle_bool _ _); [by left|]. rewrite decide_True by done. by right. }
  split.
  - destruct (Hshape t) as [Ht|Ht]; rewrite Ht.
    + done.
    + destruct (Hshape (r_fs (delete_oldest_files_run t wd (Qfloor cap)))) as [Hu'|Hu'];
        rewrite Hu'; [done|]. exact Hagain.
  - intros Hen. unfold run_cleanup. fold wd. fold cap. rewrite Hstrategy, Hen.
    cbn [negb]. destruct (_ || _); [done|].
    destruct (Qle_bool (inject_Z (get_directory_size t wd)) cap) eqn:Hq; [by left|].
    rewrite decide_True by done. cbn [fst snd]. intros _.
    destruct Hpost as [Hcap|Hall]; [left|by right]. by apply Qle_bool_floor.
Qed.

Lemma run_cleanup_oldest_files_settles_witness :
  paths_unique demo_fs
  ∧ default oldest_files (cleanup_strategy tight_config) = oldest_files
  ∧ (run_cleanup (run_cleanup demo_fs tight_config).2 tight_config).2
    = (run_cleanup demo_fs tight_config).2.
Proof.
  split; [exact demo_fs_paths_unique|]. split; [reflexivity|].
  apply (run_cleanup_oldest_files_settles demo_fs tight_config);
    [exact demo_fs_paths_unique|reflexivity].
Defined.

Lemma run_cleanup_scope_witness :
  (run_cleanup demo_fs (CleanupConfig (Some true) (Some ["watch"]) None (Some "Archive"))).2
  = demo_fs.
Proof.
  apply (run_cleanup_scope demo_fs
           (CleanupConfig (Some true) (Some ["watch"]) None (Some "Archive"))).
  reflexivity.
Defined.

(** All that can go goes; the busy file stays and the message counts
    four removals. *)
Example run_cleanup_tight :
  run_cleanup demo_fs tight_config
  = (true, DeletedFiles 4, Fs [ File ["watch"; "s1"; "c.fits"] 30 30 true ] (fs_dirs demo_fs)).
Proof. by vm_compute. Qed.

End Cleanup.

(** ** services/ascom_safety.py *)

Module AscomSafety.

(** *** Text *)

Definition newline : ascii := ascii_of_nat 10.

Definition nl : string := String newline "".

(** ['\n'.join(lines)] *)
Definition join_lines (lines : list string) : string := String.concat nl lines.

(** [content.split('\n')[0]]: the text before the first line break. *)
Fixpoint first_line (s : string) : string :=
  match s with
  | EmptyString => EmptyString
  | String c s' => if decide (c = newline) then EmptyString else String c (first_line s')
  end.

Fixpoint one_line (s : string) : bool :=
  match s with
  | EmptyString => true
  | String c s' => if decide (c = newline) then false else one_line s'
  end.

(** The format specification [.0%]: the double is multiplied by 100 in
    double arithmetic, the product is rounded to the nearest integer, ties
    to even, and a percent sign is appended.  The product is rounded to a
    double before it is rounded to an integer: 0.925 gives "92%" (the
    product is the double 92.5) and 0.575 gives "57%" (the product is the
    double below 57.5). *)
Definition percent0 (q : Q) : string :=
  (if Qlt_le_dec q 0 then "-" else "")
  +:+ pretty (round_half_even (fl64 (fl64 (Qabs q) * 100))) +:+ "%".

(** *** The writer object and its input *)

(** The [ascom_safety_file] configuration dictionary; [None] is an
    absent key. *)
Record config := Config {
  cfg_file_path : option string;
  cfg_preamble : option string;
  cfg_open_trigger : option string;
  cfg_closed_trigger : option string;
  cfg_include_confidence : option bool;
  cfg_include_sky_condition : option bool;
  cfg_min_confidence : option Q
}.

Record writer := Writer {
  file_path : string;
  preamble : string;
  open_trigger : string;
  closed_trigger : string;
  include_confidence : bool;
  include_sky_condition : bool;
  min_confidence : Q;
  last_write_time : option string;
  last_status : option string
}.

(** [ASCOMSafetyWriter.__init__]; the default threshold is the double
    that the literal [0.7] denotes. *)
Definition init (c : config) : writer :=
  Writer (default "" (cfg_file_path c))
         (default "Roof Status:" (cfg_preamble c))
         (default "OPEN" (cfg_open_trigger c))
         (default "CLOSED" (cfg_closed_trigger c))
         (default true (cfg_include_confidence c))
         (default true (cfg_include_sky_condition c))
         (default (fl64 (7 # 10)) (cfg_min_confidence c))
         None None.

Definition is_configured (w : writer) : bool := negb (String.eqb (file_path w) "").

(** The entries of [ml_results] that [write_status] reads, typed as its
    docstring types them.  For the two labels [None] is an absent key; for
    the two confidences it is an absent key or the value [None]. *)
Record ml_results := MlResults {
  roof_status : option string;
  roof_confidence : option Q;
  sky_condition : option string;
  sky_confidence : option Q
}.

(** *** The file system and its faults *)

Record world := World {
  files : gmap string string;
  dirs : gset string
}.

(** The system calls that [_atomic_write] makes. *)
Inductive fs_op :=
| Makedirs (p : string)
| OpenTrunc (p : string)
| WriteData (p : string) (data : string)
| Replace (src dst : string)
| Remove (p : string).

Definition apply_op (o : fs_op) (s : world) : world :=
  match o with
  | Makedirs p => World (files s) ({[p]} ∪ dirs s)
  | OpenTrunc p => World (<[p := ""]> (files s)) (dirs s)
  | WriteData p data =>
      World (<[p := default "" (files s !! p) +:+ data]> (files s)) (dirs s)
  | Replace src dst =>
      match files s !! src with
      | Some c => World (<[dst := c]> (delete src (files s))) (dirs s)
      | None => s
      end
  | Remove p => World (delete p (files s)) (dirs s)
  end.

Definition run_ops (s : world) (l : list fs_op) : world := foldl (flip apply_op) s l.

(** The files whose content or existence an operation changes. *)
Definition op_targets (o : fs_op) : list string :=
  match o with
  | Makedirs _ => []
  | OpenTrunc p => [p]
  | WriteData p _ => [p]
  | Replace src dst => [src; dst]
  | Remove p => [p]
  end.

(** What the platform does during one call: the clock reading, the
    directory part of a path, and which system calls raise.
    [write_raises_after = Some n]: [f.write] raises when [n] characters
    have reached the file. *)
Record env := Env {
  now : string;
  os_path_dirname : string → string;
  makedirs_raises : bool;
  open_raises : bool;
  write_raises_after : option nat;
  replace_raises : bool;
  remove_raises : bool
}.

Definition os_path_exists (s : world) (p : string) : bool :=
  bool_decide (is_Some (files s !! p)) || bool_decide (p ∈ dirs s).

Inductive outcome := Returned (b : bool) | Raised.

Definition temp_path_of (w : writer) : string := file_path w +:+ ".tmp".

(** The body of the [try] in [_atomic_write] up to and including
    [os.replace]: the operations performed, and whether an exception
    left the block. *)
Definition write_and_replace (e : env) (w : writer) (content : string)
    : list fs_op * bool :=
  let temp_path := temp_path_of w in
  if open_raises e then ([], true)
  else
    match write_raises_after e with
    | Some n => ([OpenTrunc temp_path; WriteData temp_path (substring 0 n content)], true)
    | None =>
        if replace_raises e
        then ([OpenTrunc temp_path; WriteData temp_path content], true)
        else ([OpenTrunc temp_path; WriteData temp_path content;
               Replace temp_path (file_path w)], false)
    end.

(** The [except] handler: best-effort removal of the temporary file. *)
Definition cleanup (e : env) (w : writer) (s : world) : list fs_op :=
  if os_path_exists s (temp_path_of w)
  then (if remove_raises e then [] else
          if bool_decide (is_Some (files s !! temp_path_of w))
          then [Remove (temp_path_of w)] else [])
  else [].

(** [if dir_path and not os.path.exists(dir_path)] *)
Definition needs_dir (e : env) (w : writer) (s : world) : bool :=
  let dir_path := os_path_dirname e (file_path w) in
  negb (String.eqb dir_path "") && negb (os_path_exists s dir_path).

(** [ASCOMSafetyWriter._atomic_write]: the result, the writer with its
    bookkeeping, and the system calls performed in order. *)
Definition atomic_write (e : env) (w : writer) (content : string) (s : world)
    : outcome * writer * list fs_op :=
  let dir_path := os_path_dirname e (file_path w) in
  if needs_dir e w s && makedirs_raises e then (Returned false, w, [])
  else
    let mk := if needs_dir e w s then [Makedirs dir_path] else [] in
    let '(body, raised) := write_and_replace e w content in
    if raised then
      (Raised, w, mk ++ body ++ cleanup e w (run_ops s (mk ++ body)))
    else
      (Returned true,
       Writer (file_path w) (preamble w) (open_trigger w) (closed_trigger w)
              (include_confidence w) (include_sky_condition w) (min_confidence w)
              (Some (now e)) (Some (first_line content)),
       mk ++ body).

(** The lines that [write_status] builds. *)
Definition trigger_of (w : writer) (status : string) : string :=
  if String.eqb status "Open" then open_trigger w else closed_trigger w.

Definition confidence_lines (w : writer) (m : ml_results) : list string :=
  match roof_confidence m with
  | Some c => if include_confidence w then ["Confidence: " +:+ percent0 c] else []
  | None => []
  end.

Definition sky_lines (w : writer) (m : ml_results) : list string :=
  let sky := default "N/A" (sky_condition m) in
  if include_sky_condition w && negb (String.eqb sky "N/A") then
    [ "Sky Condition: " +:+ sky +:+
      match sky_confidence m with
      | Some c => " (" +:+ percent0 c +:+ ")"
      | None => ""
      end ]
  else [].

Definition build_lines (e : env) (w : writer) (m : ml_results) : list string :=
  [preamble w +:+ " " +:+ trigger_of w (default "N/A" (roof_status m))]
  ++ confidence_lines w m ++ sky_lines w m ++ ["Updated: " +:+ now e].

Definition build_content (e : env) (w : writer) (m : ml_results) : string :=
  join_lines (build_lines e w m) +:+ nl.

(** The two early exits of [write_status] after the configuration check. *)
Definition skipped (w : writer) (m : ml_results) : bool :=
  String.eqb (default "N/A" (roof_status m)) "N/A"
  || match roof_confidence m with
     | Some c => if Qlt_le_dec c (min_confidence w) then true else false
     | None => false
     end.

(** [ASCOMSafetyWriter.write_status]: the returned flag, the writer and
    the system calls performed. *)
Definition write_status_ops (e : env) (w : writer) (m : ml_results) (s : world)
    : bool * writer * list fs_op :=
  if negb (is_configured w) then (false, w, [])
  else if String.eqb (default "N/A" (roof_status m)) "N/A" then (false, w, [])
  else if match roof_confidence m with
          | Some c => if Qlt_le_dec c (min_confidence w) then true else false
          | None => false
          end then (false, w, [])
  else
    match atomic_write e w (build_content e w m) s with
    | (Returned b, w', l) => (b, w', l)
    | (Raised, w', l) => (false, w', l)
    end.

Definition write_status (e : env) (w : writer) (m : ml_results) (s : world)
    : bool * writer * world :=
  let '(b, w', l) := write_status_ops e w m s in (b, w', run_ops s l).

(** *** Examples *)

Definition demo_writer : writer :=
  init (Config (Some "C:/obs/roof.txt") None None None None None None).

Definition calm : env := Env "2025-01-31 22:15:00" (λ _, "C:/obs") false false None false false.

Definition demo_world : world :=
  World {[ "C:/obs/roof.txt" := "Roof Status: CLOSED" +:+ nl +:+ "Updated: 2025-01-31 22:10:00" +:+ nl ]}
        {[ "C:/obs" ]}.

Definition open_092 : ml_results := MlResults (Some "Open") (Some (92 # 100)) (Some "Clear") (Some (871 # 1000)).

(** *** The confidence gate *)

(** C1: whatever the other entries of [ml_results] are, when the roof
    status is 'N/A' (given, or absent and defaulted), or when a roof
    confidence is present and strictly below [min_confidence],
    [write_status] returns [False], makes no system call at all, and leaves
    the file system (in particular the content of the target file) and the
    writer exactly as they were. *)
Theorem write_status_skips_unknown_or_low_confidence e w m s :
  default "N/A" (roof_status m) = "N/A"
  ∨ (∃ c, roof_confidence m = Some c ∧ (c < min_confidence w)%Q) →
  write_status_ops e w m s = (false, w, [])
  ∧ write_status e w m s = (false, w, s)
  ∧ files (write_status e w m s).2 !! file_path w = files s !! file_path w.
Proof.
  intros Hgate.
  assert (write_status_ops e w m s = (false, w, [])) as Hops.
  { unfold write_status_ops. destruct (negb (is_configured w)); [done|].
    destruct Hgate as [Hna|(c & Hc & Hlt)].
    - by rewrite Hna.
    - destruct (String.eqb (default "N/A" (roof_status m)) "N/A"); [done|].
      rewrite Hc. destruct (Qlt_le_dec c (min_confidence w)) as [|Hle]; [done|].
      exfalso. by apply (Qlt_not_le _ _ Hlt). }
  assert (write_status e w m s = (false, w, s)) as Hws.
  { unfold write_status. by rewrite Hops. }
  split_and!; [done|done|]. by rewrite Hws.
Qed.

Definition low_05 : ml_results := MlResults (Some "Open") (Some (5 # 10)) None None.

(** The scenario of the specification: confidence 0.5 under a threshold
    of 0.7 leaves the target file unmodified. *)
Lemma write_status_skips_unknown_or_low_confidence_witness :
  write_status_ops calm demo_writer low_05 demo_world = (false, demo_writer, [])
  ∧ write_status calm demo_writer low_05 demo_world = (false, demo_writer, demo_world)
  ∧ files (write_status calm demo_writer low_05 demo_world).2 !! file_path demo_writer
    = files demo_world !! file_path demo_writer.
Proof.
  apply (write_status_skips_unknown_or_low_confidence calm demo_writer low_05 demo_world).
  right. exists (5 # 10)%Q. split; [reflexivity|]. reflexivity.
Defined.

(** *** Atomicity of the write *)

(** Some step up to and including [os.replace] raises. *)
Definition fails_before_rename (e : env) (w : writer) (s : world) : bool :=
  needs_dir e w s && makedirs_raises e
  || open_raises e
  || bool_decide (is_Some (write_raises_after e))
  || replace_raises e.

Definition untouched (p : string) (o : fs_op) : Prop := p ∉ op_targets o.

Lemma string_length_app (a b : string) :
  String.length (a +:+ b) = (String.length a + String.length b)%nat.
Proof. induction a as [|c a IH]; simpl; [done|]. by rewrite IH. Qed.

Lemma temp_path_ne w : temp_path_of w ≠ file_path w.
Proof.
  unfold temp_path_of. intros Heq. apply (f_equal String.length) in Heq.
  rewrite string_length_app in Heq. simpl in Heq. lia.
Qed.

Lemma run_ops_app s l k : run_ops s (l ++ k) = run_ops (run_ops s l) k.
Proof. apply foldl_app. Qed.

Lemma apply_op_untouched o s p :
  untouched p o → files (apply_op o s) !! p = files s !! p.
Proof.
  unfold untouched.
  destruct o as [d|q|q data|src dst|q]; simpl; rewrite ?not_elem_of_cons; intros Hp.
  - done.
  - destruct Hp as [Hp _]. by apply lookup_insert_ne.
  - destruct Hp as [Hp _]. by apply lookup_insert_ne.
  - destruct Hp as (Hsrc & Hdst & _). destruct (files s !! src); [|done]. simpl.
    by rewrite lookup_insert_ne, lookup_delete_ne.
  - destruct Hp as [Hp _]. by apply lookup_delete_ne.
Qed.

Lemma run_ops_untouched l s p :
  Forall (untouched p) l → files (run_ops s l) !! p = files s !! p.
Proof.
  intros Hall. revert s. induction Hall as [|o l Ho Hall IH]; intros s; [done|].
  unfold run_ops in *. simpl. rewrite IH. by apply apply_op_untouched.
Qed.

Lemma prefix_snoc_inv {A} (pre l : list A) x :
  pre `prefix_of` l ++ [x] → pre `prefix_of` l ∨ pre = l ++ [x].
Proof.
  intros [k Hk]. destruct k as [|y k _] using rev_ind.
  - right. by rewrite app_nil_r in Hk.
  - left. rewrite app_assoc in Hk. apply app_inj_tail in Hk as [-> _].
    by apply prefix_app_r.
Qed.

(** The temporary file holds the whole content once it is written. *)
Lemma temp_written s mk w content :
  Forall (untouched (temp_path_of w)) mk →
  files (run_ops s (mk ++ [OpenTrunc (temp_path_of w);
                           WriteData (temp_path_of w) content]))
    !! temp_path_of w = Some content.
Proof.
  intros _. rewrite run_ops_app. unfold run_ops at 1. simpl.
  by rewrite lookup_insert_eq, lookup_insert_eq.
Qed.

Lemma cleanup_removes e w s :
  remove_raises e = false →
  files (run_ops s (cleanup e w s)) !! temp_path_of w = None.
Proof.
  intros Hrm. unfold cleanup, os_path_exists. rewrite Hrm.
  destruct (files s !! temp_path_of w) as [c|] eqn:Hc.
  - rewrite !bool_decide_eq_true_2 by eauto. simpl. apply lookup_delete_eq.
  - rewrite (bool_decide_eq_false_2 (is_Some None)) by (by intros [? ?]).
    simpl. by destruct (bool_decide _).
Qed.

Lemma cleanup_untouched e w s : Forall (untouched (file_path w)) (cleanup e w s).
Proof.
  unfold cleanup. pose proof (temp_path_ne w) as Hne.
  destruct (os_path_exists _ _); [|constructor].
  destruct (remove_raises e); [constructor|].
  destruct (bool_decide _); repeat constructor.
  unfold untouched. simpl. rewrite not_elem_of_cons. split; [done|apply not_elem_of_nil].
Qed.

Lemma makedirs_untouched p (b : bool) d :
  Forall (untouched p) (if b then [Makedirs d] else []).
Proof. destruct b; repeat constructor. unfold untouched. simpl. apply not_elem_of_nil. Qed.

(** The two ways [_atomic_write] can go. *)
Lemma atomic_write_spec e w content s r w' l :
  atomic_write e w content s = (r, w', l) →
  (fails_before_rename e w s = true
   ∧ r ≠ Returned true ∧ w' = w
   ∧ Forall (untouched (file_path w)) l
   ∧ (l = [] ∨ (remove_raises e = false →
                files (run_ops s l) !! temp_path_of w = None)))
  ∨ (fails_before_rename e w s = false
     ∧ r = Returned true
     ∧ ∃ mk, Forall (untouched (file_path w)) mk
           ∧ Forall (untouched (temp_path_of w)) mk
           ∧ l = (mk ++ [OpenTrunc (temp_path_of w); WriteData (temp_path_of w) content])
                 ++ [Replace (temp_path_of w) (file_path w)]).
Proof.
  unfold atomic_write, fails_before_rename, write_and_replace.
  pose proof (temp_path_ne w) as Hne.
  set (mk := if needs_dir e w s then [Makedirs (os_path_dirname e (file_path w))] else []).
  assert (Forall (untouched (file_path w)) mk) as Hmk by apply makedirs_untouched.
  assert (Forall (untouched (temp_path_of w)) mk) as Hmk' by apply makedirs_untouched.
  assert (∀ a, a ≠ file_path w → untouched (file_path w) (OpenTrunc a)) as Hopen.
  { intros a Ha. unfold untouched. simpl. rewrite not_elem_of_cons.
    split; [done|apply not_elem_of_nil]. }
  assert (∀ a d, a ≠ file_path w → untouched (file_path w) (WriteData a d)) as Hwr.
  { intros a d Ha. unfold untouched. simpl. rewrite not_elem_of_cons.
    split; [done|apply not_elem_of_nil]. }
  destruct (needs_dir e w s && makedirs_raises e) eqn:Hdir; simpl.
  { intros [= <- <- <-]. left. split_and!; auto. }
  destruct (open_raises e) eqn:Hopen_raises; simpl.
  { intros [= <- <- <-]. left. split_and!; auto.
    - rewrite Forall_app. split; [done|]. apply cleanup_untouched.
    - right. intros Hrm. rewrite run_ops_app, app_nil_r. by apply cleanup_removes. }
  destruct (write_raises_after e) as [n|] eqn:Hwrite; simpl.
  { intros [= <- <- <-]. left. split_and!; auto.
    - rewrite Forall_app. split; [done|].
      apply Forall_cons. split; [by apply Hopen|].
      apply Forall_cons. split; [by apply Hwr|]. apply cleanup_untouched.
    - right. intros Hrm.
      match goal with
      | |- context [run_ops s (mk ++ ?a :: ?b :: ?c)] =>
          replace (mk ++ a :: b :: c) with ((mk ++ [a; b]) ++ c)
            by (by rewrite <- app_assoc)
      end.
      rewrite run_ops_app. by apply cleanup_removes. }
  destruct (replace_raises e) eqn:Hreplace; simpl.
  { intros [= <- <- <-]. left. split_and!; auto.
    - rewrite Forall_app. split; [done|].
      apply Forall_cons. split; [by apply Hopen|].
      apply Forall_cons. split; [by apply Hwr|]. apply cleanup_untouched.
    - right. intros Hrm.
      match goal with
      | |- context [run_ops s (mk ++ ?a :: ?b :: ?c)] =>
          replace (mk ++ a :: b :: c) with ((mk ++ [a; b]) ++ c)
            by (by rewrite <- app_assoc)
      end.
      rewrite run_ops_app. by apply cleanup_removes. }
  intros [= <- <- <-]. right. split_and!; auto.
  exists mk. split_and!; auto. by rewrite <- app_assoc.
Qed.

Lemma write_status_ops_gated e w m s :
  is_configured w = true → skipped w m = false →
  write_status_ops e w m s =
    match atomic_write e w (build_content e w m) s with
    | (Returned b, w', l) => (b, w', l)
    | (Raised, w', l) => (false, w', l)
    end.
Proof.
  unfold write_status_ops, skipped. intros -> Hskip.
  apply orb_false_iff in Hskip as [-> ->]. done.
Qed.

(** C4: for a configured writer and a result that passes the confidence check,
    whatever the platform does,
    - the only system call of [write_status] that changes the target is
      the final rename of the temporary sibling over it;
    - after every prefix of the calls the target holds its prior content
      or the complete new content, never a part of it;
    - when a step up to the rename raises, the call returns [False] (the
      exception that [_atomic_write] raises is caught), the writer's
      bookkeeping and the target are unchanged, no rename took place, and
      either nothing was done at all or the temporary file is gone unless
      its removal itself raised;
    - otherwise the call returns [True], the target holds the new content
      and the temporary file is gone. *)
Theorem write_status_atomic e w m s b w' l :
  is_configured w = true → skipped w m = false →
  write_status_ops e w m s = (b, w', l) →
  (∀ o, o ∈ l → file_path w ∈ op_targets o →
        o = Replace (temp_path_of w) (file_path w))
  ∧ (∀ pre, pre `prefix_of` l →
        files (run_ops s pre) !! file_path w = files s !! file_path w
        ∨ files (run_ops s pre) !! file_path w = Some (build_content e w m))
  ∧ (fst (fst (atomic_write e w (build_content e w m) s)) = Raised → b = false)
  ∧ (fails_before_rename e w s = true →
        b = false ∧ w' = w
        ∧ (Replace (temp_path_of w) (file_path w) ∉ l)
        ∧ files (run_ops s l) !! file_path w = files s !! file_path w
        ∧ (l = [] ∨ (remove_raises e = false →
                     files (run_ops s l) !! temp_path_of w = None)))
  ∧ (fails_before_rename e w s = false →
        b = true
        ∧ files (run_ops s l) !! file_path w = Some (build_content e w m)
        ∧ files (run_ops s l) !! temp_path_of w = None).
Proof.
  intros Hconf Hgate. rewrite (write_status_ops_gated e w m s Hconf Hgate).
  destruct (atomic_write e w (build_content e w m) s) as [[r w1] l1] eqn:Haw.
  pose proof (temp_path_ne w) as Hne.
  apply atomic_write_spec in Haw
    as [(Hfail & Hr & -> & Hun & Htmp)|(Hok & -> & mk & Hmk & Hmk' & ->)].
  - intros Hres.
    assert (b = false ∧ w' = w ∧ l = l1) as (-> & -> & ->).
    { destruct r as [[|]|]; by inversion Hres. }
    clear Hres. rewrite Forall_forall in Hun. split_and!.
    + intros o Ho Hin. by destruct (Hun o Ho).
    + intros pre [k ->]. left. apply run_ops_untouched.
      rewrite Forall_forall. intros o Ho. apply Hun. apply elem_of_app. by left.
    + done.
    + intros _. split_and!; try done.
      * intros Hin. apply (Hun _ Hin). simpl. rewrite !elem_of_cons. auto.
      * apply run_ops_untouched. by rewrite Forall_forall.
    + intros Hok. congruence.
  - intros [= <- <- <-].
    set (t := temp_path_of w) in *. set (c := build_content e w m) in *.
    assert (Forall (untouched (file_path w)) (mk ++ [OpenTrunc t; WriteData t c])) as Hun.
    { rewrite Forall_app. split; [done|].
      repeat constructor; unfold untouched; simpl; rewrite not_elem_of_cons;
        (split; [congruence|apply not_elem_of_nil]). }
    assert (files (run_ops s ((mk ++ [OpenTrunc t; WriteData t c]) ++ [Replace t (file_path w)]))
            = <[file_path w := c]>
                (delete t (files (run_ops s (mk ++ [OpenTrunc t; WriteData t c]))))) as Hfin.
    { rewrite run_ops_app.
      pose proof (temp_written s mk w c Hmk') as Htmp. fold t in Htmp.
      set (s2 := run_ops s (mk ++ [OpenTrunc t; WriteData t c])) in *.
      change (run_ops s2 [Replace t (file_path w)])
        with (apply_op (Replace t (file_path w)) s2).
      unfold apply_op. by rewrite Htmp. }
    split_and!.
    + intros o Ho Hin. apply elem_of_app in Ho as [Ho|Ho].
      * rewrite Forall_forall in Hun. by destruct (Hun o Ho).
      * by apply list_elem_of_singleton in Ho.
    + intros pre Hpre. apply prefix_snoc_inv in Hpre as [[k Hk]| ->].
      * left. apply run_ops_untouched. rewrite Hk, Forall_app in Hun. tauto.
      * right. rewrite Hfin. apply lookup_insert_eq.
    + done.
    + intros Hfail. congruence.
    + intros _. split_and!; [done| |].
      * rewrite Hfin. apply lookup_insert_eq.
      * rewrite Hfin, lookup_insert_ne, lookup_delete_eq; [done|congruence].
Qed.

(** A platform on which the rename is refused (the target is held open
    by its reader). *)
Definition rename_denied : env :=
  Env "2025-01-31 22:15:00" (λ _, "C:/obs") false false None true false.

Lemma write_status_atomic_witness :
  is_configured demo_writer = true
  ∧ skipped demo_writer open_092 = false
  ∧ write_status_ops rename_denied demo_writer open_092 demo_world
    = (false, demo_writer,
       [OpenTrunc "C:/obs/roof.txt.tmp";
        WriteData "C:/obs/roof.txt.tmp" (build_content rename_denied demo_writer open_092);
        Remove "C:/obs/roof.txt.tmp"])
  ∧ fails_before_rename rename_denied demo_writer demo_world = true
  ∧ files (write_status rename_denied demo_writer open_092 demo_world).2
      !! file_path demo_writer
    = files demo_world !! file_path demo_writer.
Proof.
  assert (is_configured demo_writer = true) as Hc by reflexivity.
  assert (skipped demo_writer open_092 = false) as Hg by reflexivity.
  assert (write_status_ops rename_denied demo_writer open_092 demo_world
          = (false, demo_writer,
             [OpenTrunc "C:/obs/roof.txt.tmp";
              WriteData "C:/obs/roof.txt.tmp"
                (build_content rename_denied demo_writer open_092);
              Remove "C:/obs/roof.txt.tmp"])) as Hops by (vm_compute; reflexivity).
  assert (fails_before_rename rename_denied demo_writer demo_world = true)
    as Hfail by reflexivity.
  split_and!; [exact Hc|exact Hg|exact Hops|exact Hfail|].
  destruct (write_status_atomic rename_denied demo_writer open_092 demo_world
              _ _ _ Hc Hg Hops) as (_ & _ & _ & Hkeep & _).
  destruct (Hkeep Hfail) as (_ & _ & _ & Htarget & _).
  unfold write_status. rewrite Hops. exact Htarget.
Defined.

Example write_status_rename_denied :
  files (write_status rename_denied demo_writer open_092 demo_world).2
  = files demo_world.
Proof. by vm_compute. Qed.

Example write_status_partial_write :
  write_status_ops
    (Env "2025-01-31 22:15:00" (λ _, "C:/obs") false false (Some 4%nat) false true)
    demo_writer open_092 demo_world
  = (false, demo_writer,
     [OpenTrunc "C:/obs/roof.txt.tmp"; WriteData "C:/obs/roof.txt.tmp" "Roof"]).
Proof. by vm_compute. Qed.

(** *** The content of the file *)

Lemma string_app_cons x (a b : string) : String x a +:+ b = String x (a +:+ b).
Proof. reflexivity. Qed.

Lemma string_app_assoc (a b c : string) : (a +:+ b) +:+ c = a +:+ (b +:+ c).
Proof.
  induction a as [|x a IH]; [done|]. rewrite !string_app_cons. by rewrite IH.
Qed.

Lemma string_app_nil_r (a : string) : a +:+ "" = a.
Proof.
  induction a as [|x a IH]; [done|]. rewrite string_app_cons. by rewrite IH.
Qed.

Lemma one_line_app a b : one_line a = true → one_line b = true → one_line (a +:+ b) = true.
Proof.
  induction a as [|x a IH]; [done|]. rewrite string_app_cons. simpl.
  case_decide; [done|]. apply IH.
Qed.

Lemma first_line_app a rest :
  one_line a = true → first_line (a +:+ nl +:+ rest) = a.
Proof.
  induction a as [|x a IH].
  - intros _. reflexivity.
  - rewrite string_app_cons. simpl. case_decide; [done|]. intros Ha. by rewrite IH.
Qed.

(** With at least two lines, the text starts with the first line and a
    line break. *)
Lemma join_lines_cons a b rest :
  join_lines (a :: b :: rest) +:+ nl = a +:+ nl +:+ (join_lines (b :: rest) +:+ nl).
Proof.
  unfold join_lines.
  change (String.concat nl (a :: b :: rest))
    with (a +:+ nl +:+ String.concat nl (b :: rest)).
  by rewrite !string_app_assoc.
Qed.

Lemma build_content_first_line e w m :
  one_line (preamble w) = true →
  one_line (trigger_of w (default "N/A" (roof_status m))) = true →
  first_line (build_content e w m)
  = preamble w +:+ " " +:+ trigger_of w (default "N/A" (roof_status m)).
Proof.
  intros Hp Ht. unfold build_content.
  set (a := preamble w +:+ " " +:+ trigger_of w (default "N/A" (roof_status m))).
  assert (one_line a = true) as Ha.
  { unfold a. apply one_line_app; [done|]. by apply (one_line_app " "). }
  change (build_lines e w m)
    with (a :: (confidence_lines w m ++ sky_lines w m ++ ["Updated: " +:+ now e])).
  destruct (confidence_lines w m ++ sky_lines w m ++ ["Updated: " +:+ now e])
    as [|b rest] eqn:Hrest.
  { exfalso. destruct (confidence_lines w m); [|done]. by destruct (sky_lines w m). }
  rewrite join_lines_cons. by apply first_line_app.
Qed.

(** A call that returns [True] has passed both gates and has replaced the
    target by the content built from the result. *)
Lemma write_status_true e w m s w' l :
  write_status_ops e w m s = (true, w', l) →
  (∃ status, roof_status m = Some status ∧ status ≠ "N/A")
  ∧ files (run_ops s l) !! file_path w = Some (build_content e w m)
  ∧ last_status w' = Some (first_line (build_content e w m)).
Proof.
  unfold write_status_ops. destruct (negb (is_configured w)); [done|].
  destruct (String.eqb (default "N/A" (roof_status m)) "N/A") eqn:Hna; [done|].
  destruct (match roof_confidence m with Some _ => _ | None => _ end); [done|].
  destruct (atomic_write e w (build_content e w m) s) as [[r w1] l1] eqn:Haw.
  intros Hres. assert (r = Returned true ∧ w1 = w' ∧ l1 = l) as (-> & -> & ->).
  { destruct r as [[|]|]; by inversion Hres. }
  clear Hres. split_and!.
  - destruct (roof_status m) as [status|]; [|done]. exists status. split; [done|].
    intros ->. done.
  - pose proof (temp_path_ne w) as Hne.
    apply atomic_write_spec in Haw
      as [(_ & Hr & _)|(_ & _ & mk & _ & Hmk' & ->)]; [done|].
    rewrite run_ops_app.
    pose proof (temp_written s mk w (build_content e w m) Hmk') as Htmp.
    set (s2 := run_ops s (mk ++ _)) in *.
    change (run_ops s2 [Replace (temp_path_of w) (file_path w)])
      with (apply_op (Replace (temp_path_of w) (file_path w)) s2).
    unfold apply_op. rewrite Htmp. apply lookup_insert_eq.
  - unfold atomic_write in Haw.
    destruct (needs_dir e w s && makedirs_raises e); [done|].
    destruct (write_and_replace e w (build_content e w m)) as [body [|]]; [done|].
    by inversion Haw.
Qed.

Lemma percent0_shape q : ∃ nn, percent0 q = nn +:+ "%".
Proof. unfold percent0. eexists. by rewrite <- string_app_assoc. Qed.

(** Percentages at the doubles next to a half: the product with 100 is
    a double before it is rounded to an integer. *)
Example percent0_double_product :
  percent0 (925 # 1000) = "92%"
  ∧ percent0 (4165829655317709 # 4503599627370496) = "92%"
  ∧ percent0 (575 # 1000) = "57%"
  ∧ percent0 (545 # 1000) = "55%"
  ∧ percent0 (5 # 1000) = "0%"
  ∧ percent0 (15 # 1000) = "2%"
  ∧ percent0 1 = "100%".
Proof. split_and!; by vm_compute. Qed.

(** The default threshold: a confidence that is the double 0.7 is not
    below it, and the write goes ahead. *)
Example default_threshold_is_a_double :
  min_confidence (init (Config (Some "x") None None None None None None))
  = (3152519739159347 # 4503599627370496)%Q
  ∧ skipped (init (Config (Some "x") None None None None None None))
            (MlResults (Some "Open") (Some (fl64 (7 # 10))) None None) = false.
Proof. split; by vm_compute. Qed.

(** The layout in the words of the specification: the status line, an
    optional ["Confidence: NN%"] line, an optional
    ["Sky Condition: <label> (NN%)"] line, and a trailing
    ["Updated: <timestamp>"] line. *)
Definition specified_layout (first : string) (lines : list string) : Prop :=
  ∃ conf sky timestamp,
    lines = [first] ++ conf ++ sky ++ ["Updated: " +:+ timestamp]
    ∧ (conf = [] ∨ ∃ nn, conf = ["Confidence: " +:+ nn +:+ "%"])
    ∧ (sky = [] ∨ ∃ label nn, sky = ["Sky Condition: " +:+ label +:+ " (" +:+ nn +:+ "%)"]).

Fixpoint has_char (c : ascii) (s : string) : bool :=
  match s with
  | EmptyString => false
  | String x s' => if decide (x = c) then true else has_char c s'
  end.

Lemma has_char_app c a b : has_char c (a +:+ b) = has_char c a || has_char c b.
Proof.
  induction a as [|x a IH]; [done|]. rewrite string_app_cons. simpl.
  by case_decide.
Qed.

(** A sky label that comes without a sky confidence. *)
Definition clear_no_confidence : ml_results :=
  MlResults (Some "Open") (Some (92 # 100)) (Some "Clear") None.

(** C9, as stated, fails: for a result whose sky label has no confidence
    the call succeeds and writes the line "Sky Condition: Clear", which is
    not of the form "Sky Condition: <label> (NN%)". *)
Lemma sky_line_without_percentage :
  write_status_ops calm demo_writer clear_no_confidence demo_world
  = (true,
     Writer "C:/obs/roof.txt" "Roof Status:" "OPEN" "CLOSED" true true (fl64 (7 # 10))
            (Some "2025-01-31 22:15:00") (Some "Roof Status: OPEN"),
     [OpenTrunc "C:/obs/roof.txt.tmp";
      WriteData "C:/obs/roof.txt.tmp"
        (join_lines ["Roof Status: OPEN"; "Confidence: 92%"; "Sky Condition: Clear";
                     "Updated: 2025-01-31 22:15:00"] +:+ nl);
      Replace "C:/obs/roof.txt.tmp" "C:/obs/roof.txt"])
  ∧ files (write_status calm demo_writer clear_no_confidence demo_world).2
      !! "C:/obs/roof.txt"
    = Some (join_lines ["Roof Status: OPEN"; "Confidence: 92%"; "Sky Condition: Clear";
                        "Updated: 2025-01-31 22:15:00"] +:+ nl)
  ∧ ¬ specified_layout "Roof Status: OPEN"
        ["Roof Status: OPEN"; "Confidence: 92%"; "Sky Condition: Clear";
         "Updated: 2025-01-31 22:15:00"].
Proof.
  split_and!; [by vm_compute|by vm_compute|].
  intros (conf & sky & ts & Hlines & Hconf & Hsky).
  assert (∀ label nn, "Clear" ≠ label +:+ " (" +:+ nn +:+ "%)") as Hno.
  { intros label nn Heq. apply (f_equal (has_char "(")) in Heq.
    rewrite !has_char_app in Heq. simpl in Heq.
    by rewrite orb_true_r in Heq. }
  destruct Hconf as [->|[nn ->]]; destruct Hsky as [->|(label & nn' & ->)];
    simpl in Hlines; try discriminate Hlines.
  injection Hlines as _ Heq _. exact (Hno _ _ Heq).
Qed.

(** C9, amended: when [write_status] returns [True] the target file holds
    the lines below, each ended by a line break:
    - "<preamble> <trigger>", with [open_trigger] for the status 'Open' and
      [closed_trigger] for 'Closed' (and for any other status);
    - "Confidence: NN%" when a roof confidence is present and
      [include_confidence] is set;
    - when [include_sky_condition] is set and the sky label is not 'N/A':
      "Sky Condition: <label> (NN%)" if a sky confidence is present, and
      "Sky Condition: <label>" if it is not;
    - "Updated: <timestamp>".
    The percentages are those of the format [.0%].  The file starts with
    "<preamble> <trigger>" and a line break; the text before the first
    line break, which the writer records as its last status, is
    "<preamble> <trigger>" when preamble and trigger hold no line break. *)
Theorem write_status_content e w m s w' l :
  write_status_ops e w m s = (true, w', l) →
  ∃ status trigger conf sky,
    roof_status m = Some status
    ∧ (status = "Open" → trigger = open_trigger w)
    ∧ (status = "Closed" → trigger = closed_trigger w)
    ∧ (status ≠ "Open" → trigger = closed_trigger w)
    ∧ files (run_ops s l) !! file_path w
      = Some (join_lines ([preamble w +:+ " " +:+ trigger] ++ conf ++ sky
                          ++ ["Updated: " +:+ now e]) +:+ nl)
    ∧ (conf = [] ∧ (roof_confidence m = None ∨ include_confidence w = false)
       ∨ ∃ c, roof_confidence m = Some c ∧ include_confidence w = true
              ∧ conf = ["Confidence: " +:+ percent0 c])
    ∧ (sky = [] ∧ (default "N/A" (sky_condition m) = "N/A"
                   ∨ include_sky_condition w = false)
       ∨ ∃ label, sky_condition m = Some label ∧ label ≠ "N/A"
                  ∧ include_sky_condition w = true
                  ∧ match sky_confidence m with
                    | Some c => sky = ["Sky Condition: " +:+ label
                                       +:+ " (" +:+ percent0 c +:+ ")"]
                    | None => sky = ["Sky Condition: " +:+ label]
                    end)
    ∧ (one_line (preamble w) = true → one_line trigger = true →
       first_line (join_lines ([preamble w +:+ " " +:+ trigger] ++ conf ++ sky
                               ++ ["Updated: " +:+ now e]) +:+ nl)
         = preamble w +:+ " " +:+ trigger
       ∧ last_status w' = Some (preamble w +:+ " " +:+ trigger)).
Proof.
  intros Hres.
  destruct (write_status_true e w m s w' l Hres)
    as ((status & Hst & Hna) & Hfile & Hlast).
  exists status, (trigger_of w status), (confidence_lines w m), (sky_lines w m).
  assert (default "N/A" (roof_status m) = status) as Hdef by (by rewrite Hst).
  unfold build_content, build_lines in Hfile, Hlast. rewrite Hdef in Hfile, Hlast.
  split_and!; try done.
  - intros ->. reflexivity.
  - intros ->. reflexivity.
  - intros Hne. unfold trigger_of.
    destruct (String.eqb_spec status "Open"); [done|reflexivity].
  - unfold confidence_lines. destruct (roof_confidence m) as [c|]; [|left; auto].
    destruct (include_confidence w) eqn:Hinc; [right; by exists c|left; auto].
  - unfold sky_lines. destruct (include_sky_condition w) eqn:Hinc; [|left; auto].
    destruct (String.eqb_spec (default "N/A" (sky_condition m)) "N/A") as [Heq|Hne];
      simpl; [left; auto|right].
    destruct (sky_condition m) as [label|]; [|done]. simpl in *.
    exists label. split_and!; try done.
    destruct (sky_confidence m); [done|by rewrite string_app_nil_r].
  - intros Hp Ht.
    pose proof (build_content_first_line e w m Hp) as Hfl.
    unfold build_content, build_lines in Hfl. rewrite Hdef in Hfl.
    specialize (Hfl Ht). rewrite Hfl in Hlast. done.
Qed.

(** The scenario of the specification: confidence 0.92, threshold 0.7,
    status 'Open'. *)
Lemma write_status_content_witness :
  write_status_ops calm demo_writer open_092 demo_world
  = (true,
     Writer "C:/obs/roof.txt" "Roof Status:" "OPEN" "CLOSED" true true (fl64 (7 # 10))
            (Some "2025-01-31 22:15:00") (Some "Roof Status: OPEN"),
     [OpenTrunc "C:/obs/roof.txt.tmp";
      WriteData "C:/obs/roof.txt.tmp" (build_content calm demo_writer open_092);
      Replace "C:/obs/roof.txt.tmp" "C:/obs/roof.txt"])
  ∧ ∃ rest,
      files (write_status calm demo_writer open_092 demo_world).2 !! "C:/obs/roof.txt"
      = Some (join_lines (["Roof Status:" +:+ " " +:+ "OPEN"] ++ rest) +:+ nl).
Proof.
  assert (write_status_ops calm demo_writer open_092 demo_world
          = (true,
             Writer "C:/obs/roof.txt" "Roof Status:" "OPEN" "CLOSED" true true (fl64 (7 # 10))
                    (Some "2025-01-31 22:15:00") (Some "Roof Status: OPEN"),
             [OpenTrunc "C:/obs/roof.txt.tmp";
              WriteData "C:/obs/roof.txt.tmp" (build_content calm demo_writer open_092);
              Replace "C:/obs/roof.txt.tmp" "C:/obs/roof.txt"])) as Hops
    by (vm_compute; reflexivity).
  split; [exact Hops|].
  destruct (write_status_content calm demo_writer open_092 demo_world _ _ Hops)
    as (status & trigger & conf & sky & Hst & Hopen & _ & _ & Hfile & _).
  injection Hst as <-. rewrite (Hopen eq_refl) in Hfile.
  exists (conf ++ sky ++ ["Updated: " +:+ now calm]).
  unfold write_status. rewrite Hops. exact Hfile.
Defined.

Example write_status_open_092 :
  files (write_status calm demo_writer open_092 demo_world).2 !! "C:/obs/roof.txt"
  = Some (join_lines ["Roof Status: OPEN"; "Confidence: 92%";
                      "Sky Condition: Clear (87%)";
                      "Updated: 2025-01-31 22:15:00"] +:+ nl).
Proof. by vm_compute. Qed.

(** *** The module-level writer *)

(** The [ascom_safety_file] dictionary with its ['enabled'] entry. *)
Record safety_config := SafetyConfig {
  cfg_enabled : option bool;
  cfg_writer : config
}.

Definition get_last_status (w : writer) : option string := last_status w.

Definition get_last_write_time (w : writer) : option string := last_write_time w.

(** [write_ascom_safety_file]; [inst] is the global [_writer_instance]
    before the call, the second component of the result the one after. *)
Definition write_ascom_safety_file (e : env) (inst : option writer) (m : ml_results)
    (c : safety_config) (s : world) : bool * option writer * world :=
  if negb (default false (cfg_enabled c)) then (false, inst, s)
  else
    let w :=
      match inst with
      | None => init (cfg_writer c)
      | Some w =>
          if bool_decide (file_path w ≠ default "" (cfg_file_path (cfg_writer c)))
          then init (cfg_writer c) else w
      end in
    let '(b, w', s') := write_status e w m s in (b, Some w', s').

(** One call of [write_ascom_safety_file] with what the platform does
    during it. *)
Record call := Call {
  call_env : env;
  call_results : ml_results;
  call_config : safety_config
}.

(** Successive calls, threading the global instance and the file system. *)
Fixpoint calls (l : list call) (inst : option writer) (s : world) : option writer * world :=
  match l with
  | [] => (inst, s)
  | c :: l' =>
      let '(_, inst', s') :=
        write_ascom_safety_file (call_env c) inst (call_results c) (call_config c) s in
      calls l' inst' s'
  end.

(** The settings of a writer, without its bookkeeping. *)
Definition settings (w : writer) : writer :=
  Writer (file_path w) (preamble w) (open_trigger w) (closed_trigger w)
         (include_confidence w) (include_sky_condition w) (min_confidence w) None None.

(** The bookkeeping agrees with the target file: nothing recorded, or the
    recorded status line is the first line of the file. *)
Definition in_step (w : writer) (s : world) : Prop :=
  (get_last_status w = None ∧ get_last_write_time w = None)
  ∨ ∃ content t,
      files s !! file_path w = Some content
      ∧ get_last_status w = Some (first_line content)
      ∧ get_last_write_time w = Some t.

Definition strict : safety_config :=
  SafetyConfig (Some true)
    (Config (Some "C:/obs/roof.txt") None None None None None (Some (99 # 100))).

Definition lenient : safety_config :=
  SafetyConfig (Some true)
    (Config (Some "C:/obs/roof.txt") None None None None None (Some (1 # 2))).

(** The two ways [write_status] can go, for the writer and the target. *)
Lemma write_status_cases e w m s :
  ((write_status e w m s).1.1 = false
   ∧ (write_status e w m s).1.2 = w
   ∧ files (write_status e w m s).2 !! file_path w = files s !! file_path w)
  ∨ ((write_status e w m s).1.1 = true
     ∧ is_configured w = true
     ∧ (write_status e w m s).1.2
       = Writer (file_path w) (preamble w) (open_trigger w) (closed_trigger w)
                (include_confidence w) (include_sky_condition w) (min_confidence w)
                (Some (now e)) (Some (first_line (build_content e w m)))
     ∧ files (write_status e w m s).2 !! file_path w = Some (build_content e w m)).
Proof.
  unfold write_status.
  destruct (write_status_ops e w m s) as [[b w'] l] eqn:Hops. simpl.
  destruct b.
  - right. pose proof (write_status_true _ _ _ _ _ _ Hops) as (_ & Hfile & _).
    revert Hops. unfold write_status_ops.
    destruct (is_configured w); [|done]. simpl.
    destruct (String.eqb _ _); [done|].
    destruct (match roof_confidence m with Some _ => _ | None => _ end); [done|].
    unfold atomic_write.
    destruct (needs_dir e w s && makedirs_raises e); [done|].
    destruct (write_and_replace e w (build_content e w m)) as [body [|]]; [done|].
    intros [= <- <-]. done.
  - left. revert Hops. unfold write_status_ops.
    destruct (negb (is_configured w)); [by intros [= <- <-]|].
    destruct (String.eqb _ _); [by intros [= <- <-]|].
    destruct (match roof_confidence m with Some _ => _ | None => _ end);
      [by intros [= <- <-]|].
    destruct (atomic_write e w (build_content e w m) s) as [[r w1] l1] eqn:Haw.
    apply atomic_write_spec in Haw
      as [(_ & Hr & -> & Hun & _)|(_ & -> & _)]; [|done].
    intros Hres. assert (w' = w ∧ l = l1) as [-> ->].
    { destruct r as [[|]|]; by inversion Hres. }
    split_and!; [done|done|]. by apply run_ops_untouched.
Qed.
Lemma write_status_settings e w m s :
  settings (write_status e w m s).1.2 = settings w.
Proof.
  destruct (write_status_cases e w m s) as [(_ & -> & _)|(_ & _ & -> & _)]; done.
Qed.

Lemma write_status_in_step e w m s :
  in_step w s → in_step (write_status e w m s).1.2 (write_status e w m s).2.
Proof.
  intros Hstep.
  destruct (write_status_cases e w m s) as [(_ & Hw & Hfile)|(_ & _ & Hw & Hfile)].
  - rewrite Hw. destruct Hstep as [?|(content & t & Hc & Hl & Ht)]; [by left|].
    right. exists content, t. by rewrite Hfile.
  - right. exists (build_content e w m), (now e). rewrite Hw. done.
Qed.

Lemma write_ascom_safety_file_in_step e inst m c s :
  (∀ w, inst = Some w → in_step w s) →
  ∀ w', (write_ascom_safety_file e inst m c s).1.2 = Some w' →
        in_step w' (write_ascom_safety_file e inst m c s).2.
Proof.
  intros Hinst w'. unfold write_ascom_safety_file.
  destruct (negb (default false (cfg_enabled c))); [by apply Hinst|].
  set (w := match inst with None => _ | Some _ => _ end).
  assert (in_step w s) as Hw.
  { unfold w. destruct inst as [w0|]; [|by left].
    case_bool_decide; [by left|]. by apply Hinst. }
  pose proof (write_status_in_step e w m s Hw) as Hstep.
  destruct (write_status e w m s) as [[b w1] s1]. simpl in *. by intros [= <-].
Qed.

(** Once [write_ascom_safety_file] has created its writer, the settings
    of that writer stay in force for as long as the configured file path is
    the same: an enabled call leaves a writer for the configured path; when
    the instance at hand is for that path, the call is [write_status] on
    that instance, with its preamble, triggers, flags and threshold,
    whatever the configuration passed now says about them; only when there
    is no instance, or the path differs, is a writer built from the
    configuration passed. *)
Theorem write_ascom_safety_file_instance e inst m c s :
  default false (cfg_enabled c) = true →
  ∃ w', (write_ascom_safety_file e inst m c s).1.2 = Some w'
    ∧ file_path w' = default "" (cfg_file_path (cfg_writer c))
    ∧ (∀ w, inst = Some w →
         file_path w = default "" (cfg_file_path (cfg_writer c)) →
         settings w' = settings w
         ∧ (write_ascom_safety_file e inst m c s).1.1 = (write_status e w m s).1.1
         ∧ (write_ascom_safety_file e inst m c s).2 = (write_status e w m s).2)
    ∧ ((inst = None
        ∨ ∃ w, inst = Some w
               ∧ file_path w ≠ default "" (cfg_file_path (cfg_writer c))) →
       settings w' = settings (init (cfg_writer c))).
Proof.
  intros Hen. unfold write_ascom_safety_file. rewrite Hen. cbn [negb].
  set (w := match inst with None => _ | Some _ => _ end).
  assert (file_path w = default "" (cfg_file_path (cfg_writer c))) as Hpath.
  { unfold w. destruct inst as [w0|]; [|done].
    case_bool_decide as Hp; [done|]. by destruct (decide (file_path w0 = default "" (cfg_file_path (cfg_writer c)))). }
  pose proof (write_status_settings e w m s) as Hset.
  destruct (write_status e w m s) as [[b w1] s1] eqn:Hws. simpl in *.
  exists w1. split_and!; [done| | |].
  - apply (f_equal file_path) in Hset. simpl in Hset. by rewrite Hset.
  - intros w0 -> Hsame. unfold w in Hws, Hset.
    rewrite bool_decide_eq_false_2 in Hws, Hset by (by intros Hne).
    by rewrite Hws.
  - intros [->|(w0 & -> & Hne)]; unfold w in Hset; [done|].
    by rewrite bool_decide_eq_true_2 in Hset.
Qed.

(** A call that returns [False] while the writer at hand is kept (the
    bridge is disabled, or the writer is for the configured path) leaves
    the writer, with its bookkeeping, and the target file as they were. *)
Lemma write_ascom_safety_file_failed e w m c s :
  default false (cfg_enabled c) = false
  ∨ file_path w = default "" (cfg_file_path (cfg_writer c)) →
  (write_ascom_safety_file e (Some w) m c s).1.1 = false →
  (write_ascom_safety_file e (Some w) m c s).1.2 = Some w
  ∧ files (write_ascom_safety_file e (Some w) m c s).2 !! file_path w
    = files s !! file_path w.
Proof.
  unfold write_ascom_safety_file.
  destruct (default false (cfg_enabled c)) eqn:Hen; cbn [negb]; [|done].
  intros [?|Hsame]; [done|].
  rewrite bool_decide_eq_false_2 by (by intros Hne).
  destruct (write_status_cases e w m s) as [(Hb & Hw & Hfile)|(Hb & _)].
  - destruct (write_status e w m s) as [[b w1] s1]. simpl in *. by subst.
  - destruct (write_status e w m s) as [[b w1] s1]. simpl in *. intros ->. done.
Qed.

(** Over any sequence of calls of [write_ascom_safety_file], with any
    configurations and any failures of the platform: what
    [get_last_status] and [get_last_write_time] report stays in step with
    the target file.  Either both are [None], or a time is recorded and the
    recorded status is the first line of the file the writer is for.  And a
    call that returns [False] while the bridge is disabled or the writer at
    hand is for the configured path leaves that writer, with its
    bookkeeping, and the target file as they were. *)
Theorem calls_in_step l inst s :
  (∀ w, inst = Some w → in_step w s) →
  (∀ w, (calls l inst s).1 = Some w → in_step w (calls l inst s).2)
  ∧ (∀ e m c w,
       inst = Some w →
       default false (cfg_enabled c) = false
       ∨ file_path w = default "" (cfg_file_path (cfg_writer c)) →
       (write_ascom_safety_file e inst m c s).1.1 = false →
       (write_ascom_safety_file e inst m c s).1.2 = Some w
       ∧ files (write_ascom_safety_file e inst m c s).2 !! file_path w
         = files s !! file_path w).
Proof.
  intros Hinst. split.
  - revert inst s Hinst. induction l as [|c l IH]; intros inst s Hinst; [done|].
    simpl.
    pose proof (write_ascom_safety_file_in_step (call_env c) inst (call_results c)
                  (call_config c) s Hinst) as Hstep.
    destruct (write_ascom_safety_file _ _ _ _ _) as [[b inst1] s1]. simpl in Hstep.
    by apply IH.
  - intros e m c w -> Hkept. by apply write_ascom_safety_file_failed.
Qed.

(** A bridge created under the strict threshold keeps it: the later
    call passes a threshold of 0.5, and a confidence of 0.92 is still
    skipped. *)
Example write_ascom_safety_file_stale_threshold :
  (write_ascom_safety_file calm (Some (init (cfg_writer strict))) open_092 lenient
     demo_world).1.1 = false
  ∧ (write_ascom_safety_file calm None open_092 lenient demo_world).1.1 = true.
Proof. split; by vm_compute. Qed.

Lemma write_ascom_safety_file_instance_witness :
  ∃ w', (write_ascom_safety_file calm (Some (init (cfg_writer strict))) open_092 lenient
           demo_world).1.2 = Some w'
        ∧ min_confidence w' = (99 # 100)%Q.
Proof.
  destruct (write_ascom_safety_file_instance calm (Some (init (cfg_writer strict)))
              open_092 lenient demo_world eq_refl) as (w' & Hw' & _ & Hsame & _).
  exists w'. split; [exact Hw'|].
  destruct (Hsame _ eq_refl eq_refl) as [Hset _].
  by apply (f_equal min_confidence) in Hset.
Defined.

Definition two_calls : list call :=
  [ Call calm open_092 lenient;
    Call (Env "2025-01-31 22:20:00" (λ _, "C:/obs") false false (Some 4%nat) false true)
         open_092 lenient ].

Lemma calls_in_step_witness :
  in_step demo_writer demo_world
  ∧ ∃ w, (calls two_calls (Some demo_writer) demo_world).1 = Some w
         ∧ get_last_status w = Some "Roof Status: OPEN"
         ∧ in_step w (calls two_calls (Some demo_writer) demo_world).2.
Proof.
  assert (in_step demo_writer demo_world) as Hstart by (left; split; reflexivity).
  split; [exact Hstart|].
  destruct (calls two_calls (Some demo_writer) demo_world).1 as [w|] eqn:Hw;
    [|by vm_compute in Hw].
  exists w. split; [reflexivity|]. split.
  - vm_compute in Hw. by injection Hw as <-.
  - apply (calls_in_step two_calls (Some demo_writer) demo_world); [|exact Hw].
    intros w0 Hw0. by injection Hw0 as <-.
Defined.

(** A result under the threshold on the kept writer: the call returns
    [False] and nothing changes. *)
Example write_ascom_safety_file_skipped :
  write_ascom_safety_file calm (Some demo_writer) low_05 lenient demo_world
  = (false, Some demo_writer, demo_world).
Proof. by vm_compute. Qed.

(** After the two calls, the second of which fails in the middle of the
    write and cannot remove its temporary file: the status of the first
    call is reported, and it is the first line of the target. *)
Example calls_two_calls :
  get_last_status <$> (calls two_calls None demo_world).1 = Some (Some "Roof Status: OPEN")
  ∧ first_line <$> (files (calls two_calls None demo_world).2 !! "C:/obs/roof.txt")
    = Some "Roof Status: OPEN"
  ∧ files (calls two_calls None demo_world).2 !! "C:/obs/roof.txt.tmp" = Some "Roof".
Proof. split_and!; by vm_compute. Qed.

End AscomSafety.

(** ** services/ml_service.py *)

Module MLService.

(** *** Pixel buffers and their statistics *)

(** A float that may be NaN ([None]); finite values are rationals. *)
Abbreviation float := (option Q).

(** A numpy array as [analyze_image] receives it: two-dimensional,
    three-dimensional with at least one channel, or of any other rank. *)
Inductive image :=
| Gray (h w : nat) (px : nat → nat → Q)
| Multi (h w : nat) (channels : positive) (px : nat → nat → nat → Q)
| OtherRank.

(** [gray[r0:r1, c0:c1]], flattened. *)
Definition region (px : nat → nat → Q) (r0 r1 c0 c1 : nat) : list Q :=
  i ← seq r0 (r1 - r0); (λ j, px i j) <$> seq c0 (c1 - c0).

Fixpoint insert_q (x : Q) (l : list Q) : list Q :=
  match l with
  | [] => [x]
  | y :: l' => if Qle_bool x y then x :: y :: l' else y :: insert_q x l'
  end.

Definition sort_q (l : list Q) : list Q := foldr insert_q [] l.

(** [np.median] of finite values: NaN on an empty array, the middle value,
    or the mean of the two middle values. *)
Definition median (l : list Q) : float :=
  let s := sort_q l in
  let n := length s in
  if decide (n = 0%nat) then None
  else if Nat.even n
       then Some ((nth (n / 2 - 1) s 0 + nth (n / 2) s 0) / 2)%Q
       else Some (nth (n / 2) s 0%Q).

(** [np.median] of values some of which may be NaN. *)
Definition median_float (l : list float) : float :=
  match mapM id l with
  | Some vs => median vs
  | None => None
  end.

(** [gray.max()]; [None] stands for the [ValueError] on an empty array. *)
Definition array_max (l : list Q) : option Q :=
  match l with
  | [] => None
  | x :: l' => Some (foldr Qmax x l')
  end.

(** [np.mean(image_array, axis=2)] at one pixel. *)
Definition channel_mean (channels : positive) (px : nat → nat → nat → Q) (i j : nat) : Q :=
  (foldr Qplus 0 ((λ k, px i j k) <$> seq 0 (Pos.to_nat channels))
   / inject_Z (Z.pos channels))%Q.

Record corner_analysis := CornerAnalysis {
  corner_med : float;
  center_med : float;
  corner_to_center_ratio : float
}.

(** Python's [max(a, 0.001)] for a first argument that may be NaN: the
    second argument is returned only when it compares greater. *)
Definition py_max_floor (a : float) : float :=
  match a with
  | Some x => Some (if Qlt_le_dec x (1 # 1000) then 1 # 1000 else x)%Q
  | None => None
  end.

Definition float_div (a b : float) : float :=
  match a, b with
  | Some x, Some y => Some (Qred (x / y))
  | _, _ => None
  end.

(** [x:] with [x = -k] on an axis of length [n]: [-0] is [0]. *)
Definition from_end (n k : nat) : nat := if decide (k = 0%nat) then 0%nat else (n - k)%nat.

(** [if gray.max() > 1.0: gray = gray / 255.0], with [top] the maximum. *)
Definition normalize (top : Q) (gray : nat → nat → Q) : nat → nat → Q :=
  if Qlt_le_dec 1 top then (λ i j, gray i j / 255)%Q else gray.

(** The body of the [try] in [_compute_corner_analysis] once the
    grayscale array [gray] of shape [(h, w)] is there; [None] stands for an
    exception. *)
Definition analyse_gray (h w : nat) (gray : nat → nat → Q) : option corner_analysis :=
  match array_max (region gray 0 h 0 w) with
  | None => None
  | Some top =>
      let gray := normalize top gray in
      let corner_size := (Nat.min h w / 8)%nat in
      let corners :=
        [ region gray 0 corner_size 0 corner_size;
          region gray 0 corner_size (from_end w corner_size) w;
          region gray (from_end h corner_size) h 0 corner_size;
          region gray (from_end h corner_size) h (from_end w corner_size) w ] in
      let ch := (h / 4)%nat in
      let cw := (w / 4)%nat in
      let center := region gray ch (h - ch) cw (w - cw) in
      let corner_med := median_float (median <$> corners) in
      let center_med := median center in
      let ratio := float_div corner_med (py_max_floor center_med) in
      Some (CornerAnalysis (Qred <$> corner_med) (Qred <$> center_med) ratio)
  end.

Definition corner_defaults : corner_analysis :=
  CornerAnalysis (Some 0%Q) (Some 0%Q) (Some 1%Q).

(** [MLService._compute_corner_analysis] *)
Definition compute_corner_analysis (image_array : image) : corner_analysis :=
  default corner_defaults
    match image_array with
    | Multi h w channels px => analyse_gray h w (channel_mean channels px)
    | Gray h w px => analyse_gray h w px
    | OtherRank => None
    end.

(** *** Normalisation *)

Lemma region_elem gray r0 r1 c0 c1 i j :
  (r0 ≤ i < r1)%nat → (c0 ≤ j < c1)%nat → gray i j ∈ region gray r0 r1 c0 c1.
Proof.
  intros Hi Hj. unfold region. apply list_elem_of_bind. exists i. split.
  - apply list_elem_of_fmap. exists j. split; [done|]. apply elem_of_seq. lia.
  - apply elem_of_seq. lia.
Qed.

Lemma foldr_Qmax_ge (l : list Q) (x0 x : Q) :
  x = x0 ∨ x ∈ l → (x <= foldr Qmax x0 l)%Q.
Proof.
  induction l as [|y l IH]; simpl.
  - intros [->|Hx]; [apply Qle_refl|by apply elem_of_nil in Hx].
  - intros [->|Hx].
    + eapply Qle_trans; [apply IH; by left|apply Q.le_max_r].
    + apply elem_of_cons in Hx as [->|Hx].
      * apply Q.le_max_l.
      * eapply Qle_trans; [apply IH; by right|apply Q.le_max_r].
Qed.

Lemma array_max_ge l top x : array_max l = Some top → x ∈ l → (x <= top)%Q.
Proof.
  destruct l as [|y l]; simpl; [done|]. intros [= <-] Hx.
  apply foldr_Qmax_ge. apply elem_of_cons in Hx. tauto.
Qed.

(** For a buffer in the eight-bit range the normalised values lie in
    [0, 1]. *)
Lemma normalize_eight_bit h w gray top i j :
  array_max (region gray 0 h 0 w) = Some top →
  (∀ i j, 0 <= gray i j ∧ gray i j <= 255)%Q →
  (i < h)%nat → (j < w)%nat →
  (0 <= normalize top gray i j ∧ normalize top gray i j <= 1)%Q.
Proof.
  intros Htop Hrange Hi Hj. unfold normalize.
  destruct (Hrange i j) as [Hlo Hhi].
  destruct (Qlt_le_dec 1 top) as [Hgt|Hle].
  - split.
    + apply Qle_shift_div_l; [reflexivity|]. by rewrite Qmult_0_l.
    + apply Qle_shift_div_r; [reflexivity|]. by rewrite Qmult_1_l.
  - split; [done|]. eapply Qle_trans; [|exact Hle].
    eapply array_max_ge; [exact Htop|]. apply region_elem; lia.
Qed.

Lemma normalize_eight_bit_witness :
  (0 <= normalize 200 (λ _ _, 200) 3%nat 5%nat
   ∧ normalize 200 (λ _ _, 200) 3%nat 5%nat <= 1)%Q.
Proof.
  apply (normalize_eight_bit 8 8 (λ _ _, 200%Q) 200%Q 3 5).
  - vm_compute. reflexivity.
  - intros _ _. split; discriminate.
  - lia.
  - lia.
Defined.

(** C8 at a failing input: an 8x8 sixteen-bit buffer with every pixel at
    65535.  The maximum exceeds 1, the buffer is divided by 255, and the
    medians of the "normalised" buffer are 257, outside [0, 1]. *)
Theorem compute_corner_analysis_sixteen_bit :
  compute_corner_analysis (Gray 8 8 (λ _ _, 65535%Q))
  = CornerAnalysis (Some 257%Q) (Some 257%Q) (Some 1%Q)
  ∧ normalize 65535 (λ _ _, 65535%Q) 0%nat 0%nat == 257
  ∧ ¬ (257 <= 1)%Q.
Proof.
  split_and!; [by vm_compute|by vm_compute|]. intros Hle. by apply Hle.
Qed.

(** The same buffer in the eight-bit range. *)
Example compute_corner_analysis_eight_bit :
  compute_corner_analysis (Gray 16 16 (λ i j, inject_Z (Z.of_nat (i * j))))
  = CornerAnalysis (Some (7 # 255)) (Some (52 # 255)) (Some (7 # 52)).
Proof. by vm_compute. Qed.

(** Below eight pixels on a side the corner size is 0 and the slice
    [-0:] is the whole axis: three corners are empty, their median is NaN,
    and so are the corner median and the ratio. *)
Example compute_corner_analysis_tiny :
  compute_corner_analysis (Gray 4 4 (λ _ _, 200%Q))
  = CornerAnalysis None (Some (40 # 51)) None.
Proof. by vm_compute. Qed.

(** *** The analysis *)

(** The values stored in the result dictionary. *)
Inductive value :=
| VNone
| VStr (s : string)
| VNum (q : Q)
| VBool (b : bool).

(** [MLService._compute_time_context] at local hour [hour]. *)
Record time_context := TimeContext { tc_hour : Z; is_astronomical_night : bool }.

Definition compute_time_context (hour : Z) : time_context :=
  TimeContext hour (bool_decide (hour < 6)%Z || bool_decide (20 ≤ hour)%Z).

(** The metadata handed to the two predictors ([moon_illumination] and
    [moon_is_up] of the sky metadata are the constants 0.0 and False). *)
Record meta := Meta {
  m_corner_to_center_ratio : float;
  m_median_lum : float;
  m_is_astronomical_night : bool;
  m_hour : Z
}.

Definition meta_of (image_array : image) (hour : Z) : meta :=
  let corner := compute_corner_analysis image_array in
  let time := compute_time_context hour in
  Meta (corner_to_center_ratio corner) (center_med corner)
       (is_astronomical_night time) (tc_hour time).

(** What [predict] hands back: the truth value of [roof_open], and the
    confidence when [float] accepts it ([None]: [float] raises). *)
Record roof_result := RoofResult {
  roof_open : bool;
  confidence : option Q
}.

(** The attributes of a sky result; a numeric attribute is [None] when
    [float] raises on it. *)
Record sky_result := SkyResult {
  sky_condition : value;
  sky_confidence : option Q;
  stars_visible : value;
  star_density : option Q;
  moon_visible : value
}.

(** A loaded model: [None] stands for an exception raised by [predict]. *)
Definition roof_predictor := image → meta → option roof_result.
Definition sky_predictor := image → meta → option sky_result.

Record service := Service {
  roof_classifier : option roof_predictor;
  sky_classifier : option sky_predictor;
  last_results : gmap string value
}.

(** The [config] dictionary: an absent key ([None]) counts as enabled. *)
Record ml_config := MlConfig {
  cfg_roof_classifier : option bool;
  cfg_sky_classifier : option bool
}.

Definition initial_results : gmap string value :=
  <["moon_visible" := VNone]>
  (<["star_density" := VNone]>
  (<["stars_visible" := VNone]>
  (<["sky_confidence" := VNone]>
  (<["sky_condition" := VStr "N/A"]>
  (<["roof_confidence" := VNone]>
  (<["roof_status" := VStr "N/A"]> ∅)))))).

(** The roof block: the assignments made before an exception stay. *)
Definition roof_step (svc : service) (config : ml_config) (image_array : image)
    (hour : Z) (results : gmap string value) : gmap string value :=
  if default true (cfg_roof_classifier config) then
    match roof_classifier svc with
    | Some model =>
        match model image_array (meta_of image_array hour) with
        | Some r =>
            let results :=
              <["roof_status" := VStr (if roof_open r then "Open" else "Closed")]> results in
            match confidence r with
            | Some c => <["roof_confidence" := VNum (round3 c)]> results
            | None => results
            end
        | None => results
        end
    | None => results
    end
  else results.

(** [results[key] == s] *)
Definition str_equal (v : option value) (s : string) : bool :=
  match v with
  | Some (VStr s') => String.eqb s' s
  | _ => false
  end.

(** The sky block, entered only when the roof status is 'Open'. *)
Definition sky_step (svc : service) (config : ml_config) (image_array : image)
    (hour : Z) (results : gmap string value) : gmap string value :=
  if default true (cfg_sky_classifier config)
     && str_equal (results !! "roof_status") "Open" then
    match sky_classifier svc with
    | Some model =>
        match model image_array (meta_of image_array hour) with
        | Some r =>
            let results := <["sky_condition" := sky_condition r]> results in
            match sky_confidence r with
            | Some c =>
                let results := <["sky_confidence" := VNum (round3 c)]> results in
                let results := <["stars_visible" := stars_visible r]> results in
                match star_density r with
                | Some d =>
                    let results := <["star_density" := VNum (round3 d)]> results in
                    <["moon_visible" := moon_visible r]> results
                | None => results
                end
            | None => results
            end
        | None => results
        end
    | None => results
    end
  else results.

(** [MLService.analyze_image]: the returned dictionary and the service
    with its cache. *)
Definition analyze_image (svc : service) (image_array : image) (config : ml_config)
    (hour : Z) : gmap string value * service :=
  let results := roof_step svc config image_array hour initial_results in
  let results := sky_step svc config image_array hour results in
  (results, Service (roof_classifier svc) (sky_classifier svc) results).


(** *** Shape of the result *)






(** The roof block writes the two roof entries only. *)
Lemma roof_step_other svc config image_array hour results k :
  k ≠ "roof_status" → k ≠ "roof_confidence" →
  roof_step svc config image_array hour results !! k = results !! k.
Proof.
  intros H1 H2. unfold roof_step.
  destruct (default true (cfg_roof_classifier config)); [|done].
  destruct (roof_classifier svc) as [model|]; [|done].
  destruct (model image_array _) as [r|]; [|done].
  destruct (confidence r); by rewrite ?lookup_insert_ne.
Qed.

(** The sky block leaves the two roof entries alone. *)
Lemma sky_step_roof svc config image_array hour results k :
  k = "roof_status" ∨ k = "roof_confidence" →
  sky_step svc config image_array hour results !! k = results !! k.
Proof.
  intros Hk. unfold sky_step.
  destruct (_ && _); [|done].
  destruct (sky_classifier svc) as [model|]; [|done].
  destruct (model image_array _) as [r|]; [|done].
  destruct (sky_confidence r); [destruct (star_density r)|];
    destruct Hk as [-> | ->]; by rewrite ?lookup_insert_ne.
Qed.

(** Without an 'Open' roof status the sky block does nothing. *)
Lemma sky_step_closed svc config image_array hour results :
  str_equal (results !! "roof_status") "Open" = false →
  sky_step svc config image_array hour results = results.
Proof. intros Hc. unfold sky_step. by rewrite Hc, andb_false_r. Qed.



Lemma roof_step_unavailable svc config image_array hour results :
  roof_classifier svc = None
  ∨ (∃ model, roof_classifier svc = Some model
              ∧ model image_array (meta_of image_array hour) = None) →
  roof_step svc config image_array hour results = results.
Proof.
  unfold roof_step. intros [Hnone|(model & Hm & Hthrow)].
  - rewrite Hnone. by destruct (default true _).
  - rewrite Hm, Hthrow. by destruct (default true _).
Qed.





(** A roof model that reports an open roof without a usable confidence,
    and a sky model that raises. *)
Example analyze_image_partial :
  (analyze_image
     (Service (Some (λ _ _, Some (RoofResult true None))) (Some (λ _ _, None)) ∅)
     (Gray 8 8 (λ _ _, 100%Q)) (MlConfig None None) 23).1
  = <["roof_status" := VStr "Open"]> initial_results.
Proof. by vm_compute. Qed.

(** *** Loading the models *)

(** How a step inside the [try] of a loader ends: normally, with an
    [ImportError], or with another exception; [e] is the exception's
    text. *)
Inductive attempt (A : Type) :=
| Done (a : A)
| ImportError (e : string)
| OtherError (e : string).

Arguments Done {A} a.
Arguments ImportError {A} e.
Arguments OtherError {A} e.

(** What the platform offers when the models are loaded: whether the two
    classifier modules import, which model files exist, and what
    [RoofClassifier.load] and [SkyClassifier.load] do on a model file, given
    by its name. *)
Record loader_env := LoaderEnv {
  import_roof : attempt unit;
  roof_pth_exists : bool;
  roof_onnx_exists : bool;
  roof_load : string → attempt roof_predictor;
  import_sky : attempt unit;
  sky_pth_exists : bool;
  sky_load : string → attempt sky_predictor
}.

(** The service object with the attributes that loading sets. *)
Record ml_state := MlState {
  svc : service;
  roof_error : option string;
  sky_error : option string;
  models_loaded : bool
}.

(** [MLService.__init__] *)
Definition fresh : ml_state := MlState (Service None None ∅) None None false.

Definition fail_roof (st : ml_state) (msg : string) : bool * ml_state :=
  (false, MlState (svc st) (Some msg) (sky_error st) (models_loaded st)).

Definition fail_sky (st : ml_state) (msg : string) : bool * ml_state :=
  (false, MlState (svc st) (roof_error st) (Some msg) (models_loaded st)).

(** The first of the two roof model files that exists. *)
Definition roof_model_path (e : loader_env) : option string :=
  if roof_pth_exists e then Some "roof_classifier_v1.pth"
  else if roof_onnx_exists e then Some "roof_classifier_v1.onnx"
  else None.

(** [MLService._init_roof_classifier] *)
Definition init_roof_classifier (e : loader_env) (st : ml_state) : bool * ml_state :=
  match roof_classifier (svc st), roof_error st with
  | Some _, _ => (true, st)
  | None, Some _ => (false, st)
  | None, None =>
      match import_roof e with
      | ImportError x => fail_roof st ("Import error: " +:+ x)
      | OtherError x => fail_roof st ("Load error: " +:+ x)
      | Done _ =>
          match roof_model_path e with
          | None => fail_roof st "Roof model file not found"
          | Some model_path =>
              match roof_load e model_path with
              | Done model =>
                  (true,
                   MlState (Service (Some model) (sky_classifier (svc st))
                                    (last_results (svc st)))
                           (roof_error st) (sky_error st) (models_loaded st))
              | ImportError x => fail_roof st ("Import error: " +:+ x)
              | OtherError x => fail_roof st ("Load error: " +:+ x)
              end
          end
      end
  end.

(** [MLService._init_sky_classifier] *)
Definition init_sky_classifier (e : loader_env) (st : ml_state) : bool * ml_state :=
  match sky_classifier (svc st), sky_error st with
  | Some _, _ => (true, st)
  | None, Some _ => (false, st)
  | None, None =>
      match import_sky e with
      | ImportError x => fail_sky st ("Import error: " +:+ x)
      | OtherError x => fail_sky st ("Load error: " +:+ x)
      | Done _ =>
          if negb (sky_pth_exists e) then fail_sky st "Sky model file not found"
          else
            match sky_load e "sky_classifier_v1.pth" with
            | Done model =>
                (true,
                 MlState (Service (roof_classifier (svc st)) (Some model)
                                  (last_results (svc st)))
                         (roof_error st) (sky_error st) (models_loaded st))
            | ImportError x => fail_sky st ("Import error: " +:+ x)
            | OtherError x => fail_sky st ("Load error: " +:+ x)
            end
      end
  end.

(** [MLService.initialize] *)
Definition initialize (e : loader_env) (st : ml_state) : bool * ml_state :=
  let '(roof_ok, st) := init_roof_classifier e st in
  let '(sky_ok, st) := init_sky_classifier e st in
  (roof_ok || sky_ok,
   MlState (svc st) (roof_error st) (sky_error st) (roof_ok || sky_ok)).

(** [MLService.is_available] *)
Definition is_available (s : service) : bool :=
  bool_decide (is_Some (roof_classifier s)) || bool_decide (is_Some (sky_classifier s)).

(** No model file on disk. *)
Definition bare : loader_env :=
  LoaderEnv (Done ()) false false (λ _, OtherError "unreadable")
            (Done ()) false (λ _, OtherError "unreadable").

(** Both roof model files on disk, each loading a model that names its
    file in the confidence it reports. *)
Definition stocked : loader_env :=
  LoaderEnv (Done ()) true true
            (λ p, Done (λ _ _, Some (RoofResult true
                                       (Some (if String.eqb p "roof_classifier_v1.pth"
                                              then 1 else 0)%Q))))
            (ImportError "No module named 'torch'") true (λ _, OtherError "unreadable").

Ltac loader_case Hno := split_and!; eauto; apply Hno.

Lemma init_roof_classifier_spec e st :
  (init_roof_classifier e st).1 = bool_decide (is_Some (roof_classifier (svc (init_roof_classifier e st).2)))
  ∧ (is_Some (roof_classifier (svc (init_roof_classifier e st).2))
     ∨ is_Some (roof_error (init_roof_classifier e st).2))
  ∧ sky_classifier (svc (init_roof_classifier e st).2) = sky_classifier (svc st)
  ∧ sky_error (init_roof_classifier e st).2 = sky_error st
  ∧ last_results (svc (init_roof_classifier e st).2) = last_results (svc st)
  ∧ (is_Some (roof_classifier (svc st)) ∨ is_Some (roof_error st) →
     (init_roof_classifier e st).2 = st)
  ∧ (roof_classifier (svc st) = None ∨ roof_error st = None →
     roof_classifier (svc (init_roof_classifier e st).2) = None
     ∨ roof_error (init_roof_classifier e st).2 = None).
Proof.
  unfold init_roof_classifier, fail_roof.
  destruct (roof_classifier (svc st)) as [model|] eqn:Hc.
  { simpl. rewrite Hc. split_and!; eauto. }
  destruct (roof_error st) as [msg|] eqn:He.
  { simpl. rewrite Hc, He. split_and!; eauto. }
  assert (∀ P : Prop, is_Some (@None roof_predictor) ∨ is_Some (@None string) → P) as Hno.
  { intros P [[? ?]|[? ?]]; done. }
  destruct (import_roof e); simpl; rewrite ?Hc; [|loader_case Hno..].
  destruct (roof_model_path e); simpl; rewrite ?Hc; [|loader_case Hno].
  destruct (roof_load e _); simpl; rewrite ?Hc; loader_case Hno.
Qed.

Lemma init_sky_classifier_spec e st :
  (init_sky_classifier e st).1 = bool_decide (is_Some (sky_classifier (svc (init_sky_classifier e st).2)))
  ∧ (is_Some (sky_classifier (svc (init_sky_classifier e st).2))
     ∨ is_Some (sky_error (init_sky_classifier e st).2))
  ∧ roof_classifier (svc (init_sky_classifier e st).2) = roof_classifier (svc st)
  ∧ roof_error (init_sky_classifier e st).2 = roof_error st
  ∧ last_results (svc (init_sky_classifier e st).2) = last_results (svc st)
  ∧ (is_Some (sky_classifier (svc st)) ∨ is_Some (sky_error st) →
     (init_sky_classifier e st).2 = st)
  ∧ (sky_classifier (svc st) = None ∨ sky_error st = None →
     sky_classifier (svc (init_sky_classifier e st).2) = None
     ∨ sky_error (init_sky_classifier e st).2 = None).
Proof.
  unfold init_sky_classifier, fail_sky.
  destruct (sky_classifier (svc st)) as [model|] eqn:Hc.
  { simpl. rewrite Hc. split_and!; eauto. }
  destruct (sky_error st) as [msg|] eqn:He.
  { simpl. rewrite Hc, He. split_and!; eauto. }
  assert (∀ P : Prop, is_Some (@None sky_predictor) ∨ is_Some (@None string) → P) as Hno.
  { intros P [[? ?]|[? ?]]; done. }
  destruct (import_sky e); simpl; rewrite ?Hc; [|loader_case Hno..].
  destruct (negb (sky_pth_exists e)); simpl; rewrite ?Hc; [loader_case Hno|].
  destruct (sky_load e _); simpl; rewrite ?Hc; loader_case Hno.
Qed.
(** A model load is attempted once.  After [initialize], each of the two
    models is loaded or has its error recorded, the returned flag and
    [_models_loaded] say whether a model is available; and a further
    [initialize], whatever is on disk by then, consults nothing: it returns
    the same flag and leaves the service as it is.  A load that failed is
    not tried again, and a loaded model is not loaded again. *)
Theorem initialize_settles e e' st :
  initialize e' (initialize e st).2 = initialize e st
  ∧ (initialize e st).1 = is_available (svc (initialize e st).2)
  ∧ models_loaded (initialize e st).2 = (initialize e st).1
  ∧ (is_Some (roof_classifier (svc (initialize e st).2))
     ∨ is_Some (roof_error (initialize e st).2))
  ∧ (is_Some (sky_classifier (svc (initialize e st).2))
     ∨ is_Some (sky_error (initialize e st).2))
  ∧ last_results (svc (initialize e st).2) = last_results (svc st).
Proof.
  unfold initialize.
  destruct (init_roof_classifier_spec e st) as (Hr1 & Hr2 & Hr3 & Hr4 & Hr5 & _).
  destruct (init_roof_classifier e st) as [roof_ok st1]. simpl in *.
  destruct (init_sky_classifier_spec e st1) as (Hs1 & Hs2 & Hs3 & Hs4 & Hs5 & _).
  destruct (init_sky_classifier e st1) as [sky_ok st2]. simpl in *.
  set (st3 := MlState (svc st2) (roof_error st2) (sky_error st2) (roof_ok || sky_ok)).
  assert (is_Some (roof_classifier (svc st3)) ∨ is_Some (roof_error st3)) as Hroof.
  { simpl. by rewrite Hs3, Hs4. }
  destruct (init_roof_classifier_spec e' st3) as (Hr1' & _ & _ & _ & _ & Hr6' & _).
  specialize (Hr6' Hroof).
  destruct (init_roof_classifier e' st3) as [roof_ok' st4]. simpl in *. subst st4.
  destruct (init_sky_classifier_spec e' st3) as (Hs1' & _ & _ & _ & _ & Hs6' & _).
  specialize (Hs6' Hs2).
  destruct (init_sky_classifier e' st3) as [sky_ok' st5]. simpl in *. subst st5.
  simpl in *. rewrite Hs3 in Hr1'.
  split_and!.
  - by rewrite Hr1', Hs1', <- Hr1, <- Hs1.
  - unfold is_available. by rewrite Hs3, <- Hr1, <- Hs1.
  - done.
  - by rewrite Hs3, Hs4.
  - done.
  - by rewrite Hs5.
Qed.

(** A service created and initialised, over any number of [initialize]
    calls: a model and its error are never both set. *)
Theorem initialize_exclusive e st :
  (roof_classifier (svc st) = None ∨ roof_error st = None) →
  (sky_classifier (svc st) = None ∨ sky_error st = None) →
  (roof_classifier (svc (initialize e st).2) = None
   ∨ roof_error (initialize e st).2 = None)
  ∧ (sky_classifier (svc (initialize e st).2) = None
     ∨ sky_error (initialize e st).2 = None).
Proof.
  intros Hroof Hsky. unfold initialize.
  destruct (init_roof_classifier_spec e st) as (_ & _ & Hr3 & Hr4 & _ & _ & Hr7).
  specialize (Hr7 Hroof).
  destruct (init_roof_classifier e st) as [roof_ok st1]. simpl in *.
  destruct (init_sky_classifier_spec e st1) as (_ & _ & Hs3 & Hs4 & _ & _ & Hs7).
  rewrite Hr3, Hr4 in Hs7. specialize (Hs7 Hsky).
  destruct (init_sky_classifier e st1) as [sky_ok st2]. simpl in *.
  by rewrite Hs3, Hs4.
Qed.

Lemma initialize_exclusive_witness :
  (roof_classifier (svc (initialize stocked fresh).2) = None
   ∨ roof_error (initialize stocked fresh).2 = None)
  ∧ (sky_classifier (svc (initialize stocked fresh).2) = None
     ∨ sky_error (initialize stocked fresh).2 = None).
Proof. apply (initialize_exclusive stocked fresh); left; reflexivity. Defined.

(** The model files appear after a first [initialize] found none: the
    recorded errors stay and nothing is loaded. *)
Example initialize_not_retried :
  (initialize stocked (initialize bare fresh).2).1 = false
  ∧ roof_error (initialize stocked (initialize bare fresh).2).2
    = Some "Roof model file not found"
  ∧ sky_error (initialize stocked (initialize bare fresh).2).2
    = Some "Sky model file not found".
Proof. split_and!; reflexivity. Qed.

(** With both roof model files on disk the .pth file is the one loaded;
    the sky module does not import. *)
Example initialize_prefers_pth :
  (initialize stocked fresh).1 = true
  ∧ (roof_classifier (svc (initialize stocked fresh).2)
       ≫= λ model, model OtherRank (meta_of OtherRank 0))
    = Some (RoofResult true (Some 1%Q))
  ∧ sky_error (initialize stocked fresh).2
    = Some "Import error: No module named 'torch'".
Proof. split_and!; reflexivity. Qed.
(** *** The roof gate *)

Lemma roof_step_status svc config image_array hour :
  (roof_step svc config image_array hour initial_results !! "roof_status"
     = Some (VStr "N/A")
   ∧ roof_step svc config image_array hour initial_results = initial_results)
  ∨ (∃ r model,
       default true (cfg_roof_classifier config) = true
       ∧ roof_classifier svc = Some model
       ∧ model image_array (meta_of image_array hour) = Some r
       ∧ roof_step svc config image_array hour initial_results !! "roof_status"
         = Some (VStr (if roof_open r then "Open" else "Closed"))
       ∧ roof_step svc config image_array hour initial_results !! "roof_confidence"
         = Some (from_option (λ c, VNum (round3 c)) VNone (confidence r))).
Proof.
  unfold roof_step.
  destruct (default true (cfg_roof_classifier config)); [|by left].
  destruct (roof_classifier svc) as [model|]; [|by left].
  destruct (model image_array _) as [r|] eqn:Hr; [|by left].
  right. exists r, model. split_and!; [done..| |].
  - destruct (confidence r); [rewrite lookup_insert_ne by done|];
      by rewrite lookup_insert_eq.
  - destruct (confidence r); simpl; [by rewrite lookup_insert_eq|].
    by rewrite lookup_insert_ne.
Qed.

(** Unless the roof block has stored 'Open', the result is what the roof
    block left, with the five sky entries at their defaults. *)
Lemma analyze_image_not_open svc image_array config hour :
  (analyze_image svc image_array config hour).1 !! "roof_status" ≠ Some (VStr "Open") →
  (analyze_image svc image_array config hour).1
    = roof_step svc config image_array hour initial_results
  ∧ (analyze_image svc image_array config hour).1 !! "sky_condition" = Some (VStr "N/A")
  ∧ (analyze_image svc image_array config hour).1 !! "sky_confidence" = Some VNone
  ∧ (analyze_image svc image_array config hour).1 !! "stars_visible" = Some VNone
  ∧ (analyze_image svc image_array config hour).1 !! "star_density" = Some VNone
  ∧ (analyze_image svc image_array config hour).1 !! "moon_visible" = Some VNone.
Proof.
  unfold analyze_image. simpl. rewrite sky_step_roof by (by left). intros Hnot.
  assert (str_equal (roof_step svc config image_array hour initial_results
                       !! "roof_status") "Open" = false) as Hclosed.
  { destruct (roof_step_status svc config image_array hour)
      as [[Hna _]|(r & model & _ & _ & _ & Hst & _)].
    - by rewrite Hna.
    - rewrite Hst in Hnot |- *. by destruct (roof_open r). }
  rewrite sky_step_closed by done.
  split_and!; [done|by rewrite roof_step_other..].
Qed.

(** The sky classifier depends on the roof classifier.  The roof status
    of a result is 'N/A', 'Open' or 'Closed'; with 'N/A' there is no roof
    confidence; unless the status is 'Open' the five sky entries keep their
    defaults, whatever sky model is loaded; and switching the roof
    classifier off in the configuration switches the sky classifier off
    with it: the result is the dictionary of defaults. *)
Theorem analyze_image_sky_needs_open_roof svc image_array config hour :
  ((analyze_image svc image_array config hour).1 !! "roof_status" = Some (VStr "N/A")
   ∨ (analyze_image svc image_array config hour).1 !! "roof_status" = Some (VStr "Open")
   ∨ (analyze_image svc image_array config hour).1 !! "roof_status" = Some (VStr "Closed"))
  ∧ ((analyze_image svc image_array config hour).1 !! "roof_status" = Some (VStr "N/A") →
     (analyze_image svc image_array config hour).1 = initial_results)
  ∧ ((analyze_image svc image_array config hour).1 !! "roof_status" ≠ Some (VStr "Open") →
     (analyze_image svc image_array config hour).1 !! "sky_condition" = Some (VStr "N/A")
     ∧ (analyze_image svc image_array config hour).1 !! "sky_confidence" = Some VNone
     ∧ (analyze_image svc image_array config hour).1 !! "stars_visible" = Some VNone
     ∧ (analyze_image svc image_array config hour).1 !! "star_density" = Some VNone
     ∧ (analyze_image svc image_array config hour).1 !! "moon_visible" = Some VNone)
  ∧ (cfg_roof_classifier config = Some false →
     (analyze_image svc image_array config hour).1 = initial_results).
Proof.
  assert ((analyze_image svc image_array config hour).1 !! "roof_status"
          = roof_step svc config image_array hour initial_results !! "roof_status") as Hst.
  { unfold analyze_image. simpl. by rewrite sky_step_roof by (by left). }
  split_and!.
  - rewrite Hst.
    destruct (roof_step_status svc config image_array hour)
      as [[Hna _]|(r & model & _ & _ & _ & Hr & _)]; [by left|].
    rewrite Hr. destruct (roof_open r); auto.
  - intros Hna.
    destruct (analyze_image_not_open svc image_array config hour) as [Heq _].
    { by rewrite Hna. }
    rewrite Heq.
    destruct (roof_step_status svc config image_array hour)
      as [[_ Hinit]|(r & model & _ & _ & _ & Hr & _)]; [done|].
    rewrite Hst, Hr in Hna. by destruct (roof_open r).
  - intros Hnot.
    by destruct (analyze_image_not_open svc image_array config hour Hnot) as [_ ?].
  - intros Hoff.
    assert (roof_step svc config image_array hour initial_results = initial_results)
      as Hinit.
    { unfold roof_step. by rewrite Hoff. }
    destruct (analyze_image_not_open svc image_array config hour) as [Heq _].
    { by rewrite Hst, Hinit. }
    by rewrite Heq.
Qed.

(** A sky model that always answers, behind a roof model that reports a
    closed roof. *)
Definition closed_roof : service :=
  Service (Some (λ _ _, Some (RoofResult false (Some (987654 # 1000000)))))
          (Some (λ _ _, Some (SkyResult (VStr "Clear") (Some 1%Q) (VBool true)
                                        (Some 1%Q) (VBool false))))
          ∅.

Example analyze_image_closed_roof :
  (analyze_image closed_roof (Gray 8 8 (λ _ _, 100%Q)) (MlConfig None None) 23).1
  = <["roof_confidence" := VNum (247 # 250)]>
      (<["roof_status" := VStr "Closed"]> initial_results).
Proof. by vm_compute. Qed.

(** *** Small images *)

Lemma region_nonempty gray h w :
  (0 < h)%nat → (0 < w)%nat → region gray 0 h 0 w ≠ [].
Proof.
  intros Hh Hw Hnil.
  assert (gray 0%nat 0%nat ∈ region gray 0 h 0 w) as Hin by (apply region_elem; lia).
  rewrite Hnil in Hin. by apply elem_of_nil in Hin.
Qed.

Lemma region_empty gray h w : h = 0%nat ∨ w = 0%nat → region gray 0 h 0 w = [].
Proof.
  unfold region. intros [-> | ->]; [done|]. simpl.
  induction (seq 0 (h - 0)) as [|i l IH]; [done|]. by simpl.
Qed.

(** Images too small for the corner regions.  With a side of fewer than
    eight pixels [corner_size] is 0 and three of the four corner slices are
    empty, so that the corner median and the ratio are NaN, not the
    defaults; an image without pixels makes [gray.max()] raise and gives
    the defaults. *)
Theorem compute_corner_analysis_small h w px :
  (Nat.min h w < 8)%nat →
  (h = 0%nat ∨ w = 0%nat → compute_corner_analysis (Gray h w px) = corner_defaults)
  ∧ ((0 < h)%nat → (0 < w)%nat →
     corner_med (compute_corner_analysis (Gray h w px)) = None
     ∧ corner_to_center_ratio (compute_corner_analysis (Gray h w px)) = None).
Proof.
  intros Hsmall. unfold compute_corner_analysis, analyse_gray. split.
  - intros Hzero. by rewrite (region_empty px h w Hzero).
  - intros Hh Hw. pose proof (region_nonempty px h w Hh Hw) as Hne.
    destruct (region px 0 h 0 w) as [|x l] eqn:Hreg; [done|].
    rewrite (Nat.div_small (Nat.min h w) 8) by done. simpl. done.
Qed.

Lemma compute_corner_analysis_small_witness :
  corner_med (compute_corner_analysis (Gray 7 100 (λ i j, inject_Z (Z.of_nat (i + j))))) = None
  ∧ corner_to_center_ratio
      (compute_corner_analysis (Gray 7 100 (λ i j, inject_Z (Z.of_nat (i + j))))) = None.
Proof.
  apply (compute_corner_analysis_small 7 100 (λ i j, inject_Z (Z.of_nat (i + j))));
    [vm_compute; lia|lia|lia].
Defined.
(** *** Overlay tokens *)

(** The text conversions that [analyze_image_for_tokens] applies:
    [percent c] is [str(int(c * 100))], [two_places d] is
    [format(d, '.2f')], and [str v] is the text of a result entry in an
    f-string.  They act on floats and are taken as given. *)
Record formats := Formats {
  percent : Q → string;
  two_places : Q → string;
  str : value → string
}.

(** The returned dictionary.  The first two entries are a formatted text
    or the result entry itself. *)
Record tokens := Tokens {
  ROOF_STATUS : value;
  SKY_CONDITION : value;
  STARS_VISIBLE : string;
  STAR_DENSITY : string
}.

(** The truth value of a result entry. *)
Definition truthy (v : value) : bool :=
  match v with
  | VNone => false
  | VStr s => negb (String.eqb s "")
  | VNum q => negb (Qeq_bool q 0)
  | VBool b => b
  end.

(** [f"{results[label]} ({pct}%)"] when [results[conf]] is a number,
    [results[label]] when it is [None]. *)
Definition with_percent (f : formats) (label conf : value) : value :=
  match conf with
  | VNum c => VStr (str f label +:+ " (" +:+ percent f c +:+ "%)")
  | _ => label
  end.

Definition density_token (f : formats) (density : value) : string :=
  match density with
  | VNum d =>
      (if Qlt_le_dec (6 # 10) d then "High"
       else if Qlt_le_dec (3 # 10) d then "Medium"
       else "Low") +:+ " (" +:+ two_places f d +:+ ")"
  | _ => "N/A"
  end.

(** [analyze_image_for_tokens] on the global service [ml]: the tokens and
    the service afterwards.  The confidences and the density of a result
    are [None] or numbers. *)
Definition analyze_image_for_tokens (f : formats) (ml : service) (image_array : image)
    (config : ml_config) (hour : Z) : tokens * service :=
  if negb (is_available ml)
  then (Tokens (VStr "N/A") (VStr "N/A") "N/A" "N/A", ml)
  else
    let '(results, ml) := analyze_image ml image_array config hour in
    let entry k := default VNone (results !! k) in
    (Tokens
       (with_percent f (entry "roof_status") (entry "roof_confidence"))
       (with_percent f (entry "sky_condition") (entry "sky_confidence"))
       (match entry "stars_visible" with
        | VNone => "N/A"
        | v => if truthy v then "Yes" else "No"
        end)
       (density_token f (entry "star_density")),
     ml).

(** The three sky tokens need an open roof: unless the analysis reports
    the roof 'Open', 'SKY_CONDITION', 'STARS_VISIBLE' and 'STAR_DENSITY' are
    all 'N/A', whatever sky model is loaded; and without a roof model, or
    with the roof classifier switched off, all four tokens are 'N/A'. *)
Theorem analyze_image_for_tokens_needs_open_roof f ml image_array config hour :
  ((analyze_image ml image_array config hour).1 !! "roof_status" ≠ Some (VStr "Open") →
   SKY_CONDITION (analyze_image_for_tokens f ml image_array config hour).1 = VStr "N/A"
   ∧ STARS_VISIBLE (analyze_image_for_tokens f ml image_array config hour).1 = "N/A"
   ∧ STAR_DENSITY (analyze_image_for_tokens f ml image_array config hour).1 = "N/A")
  ∧ (roof_classifier ml = None ∨ cfg_roof_classifier config = Some false →
     (analyze_image_for_tokens f ml image_array config hour).1
     = Tokens (VStr "N/A") (VStr "N/A") "N/A" "N/A").
Proof.
  assert ((analyze_image ml image_array config hour).1 !! "roof_status"
            ≠ Some (VStr "Open") →
          SKY_CONDITION (analyze_image_for_tokens f ml image_array config hour).1
            = VStr "N/A"
          ∧ STARS_VISIBLE (analyze_image_for_tokens f ml image_array config hour).1 = "N/A"
          ∧ STAR_DENSITY (analyze_image_for_tokens f ml image_array config hour).1 = "N/A")
    as Hsky.
  { intros Hnot. unfold analyze_image_for_tokens.
    destruct (negb (is_available ml)); [done|].
    destruct (analyze_image_not_open ml image_array config hour Hnot)
      as (_ & H1 & H2 & H3 & H4 & _).
    destruct (analyze_image ml image_array config hour) as [results ml'].
    simpl in *. by rewrite H1, H2, H3, H4. }
  split; [done|]. intros Hoff.
  assert (roof_step ml config image_array hour initial_results = initial_results)
    as Hinit.
  { destruct Hoff as [Hnone|Hcfg].
    - apply roof_step_unavailable. by left.
    - unfold roof_step. by rewrite Hcfg. }
  assert ((analyze_image ml image_array config hour).1 = initial_results) as Hres.
  { unfold analyze_image. simpl. rewrite Hinit. by apply sky_step_closed. }
  assert ((analyze_image ml image_array config hour).1 !! "roof_status"
            ≠ Some (VStr "Open")) as Hnot by (by rewrite Hres).
  destruct (Hsky Hnot) as (Hs1 & Hs2 & Hs3).
  revert Hs1 Hs2 Hs3. unfold analyze_image_for_tokens.
  destruct (negb (is_available ml)); [done|].
  destruct (analyze_image ml image_array config hour) as [results ml'].
  simpl in *. subst results. simpl. by intros -> -> ->.
Qed.

(** Stand-ins for the conversions, for the examples. *)
Definition plain : formats :=
  Formats (λ c, pretty (Qfloor (c * 100)))
          (λ d, pretty (round_half_even (d * 100)))
          (λ v, match v with VStr s => s | _ => "" end).

Lemma analyze_image_for_tokens_needs_open_roof_witness :
  SKY_CONDITION (analyze_image_for_tokens plain closed_roof (Gray 8 8 (λ _ _, 100%Q))
                   (MlConfig None None) 23).1 = VStr "N/A"
  ∧ STARS_VISIBLE (analyze_image_for_tokens plain closed_roof (Gray 8 8 (λ _ _, 100%Q))
                     (MlConfig None None) 23).1 = "N/A"
  ∧ STAR_DENSITY (analyze_image_for_tokens plain closed_roof (Gray 8 8 (λ _ _, 100%Q))
                    (MlConfig None None) 23).1 = "N/A".
Proof.
  apply (analyze_image_for_tokens_needs_open_roof plain closed_roof
           (Gray 8 8 (λ _ _, 100%Q)) (MlConfig None None) 23).
  by vm_compute.
Defined.

End MLService.

(** ** services/rtsp_output.py *)

Module RTSP.
Local Open Scope Z_scope.

(** *** Data *)

(** A PIL image: its size, its mode, and the pixels of its RGB rendering
    (itself when the mode is 'RGB', [img.convert('RGB')] otherwise), row by
    row. *)
Record pil_image := PilImage {
  img_width : Z;
  img_height : Z;
  img_mode : string;
  img_rgb : list (Z * Z * Z)
}.

Inductive image_input :=
| FromPath (p : string)
| FromImage (img : pil_image).

(** A [subprocess.Popen] handle of the encoder, with the [-video_size]
    of its command line. *)
Record popen := Popen { pid : nat; video_size : Z * Z }.

(** The attribute [frame_thread]: [None], a [Thread] object whose
    [start] has not succeeded, or a thread that was started. *)
Inductive thread_state := NoThread | ThreadCreated | ThreadStarted.

Record server := Server {
  host : string;
  port : Z;
  stream_name : string;
  fps : Q;
  process : option popen;
  running : bool;
  last_frame : option (list Z);
  frame_size : option (Z * Z);
  frame_thread : thread_state
}.

Inductive level := Debug | Info | Warning | Error.

(** What the bridge does to the outside, in order; [Store] is the
    assignment to [last_frame] under the lock. *)
Inductive event :=
| Terminate (p : nat)
| Wait (p : nat) (timeout : option Z) (expired : bool)
| Kill (p : nat)
| Spawn (h : popen)
| StdinClose (p : nat)
| StdinWrite (p : nat) (data : list Z)
| Join (timeout : Z)
| Store (data : list Z)
| Log (l : level) (msg : string).

(** What the platform does during one call: what [Image.open] yields
    ([None]: it raises), whether [wait] runs into its timeout, whether
    [Popen] raises, the pid of a spawned process, and the text of a raised
    exception. *)
Record env := Env {
  image_open : string → option pil_image;
  wait_times_out : bool;
  popen_raises : bool;
  fresh_pid : nat;
  exn_text : string
}.

(** *** Operations *)

Definition repr_size (sz : option (Z * Z)) : string :=
  match sz with
  | Some (w, h) => "(" +:+ pretty w +:+ ", " +:+ pretty h +:+ ")"
  | None => "None"
  end.

(** [RTSPStreamServer.get_url] *)
Definition get_url (s : server) : option string :=
  if running s
  then Some ("rtsp://" +:+ host s +:+ ":" +:+ pretty (port s) +:+ "/" +:+ stream_name s)
  else None.

Definition set_process (s : server) (h : option popen) : server :=
  Server (host s) (port s) (stream_name s) (fps s) h (running s)
         (last_frame s) (frame_size s) (frame_thread s).

Definition set_frame_size (s : server) (sz : option (Z * Z)) : server :=
  Server (host s) (port s) (stream_name s) (fps s) (process s) (running s)
         (last_frame s) sz (frame_thread s).

Definition set_last_frame (s : server) (data : option (list Z)) : server :=
  Server (host s) (port s) (stream_name s) (fps s) (process s) (running s)
         data (frame_size s) (frame_thread s).

Definition set_running (s : server) (b : bool) : server :=
  Server (host s) (port s) (stream_name s) (fps s) (process s) b
         (last_frame s) (frame_size s) (frame_thread s).

Definition set_frame_thread (s : server) (th : thread_state) : server :=
  Server (host s) (port s) (stream_name s) (fps s) (process s) (running s)
         (last_frame s) (frame_size s) th.

(** The second half of [_restart_ffmpeg]: [if was_running: ... Popen]. *)
Definition respawn (e : env) (s : server) (was_running : bool) : server * list event :=
  if was_running then
    match frame_size s with
    | Some sz =>
        if popen_raises e
        then (s, [Log Error ("Error restarting RTSP ffmpeg: " +:+ exn_text e)])
        else (set_process s (Some (Popen (fresh_pid e) sz)),
              [Spawn (Popen (fresh_pid e) sz);
               Log Info "RTSP ffmpeg restarted with new frame size"])
    | None => (s, [Log Error ("Error restarting RTSP ffmpeg: " +:+ exn_text e)])
    end
  else (s, []).

(** [RTSPStreamServer._restart_ffmpeg]: an expired [wait] raises
    [TimeoutExpired], which the enclosing [except Exception] logs. *)
Definition restart_ffmpeg (e : env) (s : server) : server * list event :=
  let was_running := running s in
  match process s with
  | Some h =>
      if wait_times_out e
      then (s, [Terminate (pid h); Wait (pid h) (Some 2) true;
                Log Error ("Error restarting RTSP ffmpeg: " +:+ exn_text e)])
      else
        let '(s', evs) := respawn e s was_running in
        (s', [Terminate (pid h); Wait (pid h) (Some 2) false] ++ evs)
  | None => respawn e s was_running
  end.

(** [img_np[:, :, ::-1].tobytes()]: the pixels in B, G, R order. *)
Definition bgr_bytes (img : pil_image) : list Z :=
  '(r, g, b) ← img_rgb img; [b; g; r].

(** [RTSPStreamServer.update_image] *)
Definition update_image (e : env) (s : server) (image_input : image_input)
    : server * list event :=
  if negb (running s) then (s, [])
  else
    match match image_input with
          | FromPath p => image_open e p
          | FromImage img => Some img
          end with
    | None => (s, [Log Error ("Error updating RTSP frame: " +:+ exn_text e)])
    | Some img =>
        let new_size := (img_width img, img_height img) in
        let '(s1, evs) :=
          if decide (Some new_size = frame_size s) then (s, [])
          else
            let '(s', evs) := restart_ffmpeg e (set_frame_size s (Some new_size)) in
            (s', Log Info ("RTSP frame size changed: " +:+ repr_size (frame_size s)
                           +:+ " -> " +:+ repr_size (Some new_size)) :: evs) in
        (set_last_frame s1 (Some (bgr_bytes img)),
         evs ++ [Store (bgr_bytes img);
                 Log Debug ("RTSP frame updated: " +:+ repr_size (Some new_size))])
    end.

(** [self.process.terminate()] and what follows it in [stop]. *)
Definition stop_process (stop_wait_times_out : bool) (s : server) : list event :=
  match process s with
  | Some h =>
      [StdinClose (pid h); Terminate (pid h)]
      ++ (if stop_wait_times_out
          then [Wait (pid h) (Some 5) true; Kill (pid h); Wait (pid h) None false]
          else [Wait (pid h) (Some 5) false])
  | None => []
  end.

(** [RTSPStreamServer.stop]; [stop_wait_times_out] is the outcome of
    [process.wait(timeout=5)].  [join] on a thread that was never started
    raises [RuntimeError]: the enclosing [except Exception] logs it, and
    the encoder is not terminated. *)
Definition stop (stop_wait_times_out : bool) (s : server) : server * list event :=
  if negb (running s) then (s, [])
  else
    (set_running s false,
     match frame_thread s with
     | ThreadCreated =>
         [Log Info "Stopping RTSP server..."; Join 2;
          Log Error "Error stopping RTSP server: cannot join thread before it is started"]
     | ThreadStarted =>
         [Log Info "Stopping RTSP server..."; Join 2]
         ++ stop_process stop_wait_times_out s
         ++ [Log Info "RTSP server stopped"]
     | NoThread =>
         [Log Info "Stopping RTSP server..."]
         ++ stop_process stop_wait_times_out s
         ++ [Log Info "RTSP server stopped"]
     end).

(** One pass of the [while] loop of [_frame_sender_loop] as the platform
    decides it: whether [process.poll()] reports an exit, and how the write
    to the pipe ends. *)
Inductive write_result := Written | BrokenPipe | WriteError.

Record tick := Tick { exited : bool; write : write_result }.

(** How a run of the sender ends: still in its loop when the passes
    considered are over, returned, or left by the [ZeroDivisionError] of
    [1.0 / self.fps], which is raised outside the [try]. *)
Inductive loop_state := Looping | Finished | Crashed.

(** The [while] loop of [_frame_sender_loop] with its [finally] over the
    passes of [ticks].  The loop only reads the server; the text of an
    exception is left out of the messages. *)
Fixpoint sender_passes (s : server) (ticks : list tick)
    : server * list event * loop_state :=
  match ticks with
  | [] => (s, [], Looping)
  | t :: rest =>
      match process s with
      | Some h =>
          if running s && negb (exited t) then
            match last_frame s with
            | Some frame_bytes =>
                match write t with
                | Written =>
                    let '(s', evs, st) := sender_passes s rest in
                    (s', StdinWrite (pid h) frame_bytes
                         :: Log Debug ("Sent frame to RTSP ("
                                       +:+ pretty (Z.of_nat (length frame_bytes))
                                       +:+ " bytes)") :: evs, st)
                | BrokenPipe =>
                    (s, [Log Error "RTSP ffmpeg pipe broken";
                         Log Debug "RTSP frame sender thread stopped"], Finished)
                | WriteError =>
                    let '(s', evs, st) := sender_passes s rest in
                    (s', Log Error "Error sending frame to RTSP" :: evs, st)
                end
            | None => sender_passes s rest
            end
          else (s, [Log Debug "RTSP frame sender thread stopped"], Finished)
      | None => (s, [Log Debug "RTSP frame sender thread stopped"], Finished)
      end
  end.

(** [RTSPStreamServer._frame_sender_loop] *)
Definition frame_sender_loop (s : server) (ticks : list tick)
    : server * list event * loop_state :=
  if Qeq_bool (fps s) 0 then (s, [], Crashed) else sender_passes s ticks.

Definition is_spawn (ev : event) : bool :=
  match ev with Spawn _ => true | _ => false end.

Definition is_kill (ev : event) : bool :=
  match ev with Kill _ => true | _ => false end.

(** The number of encoder processes started by a run. *)
Definition restarts (evs : list event) : nat := length (List.filter is_spawn evs).

(** *** Examples *)

Definition hd1080 : popen := Popen 100 (1920, 1080).

Definition live : server :=
  Server "0.0.0.0" 8554 "asiwatchdog" 1 (Some hd1080) true None (Some (1920, 1080))
         ThreadStarted.

Definition vga_frame : pil_image :=
  PilImage 640 480 "RGB" (replicate 4 (10, 20, 30)).

Definition smooth : env := Env (λ _, None) false false 101 "".

Definition stubborn : env := Env (λ _, None) true false 101 "timed out".

(** *** Frames forwarded while the bridge is stopped *)

(** C10: while the bridge is not running, [update_image] returns at once:
    the stored frame, the recorded frame size and the process handle (the
    whole server) are unchanged, no restart is attempted, nothing is logged
    and nothing is raised. *)
Theorem update_image_not_running e s input :
  running s = false →
  update_image e s input = (s, [])
  ∧ last_frame (update_image e s input).1 = last_frame s
  ∧ frame_size (update_image e s input).1 = frame_size s
  ∧ process (update_image e s input).1 = process s
  ∧ restarts (update_image e s input).2 = 0%nat.
Proof.
  intros Hstopped.
  assert (update_image e s input = (s, [])) as Heq.
  { unfold update_image. by rewrite Hstopped. }
  rewrite Heq. done.
Qed.

Lemma update_image_not_running_witness :
  update_image stubborn (set_running live false) (FromImage vga_frame)
    = (set_running live false, [])
  ∧ last_frame (update_image stubborn (set_running live false) (FromImage vga_frame)).1
    = last_frame (set_running live false)
  ∧ frame_size (update_image stubborn (set_running live false) (FromImage vga_frame)).1
    = frame_size (set_running live false)
  ∧ process (update_image stubborn (set_running live false) (FromImage vga_frame)).1
    = process (set_running live false)
  ∧ restarts (update_image stubborn (set_running live false) (FromImage vga_frame)).2
    = 0%nat.
Proof.
  apply (update_image_not_running stubborn (set_running live false) (FromImage vga_frame)).
  reflexivity.
Defined.

(** *** Frames forwarded while the bridge is running *)

Definition size_of (img : pil_image) : Z * Z := (img_width img, img_height img).

(** A frame of the recorded size is stored without touching the
    encoder. *)
Lemma update_image_same_size e s img :
  running s = true → frame_size s = Some (size_of img) →
  update_image e s (FromImage img)
  = (set_last_frame s (Some (bgr_bytes img)),
     [Store (bgr_bytes img);
      Log Debug ("RTSP frame updated: " +:+ repr_size (Some (size_of img)))])
  ∧ restarts (update_image e s (FromImage img)).2 = 0%nat.
Proof.
  intros Hrun Hsize.
  assert (update_image e s (FromImage img)
          = (set_last_frame s (Some (bgr_bytes img)),
             [Store (bgr_bytes img);
              Log Debug ("RTSP frame updated: " +:+ repr_size (Some (size_of img)))]))
    as Heq.
  { unfold update_image. rewrite Hrun. simpl.
    rewrite decide_True by (by rewrite Hsize). done. }
  by rewrite Heq.
Qed.

(** A frame of another size, when the old encoder exits within the two
    seconds and the new one starts: one terminate, one wait, one spawn with
    the new size, and only then the store. *)
Lemma update_image_resize e s img h :
  running s = true → process s = Some h → frame_size s ≠ Some (size_of img) →
  wait_times_out e = false → popen_raises e = false →
  update_image e s (FromImage img)
  = (Server (host s) (port s) (stream_name s) (fps s)
            (Some (Popen (fresh_pid e) (size_of img))) true
            (Some (bgr_bytes img)) (Some (size_of img)) (frame_thread s),
     [Log Info ("RTSP frame size changed: " +:+ repr_size (frame_size s)
                +:+ " -> " +:+ repr_size (Some (size_of img)));
      Terminate (pid h); Wait (pid h) (Some 2) false;
      Spawn (Popen (fresh_pid e) (size_of img));
      Log Info "RTSP ffmpeg restarted with new frame size";
      Store (bgr_bytes img);
      Log Debug ("RTSP frame updated: " +:+ repr_size (Some (size_of img)))])
  ∧ restarts (update_image e s (FromImage img)).2 = 1%nat.
Proof.
  intros Hrun Hproc Hsize Hwait Hpopen.
  unfold update_image, restart_ffmpeg, respawn. rewrite Hrun. simpl.
  rewrite decide_False by (intros Heq; by rewrite <- Heq in Hsize).
  rewrite Hrun, Hproc, Hwait, Hpopen. simpl.
  unfold set_last_frame, set_process, set_frame_size, size_of. simpl.
  by rewrite Hrun.
Qed.

(** A frame of another size, when the old encoder does not exit within
    the two seconds: the handle stays, nothing is killed or spawned, and
    the frame is stored all the same. *)
Lemma update_image_wait_expired e s img h :
  running s = true → process s = Some h → frame_size s ≠ Some (size_of img) →
  wait_times_out e = true →
  update_image e s (FromImage img)
  = (Server (host s) (port s) (stream_name s) (fps s) (Some h) true
            (Some (bgr_bytes img)) (Some (size_of img)) (frame_thread s),
     [Log Info ("RTSP frame size changed: " +:+ repr_size (frame_size s)
                +:+ " -> " +:+ repr_size (Some (size_of img)));
      Terminate (pid h); Wait (pid h) (Some 2) true;
      Log Error ("Error restarting RTSP ffmpeg: " +:+ exn_text e);
      Store (bgr_bytes img);
      Log Debug ("RTSP frame updated: " +:+ repr_size (Some (size_of img)))])
  ∧ restarts (update_image e s (FromImage img)).2 = 0%nat.
Proof.
  intros Hrun Hproc Hsize Hwait.
  unfold update_image, restart_ffmpeg. rewrite Hrun. simpl.
  rewrite decide_False by (intros Heq; by rewrite <- Heq in Hsize).
  rewrite Hproc, Hwait. simpl.
  unfold set_last_frame, set_frame_size, size_of. simpl.
  by rewrite Hrun, Hproc.
Qed.

Lemma update_image_same_size_witness :
  update_image stubborn live (FromImage (PilImage 1920 1080 "RGB" []))
  = (set_last_frame live (Some []),
     [Store []; Log Debug "RTSP frame updated: (1920, 1080)"])
  ∧ restarts (update_image stubborn live (FromImage (PilImage 1920 1080 "RGB" []))).2
    = 0%nat.
Proof.
  apply (update_image_same_size stubborn live (PilImage 1920 1080 "RGB" []));
    reflexivity.
Defined.

Lemma update_image_resize_witness :
  restarts (update_image smooth live (FromImage vga_frame)).2 = 1%nat.
Proof.
  apply (update_image_resize smooth live vga_frame hd1080);
    try reflexivity. discriminate.
Defined.

(** C3 at a failing input: a running bridge whose encoder was started for
    1920x1080 receives a 640x480 frame, and the encoder does not exit
    within the two seconds of [wait].  No process is killed, none is
    spawned, the handle is still the 1920x1080 encoder, and the 640x480
    frame is stored for sending. *)
Theorem update_image_restart_wait_expired :
  update_image stubborn live (FromImage vga_frame)
  = (Server "0.0.0.0" 8554 "asiwatchdog" 1 (Some hd1080) true
            (Some (bgr_bytes vga_frame)) (Some (640, 480)) ThreadStarted,
     [Log Info "RTSP frame size changed: (1920, 1080) -> (640, 480)";
      Terminate 100; Wait 100 (Some 2) true;
      Log Error "Error restarting RTSP ffmpeg: timed out";
      Store (bgr_bytes vga_frame);
      Log Debug "RTSP frame updated: (640, 480)"])
  ∧ restarts (update_image stubborn live (FromImage vga_frame)).2 = 0%nat
  ∧ existsb is_kill (update_image stubborn live (FromImage vga_frame)).2 = false
  ∧ video_size <$> process (update_image stubborn live (FromImage vga_frame)).1
    = Some (1920, 1080)
  ∧ frame_size (update_image stubborn live (FromImage vga_frame)).1 = Some (640, 480).
Proof. by vm_compute. Qed.

(** The sibling path: [stop] does kill an encoder that outlives its
    wait. *)
Example stop_kills_after_timeout :
  existsb is_kill (stop true live).2 = true
  ∧ get_url (stop true live).1 = None.
Proof. by vm_compute. Qed.

Example update_image_resize_demo :
  restarts (update_image smooth live (FromImage vga_frame)).2 = 1%nat
  ∧ process (update_image smooth live (FromImage vga_frame)).1
    = Some (Popen 101 (640, 480)).
Proof. by vm_compute. Qed.

(** *** The frame pump *)

(** A pass that keeps the loop going: the encoder is alive and the write
    does not hit a broken pipe. *)
Definition keeps_going (t : tick) : Prop := exited t = false ∧ write t ≠ BrokenPipe.

(** The sender never assigns to the server. *)
Lemma sender_passes_reads_only s ticks : (sender_passes s ticks).1.1 = s.
Proof.
  induction ticks as [|t rest IH]; simpl; [done|].
  destruct (process s) as [h|]; [|done].
  destruct (running s && negb (exited t)); [|done].
  destruct (last_frame s) as [frame|]; [|done].
  destruct (write t); [|done|];
    destruct (sender_passes s rest) as [[s' evs] st]; simpl in *; done.
Qed.

Lemma sender_passes_broken_pipe s h frame pre post :
  running s = true → process s = Some h → last_frame s = Some frame →
  Forall keeps_going pre →
  ∃ evs,
    sender_passes s (pre ++ Tick false BrokenPipe :: post)
    = (s, evs ++ [Log Error "RTSP ffmpeg pipe broken";
                  Log Debug "RTSP frame sender thread stopped"], Finished)
    ∧ length evs = (2 * length (List.filter
                                  (λ t, match write t with Written => true | _ => false end)
                                  pre)
                    + length (List.filter
                                (λ t, match write t with WriteError => true | _ => false end)
                                pre))%nat.
Proof.
  intros Hrun Hproc Hframe Hpre.
  induction Hpre as [|t pre [Hexit Hwrite] Hpre IH]; simpl.
  - rewrite Hproc, Hrun, Hframe. simpl. by exists [].
  - rewrite Hproc, Hrun, Hframe, Hexit. simpl.
    destruct IH as (evs & -> & Hlen).
    destruct (write t); [|done|]; simpl.
    + eexists (_ :: _ :: evs). split; [reflexivity|simpl; lia].
    + eexists (_ :: evs). split; [reflexivity|simpl; lia].
Qed.

(** C6 fails as stated: after a broken pipe the sender has returned, and
    the bridge still reports that it is running and still hands out its
    URL. *)
Lemma broken_pipe_leaves_bridge_running :
  frame_sender_loop (set_last_frame live (Some [1; 2; 3])) [Tick false BrokenPipe]
  = (set_last_frame live (Some [1; 2; 3]),
     [Log Error "RTSP ffmpeg pipe broken";
      Log Debug "RTSP frame sender thread stopped"], Finished)
  ∧ running (frame_sender_loop (set_last_frame live (Some [1; 2; 3]))
               [Tick false BrokenPipe]).1.1 = true
  ∧ get_url (frame_sender_loop (set_last_frame live (Some [1; 2; 3]))
               [Tick false BrokenPipe]).1.1
    = Some "rtsp://0.0.0.0:8554/asiwatchdog".
Proof. by vm_compute. Qed.

(** C6, amended: when a write of the sender hits a broken pipe (the bridge
    running, with an encoder and a frame, at a non-zero rate, every earlier
    pass having kept the loop going), the sender logs
    "RTSP ffmpeg pipe broken" as an error, leaves its loop and returns
    without raising, and makes no later pass.  It does not change the
    server: the bridge still reports running and [get_url] still returns
    the URL; only [stop] makes it stopped and the URL absent. *)
Theorem frame_sender_loop_broken_pipe s h frame pre post :
  running s = true → process s = Some h → last_frame s = Some frame →
  Qeq_bool (fps s) 0 = false → Forall keeps_going pre →
  (∃ evs,
     frame_sender_loop s (pre ++ Tick false BrokenPipe :: post)
     = (s, evs ++ [Log Error "RTSP ffmpeg pipe broken";
                   Log Debug "RTSP frame sender thread stopped"], Finished))
  ∧ running (frame_sender_loop s (pre ++ Tick false BrokenPipe :: post)).1.1 = true
  ∧ get_url (frame_sender_loop s (pre ++ Tick false BrokenPipe :: post)).1.1
    = Some ("rtsp://" +:+ host s +:+ ":" +:+ pretty (port s) +:+ "/" +:+ stream_name s)
  ∧ (∀ stop_wait_times_out,
       running (stop stop_wait_times_out s).1 = false
       ∧ get_url (stop stop_wait_times_out s).1 = None).
Proof.
  intros Hrun Hproc Hframe Hfps Hpre.
  destruct (sender_passes_broken_pipe s h frame pre post Hrun Hproc Hframe Hpre)
    as (evs & Heq & _).
  unfold frame_sender_loop. rewrite Hfps, Heq. simpl.
  split_and!.
  - by exists evs.
  - done.
  - unfold get_url. by rewrite Hrun.
  - intros b. unfold stop, get_url. rewrite Hrun. simpl. done.
Qed.

Lemma frame_sender_loop_broken_pipe_witness :
  (∃ evs,
     frame_sender_loop (set_last_frame live (Some [1; 2; 3]))
       ([Tick false Written] ++ Tick false BrokenPipe :: [Tick false Written])
     = (set_last_frame live (Some [1; 2; 3]),
        evs ++ [Log Error "RTSP ffmpeg pipe broken";
                Log Debug "RTSP frame sender thread stopped"], Finished))
  ∧ running (frame_sender_loop (set_last_frame live (Some [1; 2; 3]))
               ([Tick false Written] ++ Tick false BrokenPipe :: [Tick false Written])).1.1
    = true.
Proof.
  destruct (frame_sender_loop_broken_pipe (set_last_frame live (Some [1; 2; 3]))
              hd1080 [1; 2; 3] [Tick false Written] [Tick false Written])
    as (H1 & H2 & _); try reflexivity.
  - repeat constructor. discriminate.
  - exact (conj H1 H2).
Defined.

(** *** Starting and stopping the bridge *)

(** [RTSPStreamServer.__init__] *)
Definition init (host : string) (port : Z) (stream_name : string) (fps : Q) : server :=
  Server host port stream_name fps None false None None NoThread.

(** How [subprocess.Popen] ends in [start]: it returns, raises
    [FileNotFoundError], or raises another exception. *)
Inductive popen_outcome := Started | NotFound | Failed.

(** What the platform does during [start]: the return code of
    [ffmpeg -version] ([None]: [subprocess.run] raises), the outcome of
    [Popen] and the pid of the process, whether starting the sender thread
    raises, the text of [str(self.fps)], and the text of a raised
    exception. *)
Record start_env := StartEnv {
  ffmpeg_version : option Z;
  start_popen : popen_outcome;
  start_pid : nat;
  thread_start_raises : bool;
  fps_text : string;
  start_exn_text : string
}.

(** [RTSPStreamServer._check_ffmpeg] *)
Definition check_ffmpeg (e : start_env) : bool :=
  match ffmpeg_version e with
  | Some returncode => bool_decide (returncode = 0)
  | None => false
  end.

(** The returned flag, the server, what was done, and whether the sender
    thread runs. *)
Record start_result := StartResult {
  sr_ok : bool;
  sr_server : server;
  sr_events : list event;
  sr_thread : bool
}.

(** [RTSPStreamServer.start]; when [Thread.start] raises, the thread
    object stays in [frame_thread], never started. *)
Definition start (e : start_env) (s : server) : start_result :=
  if running s
  then StartResult false s [Log Warning "RTSP server already running"] false
  else if negb (check_ffmpeg e)
  then StartResult false s
         [Log Warning "ffmpeg not found in PATH. RTSP streaming requires ffmpeg.";
          Log Info "To enable RTSP: Download ffmpeg from https://ffmpeg.org/download.html";
          Log Info "After installing, add ffmpeg.exe to your system PATH and restart the app."]
         false
  else
    let s1 := set_frame_size s (Some (1920, 1080)) in
    match start_popen e with
    | NotFound =>
        StartResult false s1 [Log Error "ffmpeg executable not found in PATH"] false
    | Failed =>
        StartResult false s1
          [Log Error ("Failed to start RTSP server: " +:+ start_exn_text e)] false
    | Started =>
        let h := Popen (start_pid e) (1920, 1080) in
        let s2 :=
          set_frame_thread (set_running (set_process s1 (Some h)) true)
            (if thread_start_raises e then ThreadCreated else ThreadStarted) in
        if thread_start_raises e
        then StartResult false s2
               [Spawn h; Log Error ("Failed to start RTSP server: " +:+ start_exn_text e)]
               false
        else StartResult true s2
               [Spawn h;
                Log Info ("RTSP server started: " +:+ default "None" (get_url s2));
                Log Info ("  - Stream at " +:+ fps_text e +:+ " FPS");
                Log Info "  - Connect with VLC, NINA, or other RTSP client"]
               true
    end.

(** The encoder's [-video_size] is the recorded frame size. *)
Definition in_sync (s : server) : Prop :=
  ∃ h, process s = Some h ∧ frame_size s = Some (video_size h).

(** The calls made on a bridge, with what the platform does during
    each. *)
Inductive op :=
| Start (e : start_env)
| UpdateImage (e : env) (input : image_input)
| Stop (stop_wait_times_out : bool).

Definition step (s : server) (o : op) : server * list event :=
  match o with
  | Start e => (sr_server (start e s), sr_events (start e s))
  | UpdateImage e input => update_image e s input
  | Stop b => stop b s
  end.

Fixpoint run (s : server) (ops : list op) : server * list event :=
  match ops with
  | [] => (s, [])
  | o :: rest =>
      let '(s1, evs1) := step s o in
      let '(s2, evs2) := run s1 rest in
      (s2, evs1 ++ evs2)
  end.

(** The encoder processes that have been started and not yet waited for
    successfully, after one more event. *)
Definition reap (alive : list nat) (ev : event) : list nat :=
  match ev with
  | Spawn h => pid h :: alive
  | Wait p _ false => filter (λ q, q ≠ p) alive
  | _ => alive
  end.

Definition alive_after (evs : list event) (alive : list nat) : list nat :=
  foldl reap alive evs.

(** At every point of the trace at most one encoder process is alive. *)
Fixpoint one_at_a_time (evs : list event) (alive : list nat) : Prop :=
  (length alive ≤ 1)%nat
  ∧ match evs with
    | [] => True
    | ev :: rest => one_at_a_time rest (reap alive ev)
    end.

Definition ready : start_env := StartEnv (Some 0) Started 100 false "1.0" "".

Definition qvga_frame : pil_image :=
  PilImage 2 2 "RGB" (replicate 4 (10, 20, 30)).

Lemma bgr_bytes_length img :
  Z.of_nat (length (bgr_bytes img)) = 3 * Z.of_nat (length (img_rgb img)).
Proof.
  unfold bgr_bytes. induction (img_rgb img) as [|[[r g] b] l IH]; [done|].
  change (Z.of_nat (length ([b; g; r] ++ (l ≫= λ '(r, g, b), [b; g; r])))
          = 3 * Z.of_nat (length ((r, g, b) :: l))).
  rewrite length_app. simpl length. lia.
Qed.

Lemma alive_after_cons ev evs alive :
  alive_after (ev :: evs) alive = alive_after evs (reap alive ev).
Proof. done. Qed.

Lemma reap_wait p : filter (λ q : nat, q ≠ p) [p] = [].
Proof. by rewrite filter_cons_False by (by intros Hne). Qed.

(** [start]: a second [start] on a running bridge starts nothing and
    changes nothing; on a stopped bridge it returns [True] exactly when
    ffmpeg answers, [Popen] returns and the sender thread starts, and then
    the bridge is running with one new encoder for 1920x1080, the recorded
    frame size is 1920x1080, the URL is reported and the sender thread
    runs; when ffmpeg is missing or [Popen] raises, the bridge stays stopped
    and no process or thread is started.  In every case the frame stored
    by an earlier run is kept. *)
Theorem start_outcomes e s :
  (running s = true →
   start e s = StartResult false s [Log Warning "RTSP server already running"] false)
  ∧ last_frame (sr_server (start e s)) = last_frame s
  ∧ (running s = false →
     (sr_ok (start e s) = true ↔
        check_ffmpeg e = true ∧ start_popen e = Started ∧ thread_start_raises e = false)
     ∧ (sr_ok (start e s) = true →
        running (sr_server (start e s)) = true
        ∧ process (sr_server (start e s)) = Some (Popen (start_pid e) (1920, 1080))
        ∧ in_sync (sr_server (start e s))
        ∧ is_Some (get_url (sr_server (start e s)))
        ∧ restarts (sr_events (start e s)) = 1%nat
        ∧ sr_thread (start e s) = true)
     ∧ (check_ffmpeg e = false ∨ start_popen e ≠ Started →
        sr_ok (start e s) = false
        ∧ running (sr_server (start e s)) = false
        ∧ process (sr_server (start e s)) = process s
        ∧ restarts (sr_events (start e s)) = 0%nat
        ∧ sr_thread (start e s) = false)).
Proof.
  unfold start. split_and!.
  - by intros ->.
  - destruct (running s); [done|]. destruct (negb (check_ffmpeg e)); [done|].
    destruct (start_popen e); [|done..]. by destruct (thread_start_raises e).
  - intros Hstopped. rewrite Hstopped.
    destruct (check_ffmpeg e) eqn:Hcheck; simpl.
    + destruct (start_popen e) eqn:Hpopen; simpl.
      * destruct (thread_start_raises e) eqn:Hthread; simpl.
        -- split_and!; [split; [done|by intros (_ & _ & ?)]|done|].
           intros [?|?]; done.
        -- split_and!; [done| |intros [?|?]; done].
           intros _.
           split_and!;
             first [done | by exists (Popen (start_pid e) (1920, 1080)) | by eexists].
      * split_and!; [split; [done|by intros (_ & ? & _)]|done|].
        intros _. unfold set_frame_size. simpl. by rewrite Hstopped.
      * split_and!; [split; [done|by intros (_ & ? & _)]|done|].
        intros _. unfold set_frame_size. simpl. by rewrite Hstopped.
    + split_and!; [split; [done|by intros (? & _)]|done|].
      intros _. by rewrite Hstopped.
Qed.

Lemma start_outcomes_witness :
  start ready (set_running live true)
  = StartResult false (set_running live true) [Log Warning "RTSP server already running"]
                false.
Proof. apply (start_outcomes ready (set_running live true)). reflexivity. Defined.

(** [stop] is final and can be repeated: afterwards the bridge reports
    not running and no URL, a further [stop] and any [update_image] do
    nothing at all; the process handle, the recorded frame size, the stored
    frame and the thread object are left in place.  The encoder of a
    running bridge is terminated, killed when it has not exited after five
    seconds, and waited for, unless the sender thread was created and never
    started: then [join] raises, [stop] logs the error, and the encoder is
    neither terminated nor waited for. *)
Theorem stop_is_final b s :
  running (stop b s).1 = false
  ∧ get_url (stop b s).1 = None
  ∧ (∀ b', stop b' (stop b s).1 = ((stop b s).1, []))
  ∧ (∀ e input, update_image e (stop b s).1 input = ((stop b s).1, []))
  ∧ process (stop b s).1 = process s
  ∧ frame_size (stop b s).1 = frame_size s
  ∧ last_frame (stop b s).1 = last_frame s
  ∧ frame_thread (stop b s).1 = frame_thread s
  ∧ (∀ h, running s = true → process s = Some h → frame_thread s ≠ ThreadCreated →
       Terminate (pid h) ∈ (stop b s).2
       ∧ (b = true → Kill (pid h) ∈ (stop b s).2)
       ∧ alive_after (stop b s).2 [pid h] = [])
  ∧ (running s = true → frame_thread s = ThreadCreated →
       (stop b s).2
       = [Log Info "Stopping RTSP server..."; Join 2;
          Log Error "Error stopping RTSP server: cannot join thread before it is started"]
       ∧ ∀ alive, alive_after (stop b s).2 alive = alive).
Proof.
  unfold stop. destruct (running s) eqn:Hrun; simpl.
  - split_and!; try done.
    + intros h _ Hproc Hth. unfold stop_process. rewrite Hproc.
      destruct (frame_thread s); [|done|]; destruct b;
        (split_and!;
         [ simpl; repeat first [by left|right]
         | intros Hb; try discriminate Hb; simpl; repeat first [by left|right]
         | cbn [app]; rewrite !alive_after_cons; cbn [reap pid];
           by rewrite ?reap_wait ]).
    + intros _ ->. done.
  - split_and!; try done.
    + unfold get_url. by rewrite Hrun.
    + intros b'. by rewrite Hrun.
    + intros e input. unfold update_image. by rewrite Hrun.
Qed.

Lemma stop_is_final_witness :
  Terminate 100 ∈ (stop true live).2
  ∧ (true = true → Kill 100 ∈ (stop true live).2)
  ∧ alive_after (stop true live).2 [100%nat] = [].
Proof.
  destruct (stop_is_final true live) as (_ & _ & _ & _ & _ & _ & _ & _ & Hkill & _).
  apply (Hkill hd1080); [reflexivity|reflexivity|discriminate].
Defined.

(** A bridge whose sender thread did not start: it reports running, and
    its [stop] leaves the encoder alone. *)
Example stop_without_thread :
  (stop false (sr_server (start (StartEnv (Some 0) Started 100 true "1.0" "can't start new thread")
                             (init "0.0.0.0" 8554 "asiwatchdog" 1)))).2
  = [Log Info "Stopping RTSP server..."; Join 2;
     Log Error "Error stopping RTSP server: cannot join thread before it is started"].
Proof. reflexivity. Qed.

(** The image that [update_image] works on; [None]: [Image.open]
    raises. *)
Definition loaded (e : env) (input : image_input) : option pil_image :=
  match input with
  | FromPath p => image_open e p
  | FromImage img => Some img
  end.

(** Frames fit the encoder.  On a running bridge whose encoder was
    started for the recorded frame size, when the old encoder exits in time
    and [Popen] returns: after [update_image] the bridge is still running
    under the same URL, its encoder is one started for the size of the
    image, the recorded frame size is that size, and the stored frame holds
    three bytes for each of the width x height pixels, which is what the
    encoder reads as one frame. *)
Theorem update_image_fits_encoder e s input img :
  running s = true → in_sync s →
  wait_times_out e = false → popen_raises e = false →
  loaded e input = Some img →
  Z.of_nat (length (img_rgb img)) = img_width img * img_height img →
  running (update_image e s input).1 = true
  ∧ get_url (update_image e s input).1 = get_url s
  ∧ in_sync (update_image e s input).1
  ∧ ∃ h frame,
      process (update_image e s input).1 = Some h
      ∧ video_size h = size_of img
      ∧ last_frame (update_image e s input).1 = Some frame
      ∧ Z.of_nat (length frame) = 3 * img_width img * img_height img.
Proof.
  intros Hrun (h & Hproc & Hsize) Hwait Hpopen Hload Hpixels.
  assert (Z.of_nat (length (bgr_bytes img)) = 3 * img_width img * img_height img)
    as Hbytes by (rewrite bgr_bytes_length; lia).
  unfold update_image. rewrite Hrun. cbn [negb].
  fold (loaded e input). rewrite Hload.
  destruct (decide (Some (img_width img, img_height img) = frame_size s)) as [Hsame|Hnew].
  - unfold get_url. simpl. rewrite Hrun. split_and!; [done|done| |].
    + by exists h.
    + exists h, (bgr_bytes img). cbn. split_and!; [done| |done|done].
      rewrite Hsize in Hsame. by inversion Hsame.
  - unfold restart_ffmpeg, respawn. simpl. rewrite Hproc, Hwait, Hrun, Hpopen.
    unfold get_url. simpl. rewrite Hrun. split_and!; [done|done| |].
    + by eexists.
    + by exists (Popen (fresh_pid e) (img_width img, img_height img)), (bgr_bytes img).
Qed.

Lemma update_image_fits_encoder_witness :
  ∃ h frame,
    process (update_image smooth live (FromImage qvga_frame)).1 = Some h
    ∧ video_size h = size_of qvga_frame
    ∧ last_frame (update_image smooth live (FromImage qvga_frame)).1 = Some frame
    ∧ Z.of_nat (length frame) = 3 * img_width qvga_frame * img_height qvga_frame.
Proof.
  apply (update_image_fits_encoder smooth live (FromImage qvga_frame) qvga_frame);
    try reflexivity.
  exists hd1080. split; reflexivity.
Defined.

(** Starting the sender thread does not fail in this call. *)
Definition thread_starts (o : op) : Prop :=
  match o with
  | Start e => thread_start_raises e = false
  | _ => True
  end.

(** The encoder alive, if any, is the one the running bridge holds, and
    no thread object was left unstarted. *)
Definition tracked (s : server) (alive : list nat) : Prop :=
  frame_thread s ≠ ThreadCreated
  ∧ (alive = [] ∨ ∃ h, process s = Some h ∧ alive = [pid h] ∧ running s = true).

Lemma one_at_a_time_app evs1 evs2 alive :
  one_at_a_time evs1 alive →
  one_at_a_time evs2 (alive_after evs1 alive) →
  one_at_a_time (evs1 ++ evs2) alive.
Proof.
  revert alive. induction evs1 as [|ev evs1 IH]; intros alive; simpl.
  - by intros _.
  - intros [Hlen Hrest] H2. split; [done|]. by apply IH.
Qed.

Lemma alive_after_app evs1 evs2 alive :
  alive_after (evs1 ++ evs2) alive = alive_after evs2 (alive_after evs1 alive).
Proof. apply foldl_app. Qed.

Lemma reap_log alive l msg : reap alive (Log l msg) = alive.
Proof. done. Qed.

Ltac trace_step :=
  repeat first
    [ rewrite alive_after_cons
    | rewrite reap_wait
    | progress cbn [one_at_a_time reap alive_after foldl app pid length filter
                    sr_server sr_events fst snd] ].

Lemma tracked_length s alive : tracked s alive → (length alive ≤ 1)%nat.
Proof. intros [_ [->|(h & _ & -> & _)]]; cbn; lia. Qed.

(** A call that leaves the process handle, the running flag and the
    thread object as they are keeps the encoder tracked. *)
Lemma tracked_same s s' alive :
  process s' = process s → running s' = running s → frame_thread s' = frame_thread s →
  tracked s alive → tracked s' alive.
Proof. unfold tracked. by intros -> -> ->. Qed.

Lemma start_tracked e s alive :
  thread_start_raises e = false →
  tracked s alive →
  one_at_a_time (sr_events (start e s)) alive
  ∧ tracked (sr_server (start e s)) (alive_after (sr_events (start e s)) alive).
Proof.
  intros Hthread Htr. pose proof (tracked_length s alive Htr) as Hlen.
  destruct (running s) eqn:Hrun.
  { unfold start. rewrite Hrun. cbn. done. }
  assert (alive = []) as ->.
  { destruct Htr as [_ [->|(h & _ & _ & Habs)]]; [done|congruence]. }
  destruct Htr as [Hth _]. unfold start. rewrite Hrun, Hthread.
  destruct (negb (check_ffmpeg e)); [cbn; split; [lia|split; [done|by left]]|].
  destruct (start_popen e); [|cbn; split; [lia|split; [done|by left]]..].
  cbn. split; [lia|]. split; [done|]. right. by eexists.
Qed.

Lemma quiet_events evs :
  (∀ ev, ev ∈ evs → is_spawn ev = false) →
  one_at_a_time evs [] ∧ alive_after evs [] = [].
Proof.
  induction evs as [|ev evs IH]; intros Hno; [cbn; split; [lia|done]|].
  assert (reap [] ev = []) as Hev.
  { pose proof (Hno ev ltac:(by left)) as Hs.
    destruct ev as [p|p t [|]|p|h|p|p d|t|d|l m]; cbn in Hs; done. }
  destruct IH as [IH1 IH2]; [intros ev' Hev'; apply Hno; by right|].
  rewrite alive_after_cons, Hev. split; [|done]. cbn [one_at_a_time].
  rewrite Hev. split; [cbn; lia|done].
Qed.

Lemma stop_tracked b s alive :
  tracked s alive →
  one_at_a_time (stop b s).2 alive ∧ tracked (stop b s).1 (alive_after (stop b s).2 alive).
Proof.
  intros Htr. pose proof (tracked_length s alive Htr) as Hlen.
  destruct (running s) eqn:Hrun; cycle 1.
  { unfold stop. rewrite Hrun. cbn. done. }
  destruct Htr as [Hth Htr]. unfold stop. rewrite Hrun.
  cbn [negb fst snd]. unfold stop_process.
  destruct Htr as [->|(h & Hproc & -> & _)].
  - match goal with |- one_at_a_time ?evs [] ∧ _ =>
      destruct (quiet_events evs) as [H1 H2] end.
    { intros ev Hev. destruct (frame_thread s); destruct (process s); destruct b;
        cbn in Hev;
        repeat (apply elem_of_cons in Hev as [->|Hev]; [done|]);
        by apply elem_of_nil in Hev. }
    split; [done|]. rewrite H2. split; [done|by left].
  - rewrite Hproc.
    destruct (frame_thread s) eqn:Hthread; [|done|]; destruct b; trace_step;
      (split; [repeat split; lia|split; [cbn; by rewrite Hthread|by left]]).
Qed.

Lemma update_image_tracked e s input alive :
  tracked s alive →
  one_at_a_time (update_image e s input).2 alive
  ∧ tracked (update_image e s input).1 (alive_after (update_image e s input).2 alive).
Proof.
  intros Htr. pose proof (tracked_length s alive Htr) as Hlen.
  destruct (running s) eqn:Hrun; cycle 1.
  { unfold update_image. rewrite Hrun. cbn. done. }
  unfold update_image. rewrite Hrun.
  cbn [negb]. fold (loaded e input).
  destruct (loaded e input) as [img|]; cycle 1.
  { cbn. done. }
  destruct (decide (Some (img_width img, img_height img) = frame_size s)).
  { trace_step. split; [done|]. by eapply tracked_same. }
  destruct Htr as [Hth Htr].
  unfold restart_ffmpeg, respawn. cbn [process set_frame_size running frame_size].
  rewrite Hrun.
  destruct (process s) as [h|] eqn:Hproc.
  - assert (alive = [] ∨ alive = [pid h]) as Hal.
    { destruct Htr as [->|(h' & Hh' & -> & _)]; [by left|right]. congruence. }
    destruct (wait_times_out e).
    + trace_step. split; [done|]. split; [done|].
      destruct Hal as [->| ->]; [by left|right]. by exists h.
    + assert (filter (λ q : nat, q ≠ pid h) alive = []) as Hreaped.
      { destruct Hal as [->| ->]; [done|apply reap_wait]. }
      destruct (popen_raises e); trace_step; rewrite Hreaped; trace_step.
      * split; [repeat split; lia|split; [done|by left]].
      * split; [repeat split; lia|]. split; [done|]. right. eexists. cbn.
        by rewrite Hrun.
  - assert (alive = []) as ->.
    { destruct Htr as [->|(h' & Hh' & _)]; [done|congruence]. }
    destruct (popen_raises e); trace_step.
    + split; [repeat split; lia|split; [done|by left]].
    + split; [repeat split; lia|]. split; [done|]. right. eexists. cbn.
      by rewrite Hrun.
Qed.

Lemma run_tracked ops s alive :
  Forall thread_starts ops → tracked s alive → one_at_a_time (run s ops).2 alive.
Proof.
  intros Hops. revert s alive.
  induction Hops as [|o ops Ho Hops IH]; intros s alive Htr.
  { cbn. split; [|done]. by eapply tracked_length. }
  cbn [run].
  assert (one_at_a_time (step s o).2 alive
          ∧ tracked (step s o).1 (alive_after (step s o).2 alive)) as [Hone Htr'].
  { destruct o as [e|e input|b]; cbn [step fst snd].
    - by apply start_tracked.
    - by apply update_image_tracked.
    - by apply stop_tracked. }
  destruct (step s o) as [s1 evs1]. specialize (IH s1 _ Htr').
  destruct (run s1 ops) as [s2 evs2]. cbn [fst snd] in *.
  by apply one_at_a_time_app.
Qed.

(** No encoder is left behind, as long as the sender thread starts.
    Over any sequence of [start], [update_image] and [stop] calls on a new
    bridge in which no [Thread.start] raises, whatever else fails on the
    way (a missing ffmpeg, a [Popen] that raises, a wait that runs into its
    timeout, an image that cannot be opened), at every point of the trace
    at most one encoder process has been started and not yet waited for. *)
Theorem one_encoder_at_a_time host port stream_name fps ops :
  Forall thread_starts ops →
  one_at_a_time (run (init host port stream_name fps) ops).2 [].
Proof. intros Hops. apply run_tracked; [done|]. split; [done|by left]. Qed.

Definition restart_ops : list op :=
  [ Start ready; UpdateImage smooth (FromImage qvga_frame); Stop true;
    Start (StartEnv (Some 0) Started 102 false "1.0" "") ].

Lemma one_encoder_at_a_time_witness :
  Forall thread_starts restart_ops
  ∧ one_at_a_time (run (init "0.0.0.0" 8554 "asiwatchdog" 1) restart_ops).2 [].
Proof.
  assert (Forall thread_starts restart_ops) as Hops by (repeat constructor).
  split; [exact Hops|].
  exact (one_encoder_at_a_time "0.0.0.0" 8554 "asiwatchdog" 1 restart_ops Hops).
Defined.

(** Start, a frame of another size, stop with an encoder that has to be
    killed, and start again: pid 100 is reaped before 101 is started, and
    101 before 102. *)
Example run_restart :
  List.filter (λ ev, is_spawn ev || is_kill ev)
    (run (init "0.0.0.0" 8554 "asiwatchdog" 1) restart_ops).2
  = [ Spawn (Popen 100 (1920, 1080)); Spawn (Popen 101 (2, 2)); Kill 101;
      Spawn (Popen 102 (1920, 1080)) ].
Proof. reflexivity. Qed.

(** When [Thread.start] raises, the encoder just started is left behind:
    the bridge reports running, [stop] fails in [join] before it reaches
    [terminate], and the next [start] adds a second encoder. *)
Example run_leaks_encoder :
  alive_after
    (run (init "0.0.0.0" 8554 "asiwatchdog" 1)
         [ Start (StartEnv (Some 0) Started 100 true "1.0" "can't start new thread");
           Stop false;
           Start (StartEnv (Some 0) Started 101 false "1.0" "") ]).2 []
  = [101%nat; 100%nat].
Proof. reflexivity. Qed.

Definition is_write (ev : event) : bool :=
  match ev with StdinWrite _ _ => true | _ => false end.

(** What the sender thread does to the outside: it writes and it logs,
    nothing else; every write goes to the encoder the bridge holds and
    carries the stored frame as it is; there is at most one write for each
    pass of the loop, and none while no frame is stored. *)
Theorem frame_sender_loop_writes s ticks :
  (∀ ev, ev ∈ (frame_sender_loop s ticks).1.2 →
     match ev with
     | StdinWrite p data =>
         (∃ h, process s = Some h ∧ pid h = p) ∧ last_frame s = Some data
     | Log _ _ => True
     | _ => False
     end)
  ∧ (length (List.filter is_write (frame_sender_loop s ticks).1.2) ≤ length ticks)%nat
  ∧ (last_frame s = None →
     List.filter is_write (frame_sender_loop s ticks).1.2 = []).
Proof.
  unfold frame_sender_loop. destruct (Qeq_bool (fps s) 0).
  { cbn. split_and!; [|lia|done]. intros ev Hev. by apply elem_of_nil in Hev. }
  induction ticks as [|t ticks (IH1 & IH2 & IH3)].
  { cbn. split_and!; [|lia|done]. intros ev Hev. by apply elem_of_nil in Hev. }
  assert (∀ l msg,
            (∀ ev, ev ∈ [Log l msg] →
               match ev with
               | StdinWrite p data =>
                   (∃ h, process s = Some h ∧ pid h = p) ∧ last_frame s = Some data
               | Log _ _ => True
               | _ => False
               end)) as Hlog.
  { intros l msg ev Hev. by apply list_elem_of_singleton in Hev as ->. }
  cbn [sender_passes].
  destruct (process s) as [h|] eqn:Hproc; [|cbn; split_and!; [apply Hlog|lia|done]].
  destruct (running s && negb (exited t)); [|cbn; split_and!; [apply Hlog|lia|done]].
  destruct (last_frame s) as [frame|] eqn:Hframe.
  - destruct (write t).
    + destruct (sender_passes s ticks) as [[s' evs] st]. cbn in *.
      split_and!; [|lia|done].
      intros ev Hev. apply elem_of_cons in Hev as [->|Hev]; [by eauto|].
      apply elem_of_cons in Hev as [->|Hev]; [done|]. by apply IH1.
    + cbn. split_and!; [|lia|done].
      intros ev Hev. apply elem_of_cons in Hev as [->|Hev]; [done|]. by eapply Hlog.
    + destruct (sender_passes s ticks) as [[s' evs] st]. cbn in *.
      split_and!; [|lia|done].
      intros ev Hev. apply elem_of_cons in Hev as [->|Hev]; [done|]. by apply IH1.
  - cbn. split_and!; [done|lia|]. intros _. by apply IH3.
Qed.

Lemma frame_sender_loop_writes_witness :
  List.filter is_write
    (frame_sender_loop live [Tick false Written; Tick false Written]).1.2 = [].
Proof.
  destruct (frame_sender_loop_writes live [Tick false Written; Tick false Written])
    as (_ & _ & Hnone).
  apply Hnone. reflexivity.
Defined.

(** The frame of an earlier run is what a restarted bridge sends first:
    a 2x2 frame goes to the encoder started for 1920x1080. *)
Example stale_frame_after_restart :
  (frame_sender_loop
     (run (init "0.0.0.0" 8554 "asiwatchdog" 1)
          [ Start ready; UpdateImage smooth (FromImage qvga_frame); Stop false;
            Start (StartEnv (Some 0) Started 102 false "1.0" "") ]).1
     [Tick false Written]).1.2
  = [ StdinWrite 102 (bgr_bytes qvga_frame); Log Debug "Sent frame to RTSP (12 bytes)" ].
Proof. reflexivity. Qed.

End RTSP.
